(** * t-rex: a tiny regular expression engine (trex.go)

    Shallow embedding of the compiler ([compile]) and of the backtracking
    matcher ([Match], [match], [matchQuant], [matchLQuant], [matchOne],
    [matchCharClass]) of package [trex], with the properties of its
    specification stated and settled against that embedding.

    Conventions of the embedding
    - a Go [byte] is a [Z] (its code unit); a [[]byte] is a [list byte];
    - a Go [int] is a [Z] kept in the 64-bit signed range by [wrap]
      (Go on 64-bit targets; arithmetic wraps silently);
    - slice cursors and lengths ([i], [j], [idx]) are [nat];
    - an index or a slice bound out of range is a Go run-time panic: the
      matcher lives in [run] (a value or [Panic]), the compiler in
      [result] (a value, an [error] returned by [fmt.Errorf], or
      [GoPanic]);
    - [re.nodes[j].ccl = re.buffer[idx:]] aliases the class buffer: a node
      stores the offset [idx], and the matcher reads the shared buffer. *)

From Stdlib Require Import String Ascii ZArith List Bool Lia.
Import ListNotations.
Open Scope Z_scope.

(* ================================================================== *)
(** ** Bytes, integers, outcomes *)

Definition byte := Z.

(** The code unit of a character literal, ['a'] in the source. *)
Definition chr (a : ascii) : byte := Z.of_N (N_of_ascii a).

(** [[]byte(expr)] for a string literal. *)
Definition bytes (s : string) : list byte := map chr (list_ascii_of_string s).

(** Go [int] on a 64-bit target: two's complement wrap-around. *)
Definition wrap (z : Z) : Z := (z + 2 ^ 63) mod 2 ^ 64 - 2 ^ 63.

Definition max_int : Z := 2 ^ 63 - 1.

(** A computation that returns or hits a run-time panic. *)
Inductive run (A : Type) : Type :=
| Val (a : A)
| Panic.
Arguments Val {A} a.
Arguments Panic {A}.

Definition rbind {A B} (m : run A) (k : A -> run B) : run B :=
  match m with
  | Val a => k a
  | Panic => Panic
  end.

Declare Scope run_scope.
Delimit Scope run_scope with run.
Notation "x <- m ;; k" := (rbind m (fun x => k))
  (at level 61, m at next level, right associativity) : run_scope.
Open Scope run_scope.

(** [s[i]]: panics when [i] is out of range. *)
Definition at_ {A} (s : list A) (i : nat) : run A :=
  match nth_error s i with
  | Some x => Val x
  | None => Panic
  end.

(* ================================================================== *)
(** ** Node types and compiled patterns *)

(** [type Type int] with its constants; the prefix [T] avoids the
    reserved words [End] and [Type] and the constructor [None]. *)
Inductive Type_ : Set :=
| TNone | TBegin | TEnd
| TQuant | TLQuant | TQMark | TLQMark | TStar | TLStar | TPlus | TLPlus
| TDot | TChar | TClass | TNClass
| TDigit | TNDigit | TAlpha | TNAlpha | TSpace | TNSpace.

Definition Type_eqb (a b : Type_) : bool :=
  match a, b with
  | TNone, TNone | TBegin, TBegin | TEnd, TEnd
  | TQuant, TQuant | TLQuant, TLQuant | TQMark, TQMark | TLQMark, TLQMark
  | TStar, TStar | TLStar, TLStar | TPlus, TPlus | TLPlus, TLPlus
  | TDot, TDot | TChar, TChar | TClass, TClass | TNClass, TNClass
  | TDigit, TDigit | TNDigit, TNDigit | TAlpha, TAlpha | TNAlpha, TNAlpha
  | TSpace, TSpace | TNSpace, TNSpace => true
  | _, _ => false
  end.

Definition MaxNodes : nat := 64.
Definition MaxBufLen : nat := 128.
Definition MaxQuant : Z := 1024.
Definition MaxPlus : Z := 40000.

(** [type node struct]. [ccl] is the start of the slice
    [re.buffer[idx:]] ([None] for the nil slice of a zero node). *)
Record node : Set := mkNode {
  typ : Type_;
  ch : byte;
  ccl : option nat;
  mn : Z * Z
}.

Definition zero_node : node := mkNode TNone 0 None (0, 0).

Record Regexp : Set := mkRegexp {
  nodes : list node;
  buffer : list byte
}.

(* ================================================================== *)
(** ** The matcher *)

Definition isMeta (c : byte) : bool :=
  (c =? chr "s") || (c =? chr "S") || (c =? chr "w") || (c =? chr "W")
  || (c =? chr "d") || (c =? chr "D").

Definition isMetaOrEsc (c : byte) : bool :=
  (c =? chr "\") || isMeta c.

Definition matchDot (b : byte) : bool :=
  negb (b =? 10) && negb (b =? 13).

Definition matchDigit (b : byte) : bool :=
  (chr "0" <=? b) && (b <=? chr "9").

Definition matchAlpha (b : byte) : bool :=
  ((chr "a" <=? b) && (b <=? chr "z")) || ((chr "A" <=? b) && (b <=? chr "Z")).

Definition matchAlphaNum (b : byte) : bool :=
  (b =? chr "_") || matchAlpha b || matchDigit b.

Definition matchSpace (b : byte) : bool :=
  (b =? chr " ") || (b =? 9) || (b =? 10) || (b =? 13) || (b =? 12) || (b =? 11).

Definition matchMetaChar (b mb : byte) : bool :=
  if mb =? chr "d" then matchDigit b
  else if mb =? chr "D" then negb (matchDigit b)
  else if mb =? chr "w" then matchAlphaNum b
  else if mb =? chr "W" then negb (matchAlphaNum b)
  else if mb =? chr "s" then matchSpace b
  else if mb =? chr "S" then negb (matchSpace b)
  else b =? mb.

(** [bytes.IndexByte(s, c)]: first index of [c], or [-1]. *)
Fixpoint IndexByte (s : list byte) (c : byte) : Z :=
  match s with
  | [] => -1
  | x :: s' =>
      if x =? c then 0
      else let r := IndexByte s' c in if r <? 0 then -1 else r + 1
  end.

(** The second half of one iteration of the class walk (the range
    test after an element): [str] is the cursor after the element and [i]
    its index in [txt]; [continue_] re-enters the loop at [str], [next]
    re-enters it at [str[1:]] with [i+1]. *)
Definition classRange (b : byte) (txt : list byte) (i : nat) (str : list byte)
    (continue_ next : unit -> run bool) : run bool :=
  s0 <- at_ str 0 ;;
  if negb (s0 =? chr "-") then continue_ tt
  else
    s1 <- at_ str 1 ;;
    if s1 =? 0 then continue_ tt
    else
      meta <- (if s1 =? chr "\" then s2 <- at_ str 2 ;; Val (isMeta s2)
               else Val false) ;;
      if meta then continue_ tt
      else
        rmax <- (if s1 =? chr "\" then at_ str 2 else Val s1) ;;
        lo <- at_ txt (i - 1) ;;
        if (lo <=? b) && (b <=? rmax) then Val true
        else next tt.

(** The loop [for i := 0; str[0] != 0; { ... }] of [matchCharClass]. *)
Fixpoint classLoop (b : byte) (txt : list byte) (i : nat) (str : list byte)
    {struct str} : run bool :=
  match str with
  | [] => Panic
  | s0 :: str1 =>
      if s0 =? 0 then Val false
      else if s0 =? chr "\" then
        match str1 with
        | [] => Panic
        | s1 :: str2 =>
            if matchMetaChar b s1 then Val true
            else
              match str2 with
              | [] => Panic
              | t0 :: str3 =>
                  if isMeta t0 then classLoop b txt (i + 2) str2
                  else classRange b txt (i + 2) str2
                         (fun _ => classLoop b txt (i + 2) str2)
                         (fun _ => classLoop b txt (i + 3) str3)
              end
        end
      else if s0 =? b then Val true
      else classRange b txt (i + 1) str1
             (fun _ => classLoop b txt (i + 1) str1)
             (fun _ => match str1 with
                       | [] => Panic
                       | _ :: str2 => classLoop b txt (i + 2) str2
                       end)
  end.

Definition matchCharClass (b : byte) (txt : list byte) : run bool :=
  let i := IndexByte txt 0 in
  let str := if 0 <? i then firstn (Z.to_nat (i + 1)) txt else txt in
  classLoop b txt 0 str.

(** The slice held by [n.ccl], read from the shared buffer. *)
Definition cclOf (buf : list byte) (n : node) : list byte :=
  match ccl n with
  | Some off => skipn off buf
  | None => []
  end.

Definition rnegb (m : run bool) : run bool := r <- m ;; Val (negb r).

Definition matchOne (buf : list byte) (n : node) (b : byte) : run bool :=
  match typ n with
  | TChar => Val (ch n =? b)
  | TDot => Val (matchDot b)
  | TClass => matchCharClass b (cclOf buf n)
  | TNClass => rnegb (matchCharClass b (cclOf buf n))
  | TDigit => Val (matchDigit b)
  | TNDigit => Val (negb (matchDigit b))
  | TAlpha => Val (matchAlphaNum b)
  | TNAlpha => Val (negb (matchAlphaNum b))
  | TSpace => Val (matchSpace b)
  | TNSpace => Val (negb (matchSpace b))
  | _ => Val false
  end.

Section Quantifiers.
(** [one] is [matchOne(nodes[0], .)], [rest] is [match(nodes[2:], .)]. *)
Variable one : byte -> run bool.
Variable rest : list byte -> run bool.

(** First loop of [matchQuant]; [txt] is the suffix [txt[i:]], the
    result is the final [i]. *)
Fixpoint greedy (txt : list byte) (i : nat) (max : Z) : run nat :=
  if max =? 0 then Val i
  else
    match txt with
    | [] => Val i
    | c :: t =>
        r <- one c ;;
        if r then greedy t (S i) (wrap (max - 1)) else Val i
    end.

(** Second loop of [matchQuant]: [for i >= min { ...; i-- }]. When [i]
    reaches [-1] with [-1 >= min], [txt[i:]] panics. *)
Fixpoint backoff (txt : list byte) (min : Z) (i : nat) : run bool :=
  if Z.of_nat i <? min then Val false
  else
    r <- rest (skipn i txt) ;;
    if r then Val true
    else
      match i with
      | O => if -1 <? min then Val false else Panic
      | S i' => backoff txt min i'
      end.

Definition matchQuant (txt : list byte) (min max : Z) : run bool :=
  i <- greedy txt 0 max ;;
  backoff txt min i.

(** First loop of [matchLQuant]: returns [txt[i:]] and the remaining
    [min]. *)
Fixpoint lazyMin (txt : list byte) (min : Z) : run (list byte * Z) :=
  if min =? 0 then Val (txt, min)
  else
    match txt with
    | [] => Val (txt, min)
    | c :: t =>
        r <- one c ;;
        if r then lazyMin t (wrap (min - 1)) else Val (txt, min)
    end.

(** Second loop of [matchLQuant]. *)
Fixpoint lazyExt (txt : list byte) (max : Z) : run bool :=
  r <- rest txt ;;
  if r then Val true
  else
    let max := wrap (max - 1) in
    if max =? 0 then Val false
    else
      match txt with
      | [] => Val false
      | c :: t =>
          r1 <- one c ;;
          if r1 then lazyExt t max else Val false
      end.

Definition matchLQuant (txt : list byte) (min max : Z) : run bool :=
  let max := wrap (wrap (max - min) + 1) in
  p <- lazyMin txt min ;;
  let '(txt', min') := p in
  if negb (min' =? 0) then Val false
  else lazyExt txt' max.
End Quantifiers.

(** [match(nodes, txt)]: [nodes] is the node cursor (a suffix of
    [re.nodes]). *)
Fixpoint match_ (buf : list byte) (nodes : list node) (txt : list byte)
    {struct nodes} : run bool :=
  match nodes with
  | [] => Panic
  | n0 :: ns =>
      if Type_eqb (typ n0) TNone then Val true
      else
        match ns with
        | [] => Panic
        | n1 :: nn =>
            if Type_eqb (typ n0) TEnd && Type_eqb (typ n1) TNone
            then Val (Nat.eqb (length txt) 0)
            else
              let one := matchOne buf n0 in
              let rest := match_ buf nn in
              match typ n1 with
              | TQMark => matchQuant one rest txt 0 1
              | TLQMark => matchLQuant one rest txt 0 1
              | TQuant => matchQuant one rest txt (fst (mn n1)) (snd (mn n1))
              | TLQuant => matchLQuant one rest txt (fst (mn n1)) (snd (mn n1))
              | TStar => matchQuant one rest txt 0 MaxPlus
              | TLStar => matchLQuant one rest txt 0 MaxPlus
              | TPlus => matchQuant one rest txt 1 MaxPlus
              | TLPlus => matchLQuant one rest txt 1 MaxPlus
              | _ =>
                  match txt with
                  | [] => Val false
                  | c :: t =>
                      r <- one c ;;
                      if r then match_ buf ns t else Val false
                  end
              end
        end
  end.

(** The loop [for len(b) > 0 { ...; b = b[1:] }] of [Match]. *)
Fixpoint scan (buf : list byte) (nodes : list node) (b : list byte) : run bool :=
  match b with
  | [] => Val false
  | _ :: t =>
      r <- match_ buf nodes b ;;
      if r then Val true else scan buf nodes t
  end.

Definition Match (re : Regexp) (b : list byte) : run bool :=
  if Nat.eqb (length b) 0 then Val false
  else
    match nodes re with
    | [] => Panic
    | n0 :: ns =>
        if Type_eqb (typ n0) TBegin then match_ (buffer re) ns b
        else scan (buffer re) (nodes re) b
    end.

(* ================================================================== *)
(** ** The compiler *)

(** One constructor per [fmt.Errorf] of [compile]. *)
Inductive error : Set :=
| EEmpty            (* An empty expression string *)
| ENonQuantStar     (* Non-quantifiable before * *)
| ENonQuantPlus     (* Non-quantifiable before + *)
| ENonQuantQMark    (* Non-quantifiable before ? *)
| EDangling         (* Dangling \ *)
| EDanglingClass    (* Dangling \ in class *)
| EOverflowMeta     (* Buffer overflow at <esc>char in class *)
| EOverflowChar     (* Buffer overflow at [esc]char in class *)
| EBadRange         (* Incorrect range in class *)
| EOverflowRange    (* Buffer overflow at range - in class *)
| ENonTerminated    (* Non terminated class *)
| ENonQuantBrace    (* Non-quantifiable before {m,n} *)
| EMinNonDigit      (* Non-digit in quantifier min value *)
| EMinTooBig        (* Quantifier min value too big *)
| EUnexpectedEnd    (* Unexpected end of string in quantifier *)
| EMaxNonDigit      (* Non-digit in quantifier max value *)
| EMaxBad.          (* Quantifier max value too big or less than min value *)

(** The error kinds of the specification (section 7). *)
Inductive error_kind : Set :=
| EmptyPattern | NonQuantifiable | DanglingEscape | UnterminatedClass
| BadRange | BufferOverflow | BadQuantifier.

Definition kind (e : error) : error_kind :=
  match e with
  | EEmpty => EmptyPattern
  | ENonQuantStar | ENonQuantPlus | ENonQuantQMark | ENonQuantBrace => NonQuantifiable
  | EDangling | EDanglingClass => DanglingEscape
  | EOverflowMeta | EOverflowChar | EOverflowRange => BufferOverflow
  | EBadRange => BadRange
  | ENonTerminated => UnterminatedClass
  | EMinNonDigit | EMinTooBig | EUnexpectedEnd | EMaxNonDigit | EMaxBad => BadQuantifier
  end.

(** Outcome of the compiler: [(re, nil)], [(nil, err)], a run-time panic,
    or the loop budget of the embedding exhausted ([NoFuel], shown
    unreachable in [compile_has_fuel]). *)
Inductive result (A : Type) : Type :=
| Ok (a : A)
| Err (e : error)
| GoPanic
| NoFuel.
Arguments Ok {A} a.
Arguments Err {A} e.
Arguments GoPanic {A}.
Arguments NoFuel {A}.

Definition bind {A B} (m : result A) (k : A -> result B) : result B :=
  match m with
  | Ok a => k a
  | Err e => Err e
  | GoPanic => GoPanic
  | NoFuel => NoFuel
  end.

Declare Scope result_scope.
Delimit Scope result_scope with result.
Notation "x <-- m ;; k" := (bind m (fun x => k))
  (at level 61, m at next level, right associativity) : result_scope.
Notation "' p <-- m ;; k" := (bind m (fun x => let p := x in k))
  (at level 61, p pattern, m at next level, right associativity) : result_scope.
Open Scope result_scope.

(** [s[i] = x] on a slice. *)
Fixpoint set_nth {A} (s : list A) (i : nat) (x : A) : list A :=
  match s, i with
  | [], _ => []
  | _ :: s', O => x :: s'
  | y :: s', S i' => y :: set_nth s' i' x
  end.

(** [s[i]] and [s[i] = x] with Go's bounds check. *)
Definition get {A} (s : list A) (i : nat) : result A :=
  match nth_error s i with
  | Some x => Ok x
  | None => GoPanic
  end.

Definition store {A} (s : list A) (i : nat) (x : A) : result (list A) :=
  if (i <? length s)%nat then Ok (set_nth s i x) else GoPanic.

Definition set_typ (t : Type_) (nd : node) : node :=
  mkNode t (ch nd) (ccl nd) (mn nd).
Definition set_ch (c : byte) (nd : node) : node :=
  mkNode (typ nd) c (ccl nd) (mn nd).
Definition set_ccl (off : nat) (nd : node) : node :=
  mkNode (typ nd) (ch nd) (Some off) (mn nd).
Definition set_mn0 (v : Z) (nd : node) : node :=
  mkNode (typ nd) (ch nd) (ccl nd) (v, snd (mn nd)).
Definition set_mn1 (v : Z) (nd : node) : node :=
  mkNode (typ nd) (ch nd) (ccl nd) (fst (mn nd), v).

(** [re.nodes[j].f = v]. *)
Definition upd (ns : list node) (j : nat) (f : node -> node) : result (list node) :=
  nd <-- get ns j ;; store ns j (f nd).

(** The locals of [compile] that live across loop iterations ([j] is
    threaded by the loop itself). *)
Record cstate : Set := mkState {
  c_i : nat;
  c_quable : bool;
  c_idx : nat;
  c_nodes : list node;
  c_buffer : list byte
}.

(** The state of [compile] before its loop: [i, j, idx := 0], zeroed
    node array and class buffer. *)
Definition init_state : cstate :=
  mkState 0 false 0 (repeat zero_node MaxNodes) (repeat 0 MaxBufLen).

Section Compile.
Variable expr : list byte.
Local Abbreviation n := (length expr).

(** [i < n && expr[i] == c], the guarded look-ahead of the source. *)
Definition peek (i : nat) (c : byte) : bool :=
  match nth_error expr i with
  | Some x => x =? c
  | None => false
  end.

(** First half of the body of the class loop: copy one element. The
    result is the new [(i, idx, buffer)] and whether [continue] was
    taken before the range check. *)
Definition classElem (i idx : nat) (buf : list byte)
  : result (nat * nat * list byte * bool) :=
  c <-- get expr i ;;
  if c =? chr "\" then
    let ii := S i in
    if (n <=? ii)%nat then Err EDanglingClass
    else
      e <-- get expr ii ;;
      if isMetaOrEsc e then
        if (MaxBufLen - 3 <? idx)%nat then Err EOverflowMeta
        else
          buf <-- store buf idx c ;;
          let idx := S idx in
          let i := ii in
          x <-- get expr i ;;
          buf <-- store buf idx x ;;
          let idx := S idx in
          nx <-- get expr (S i) ;;
          if negb (nx =? chr "\") then Ok (i, idx, buf, true)
          else Ok (i, idx, buf, false)
      else
        if (MaxBufLen - 2 <? idx)%nat then Err EOverflowChar
        else
          let i := S i in
          x <-- get expr i ;;
          buf <-- store buf idx x ;;
          Ok (i, S idx, buf, false)
  else
    if (MaxBufLen - 2 <? idx)%nat then Err EOverflowChar
    else
      buf <-- store buf idx c ;;
      Ok (i, S idx, buf, false).

(** Second half of the body ([// check range]): either [continue] with
    the state unchanged, or validate the range and copy its ['-']. *)
Definition classRangeC (i idx : nat) (buf : list byte)
  : result (nat * nat * list byte) :=
  c1 <-- get expr (i + 1) ;;
  if negb (c1 =? chr "-") then Ok (i, idx, buf)
  else if (n <=? i + 2)%nat then Ok (i, idx, buf)
  else
    c2 <-- get expr (i + 2) ;;
    if c2 =? chr "]" then Ok (i, idx, buf)
    else
      let rmax := chr "\" =? c2 in
      skip <-- (if rmax then
                  if (n <=? i + 3)%nat then Ok true
                  else c3 <-- get expr (i + 3) ;; Ok (isMeta c3)
                else Ok false) ;;
      if skip then Ok (i, idx, buf)
      else
        c <-- (if rmax then get expr (i + 3) else get expr (i + 2)) ;;
        ci <-- get expr i ;;
        if c <? ci then Err EBadRange
        else if (MaxBufLen - 2 <? idx)%nat then Err EOverflowRange
        else
          let i := S i in
          x <-- get expr i ;;
          buf <-- store buf idx x ;;
          Ok (i, S idx, buf).

(** [for i++; i < n && expr[i] != ']'; i++ { ... }], entered with the
    incremented [i]; the result is the state at loop exit. *)
Fixpoint classCopy (fuel : nat) (i idx : nat) (buf : list byte)
  : result (nat * nat * list byte) :=
  if (i <? n)%nat && negb (peek i (chr "]")) then
    match fuel with
    | O => NoFuel
    | S fuel' =>
        '(i1, idx1, buf1, cont) <-- classElem i idx buf ;;
        if cont : bool then classCopy fuel' (S i1) idx1 buf1
        else
          '(i2, idx2, buf2) <-- classRangeC i1 idx1 buf1 ;;
          classCopy fuel' (S i2) idx2 buf2
    end
  else Ok (i, idx, buf).

(** [case '[':] *)
Definition compileClass (j : nat) (st : cstate) : result cstate :=
  let i := c_i st in
  '(i, ns) <-- (if peek (S i) (chr "^")
                then ns <-- upd (c_nodes st) j (set_typ TNClass) ;; Ok (S i, ns)
                else ns <-- upd (c_nodes st) j (set_typ TClass) ;; Ok (i, ns)) ;;
  ns <-- (if (length (c_buffer st) <? c_idx st)%nat then GoPanic
          else upd ns j (set_ccl (c_idx st))) ;;
  '(i, idx, buf) <-- classCopy n (S i) (c_idx st) (c_buffer st) ;;
  c <-- get expr i ;;
  if negb (c =? chr "]") then Err ENonTerminated
  else
    buf <-- store buf idx 0 ;;
    Ok (mkState i true (S idx) ns buf).

(** The digit loop of the quantifier minimum, entered at [i]. *)
Fixpoint quantMin (fuel : nat) (i : nat) (val : Z) : result (nat * Z) :=
  if (n <=? i)%nat then Err EMinNonDigit
  else
    c <-- get expr i ;;
    if (c <? chr "0") || (chr "9" <? c) then Err EMinNonDigit
    else
      let val := wrap (wrap (10 * val) + (c - chr "0")) in
      let i := S i in
      c' <-- get expr i ;;
      if (c' =? chr ",") || (c' =? chr "}") then Ok (i, val)
      else
        match fuel with
        | O => NoFuel
        | S fuel' => quantMin fuel' i val
        end.

(** [for expr[i] != '}' { ... }], the digit loop of the maximum. *)
Fixpoint quantMax (fuel : nat) (i : nat) (val : Z) : result (nat * Z) :=
  c <-- get expr i ;;
  if negb (c =? chr "}") then
    if (n <=? i)%nat || (c <? chr "0") || (chr "9" <? c) then Err EMaxNonDigit
    else
      let val := wrap (wrap (10 * val) + (c - chr "0")) in
      match fuel with
      | O => NoFuel
      | S fuel' => quantMax fuel' (S i) val
      end
  else Ok (i, val).

(** [case '{':] *)
Definition compileQuant (j : nat) (st : cstate) : result cstate :=
  if negb (c_quable st) then Err ENonQuantBrace
  else
    let i := S (c_i st) in
    '(i, val) <-- quantMin n i 0 ;;
    if MaxQuant <? val then Err EMinTooBig
    else
      ns <-- upd (c_nodes st) j (set_mn0 val) ;;
      c <-- get expr i ;;
      '(i, val) <-- (if c =? chr "," then
                       let i := S i in
                       if (n <=? i)%nat then Err EUnexpectedEnd
                       else
                         c <-- get expr i ;;
                         if c =? chr "}" then Ok (i, MaxQuant)
                         else
                           '(i, val) <-- quantMax n i 0 ;;
                           nd <-- get ns j ;;
                           if (MaxQuant <? val) || (val <? fst (mn nd))
                           then Err EMaxBad
                           else Ok (i, val)
                     else Ok (i, val)) ;;
      '(i, ns) <-- (if peek (S i) (chr "?")
                    then ns <-- upd ns j (set_typ TLQuant) ;; Ok (S i, ns)
                    else ns <-- upd ns j (set_typ TQuant) ;; Ok (i, ns)) ;;
      ns <-- upd ns j (set_mn1 val) ;;
      Ok (mkState i false (c_idx st) ns (c_buffer st)).

(** [case '*':], [case '+':], [case '?':] (same shape). *)
Definition compileMark (greedyT lazyT : Type_) (e : error) (j : nat) (st : cstate)
  : result cstate :=
  if negb (c_quable st) then Err e
  else
    let i := c_i st in
    if peek (S i) (chr "?")
    then ns <-- upd (c_nodes st) j (set_typ lazyT) ;;
         Ok (mkState (S i) false (c_idx st) ns (c_buffer st))
    else ns <-- upd (c_nodes st) j (set_typ greedyT) ;;
         Ok (mkState i false (c_idx st) ns (c_buffer st)).

(** [case '\\':] *)
Definition compileEscape (j : nat) (st : cstate) : result cstate :=
  let i := S (c_i st) in
  if (n <=? i)%nat then Err EDangling
  else
    e <-- get expr i ;;
    ns <-- (if e =? chr "d" then upd (c_nodes st) j (set_typ TDigit)
            else if e =? chr "D" then upd (c_nodes st) j (set_typ TNDigit)
            else if e =? chr "w" then upd (c_nodes st) j (set_typ TAlpha)
            else if e =? chr "W" then upd (c_nodes st) j (set_typ TNAlpha)
            else if e =? chr "s" then upd (c_nodes st) j (set_typ TSpace)
            else if e =? chr "S" then upd (c_nodes st) j (set_typ TNSpace)
            else ns <-- upd (c_nodes st) j (set_typ TChar) ;;
                 upd ns j (set_ch e)) ;;
    Ok (mkState i true (c_idx st) ns (c_buffer st)).

(** The [switch expr[i]] of the main loop: one iteration without its
    post statement. *)
Definition step (j : nat) (st : cstate) : result cstate :=
  let plain (q : bool) (t : Type_) :=
    ns <-- upd (c_nodes st) j (set_typ t) ;;
    Ok (mkState (c_i st) q (c_idx st) ns (c_buffer st)) in
  c <-- get expr (c_i st) ;;
  if c =? chr "^" then plain false TBegin
  else if c =? chr "$" then plain false TEnd
  else if c =? chr "." then plain true TDot
  else if c =? chr "*" then compileMark TStar TLStar ENonQuantStar j st
  else if c =? chr "+" then compileMark TPlus TLPlus ENonQuantPlus j st
  else if c =? chr "?" then compileMark TQMark TLQMark ENonQuantQMark j st
  else if c =? chr "\" then compileEscape j st
  else if c =? chr "[" then compileClass j st
  else if c =? chr "{" then compileQuant j st
  else
    ns <-- upd (c_nodes st) j (set_typ TChar) ;;
    ns <-- upd ns j (set_ch c) ;;
    Ok (mkState (c_i st) true (c_idx st) ns (c_buffer st)).

(** [for i := 0; i < n && (j+1 < MaxNodes); i, j = i+1, j+1 { ... }] *)
Fixpoint loop (fuel : nat) (j : nat) (st : cstate) : result (nat * cstate) :=
  if (c_i st <? n)%nat && (j + 1 <? MaxNodes)%nat then
    match fuel with
    | O => NoFuel
    | S fuel' =>
        st' <-- step j st ;;
        loop fuel' (S j)
          (mkState (S (c_i st')) (c_quable st') (c_idx st') (c_nodes st') (c_buffer st'))
    end
  else Ok (j, st).

Definition compile : result Regexp :=
  if (n =? 0)%nat then Err EEmpty
  else
    '(j, st) <-- loop MaxNodes 0 init_state ;;
    ns <-- upd (c_nodes st) j (set_typ TNone) ;;
    Ok (mkRegexp ns (c_buffer st)).
End Compile.

Definition Compile (expr : string) : result Regexp := compile (bytes expr).

(** [Compile] then [Match], for the scenarios. *)
Definition CompileMatch (expr txt : string) : result (run bool) :=
  re <-- Compile expr ;; Ok (Match re (bytes txt)).

(* ================================================================== *)
(** ** Statements shared by the properties *)

(** An attempt function [f] is tried at the offsets [0, 1, ..., L-1] in
    increasing order and [r] is the outcome of the trial: [true] at the
    first success, [false] once every offset has failed. *)
Definition tries_in_order (f : nat -> run bool) (L : nat) (r : run bool) : Prop :=
  (r = Val true <->
     exists k, (k < L)%nat /\ f k = Val true /\
               forall k', (k' < k)%nat -> f k' = Val false)
  /\ (r = Val false <-> forall k, (k < L)%nat -> f k = Val false).

(** The anchored rule as the specification words it: [Match] succeeds
    iff the core match of the nodes after [Begin] succeeds at offset 0. *)
Definition anchored_rule (re : Regexp) (b : list byte) : Prop :=
  forall n0 ns, nodes re = n0 :: ns -> typ n0 = TBegin ->
    (Match re b = Val true <-> match_ (buffer re) ns b = Val true).

(** The unanchored rule: the core match is tried at each offset of [b]. *)
Definition unanchored_rule (re : Regexp) (b : list byte) : Prop :=
  forall n0 ns, nodes re = n0 :: ns -> typ n0 <> TBegin ->
    tries_in_order (fun k => match_ (buffer re) (nodes re) (skipn k b))
                   (length b) (Match re b).

(** *** Quantifier routines *)

(** A byte "matches the atom" when the atom test returns [true]. *)
Definition holds (m : run bool) : bool :=
  match m with
  | Val true => true
  | _ => false
  end.

(** Number of leading bytes of [txt] that satisfy [p]. *)
Fixpoint run_length (p : byte -> bool) (txt : list byte) : nat :=
  match txt with
  | [] => 0
  | c :: t => if p c then S (run_length p t) else 0
  end.

(** Counts [hi, hi-1, ..., lo] are tried in decreasing order and [r] is
    the outcome: [true] at the first success, [false] if none succeeds. *)
Definition tries_downward (f : nat -> run bool) (lo hi : nat) (r : run bool) : Prop :=
  (r = Val true <->
     exists k, (lo <= k <= hi)%nat /\ f k = Val true /\
               forall k', (k < k' <= hi)%nat -> f k' = Val false)
  /\ (r = Val false <-> forall k, (lo <= k <= hi)%nat -> f k = Val false).

(** *** Greedy and lazy forms *)

(** Some count in [lo .. hi] lets the rest of the pattern match. *)
Definition some_count (rest : list byte -> run bool) (txt : list byte) (lo hi : nat) : bool :=
  existsb (fun k => holds (rest (skipn k txt))) (seq lo (S hi - lo)).

Definition lazy_type (t : Type_) : Type_ :=
  match t with
  | TQuant => TLQuant
  | TQMark => TLQMark
  | TStar => TLStar
  | TPlus => TLPlus
  | _ => t
  end.

Definition lazy_node (nd : node) : node := set_typ (lazy_type (typ nd)) nd.

(** The bounds of a [{m,n}] node are in order and below the largest [int]. *)
Definition sane_bounds (nd : node) : Prop :=
  typ nd = TQuant -> 0 <= fst (mn nd) <= snd (mn nd) /\ snd (mn nd) < max_int.

(** *** Well-formed node cursors *)

Definition is_quant (t : Type_) : bool :=
  match t with
  | TQuant | TLQuant | TQMark | TLQMark | TStar | TLStar | TPlus | TLPlus => true
  | _ => false
  end.

(** The node types after which [compile] sets [quable]. *)
Definition quantifiable (t : Type_) : bool :=
  match t with
  | TDot | TChar | TClass | TNClass
  | TDigit | TNDigit | TAlpha | TNAlpha | TSpace | TNSpace => true
  | _ => false
  end.

(** A node cursor on which [match] cannot go wrong: it reaches the
    end-of-pattern sentinel, every byte test on the way is defined, and
    no greedy [{m,n}] has a negative minimum. *)
Inductive wf_cursor (buf : list byte) : list node -> Prop :=
| wf_sentinel n0 ns :
    typ n0 = TNone -> wf_cursor buf (n0 :: ns)
| wf_quantified n0 n1 nn :
    typ n0 <> TNone -> is_quant (typ n1) = true ->
    (forall c, matchOne buf n0 c <> Panic) ->
    (typ n1 = TQuant -> 0 <= fst (mn n1)) ->
    wf_cursor buf nn ->
    wf_cursor buf (n0 :: n1 :: nn)
| wf_single n0 n1 nn :
    typ n0 <> TNone -> is_quant (typ n1) = false ->
    (forall c, matchOne buf n0 c <> Panic) ->
    wf_cursor buf (n1 :: nn) ->
    wf_cursor buf (n0 :: n1 :: nn).

(** *** Compiled quantifiers and classes *)

(** The node [j] of a compiled pattern, as [(type, min, max)]. *)
Definition quant_at (r : result Regexp) (j : nat) : option (Type_ * Z * Z) :=
  match r with
  | Ok re =>
      match nth_error (nodes re) j with
      | Some nd => Some (typ nd, fst (mn nd), snd (mn nd))
      | None => None
      end
  | _ => None
  end.

(** [s[lo:hi]] *)
Definition seg {A} (s : list A) (lo hi : nat) : list A := skipn lo (firstn hi s).

(** The payload stored for the bytes [body] written between the
    brackets: an escape [\e] is stored as the two bytes [\], [e] when
    [keep e], and as [e] alone otherwise; any other byte is stored as it
    is. (A body that ends with a lone backslash does not compile.) *)
Fixpoint payload (keep : byte -> bool) (body : list byte) : list byte :=
  match body with
  | [] => []
  | c :: r =>
      if c =? chr "\" then
        match r with
        | [] => []
        | e :: r' =>
            if keep e then c :: e :: payload keep r' else e :: payload keep r'
        end
      else c :: payload keep r
  end.


(** *** Class payloads and the invariant of the compiler *)

(** A payload is a sequence of elements: a byte other than the
    backslash, or a backslash followed by a meta-letter or a backslash. *)
Inductive tokens : list byte -> Prop :=
| tok_nil : tokens []
| tok_byte c l : c <> chr "\" -> tokens l -> tokens (c :: l)
| tok_pair e l : isMetaOrEsc e = true -> tokens l -> tokens (chr "\" :: e :: l).

(** The bytes of [l] before its first zero byte. *)
Fixpoint upto0 (l : list byte) : list byte :=
  match l with
  | [] => []
  | c :: l' => if c =? 0 then [] else c :: upto0 l'
  end.

(** The payload of a class node is in the buffer below [idx]. *)
Definition class_ok (buf : list byte) (idx : nat) (nd : node) : Prop :=
  exists off pay,
    ccl nd = Some off /\ tokens pay
    /\ (off + length pay < idx)%nat /\ (idx <= length buf)%nat
    /\ seg buf off (S (off + length pay)) = pay ++ [0].

(** What the compiler guarantees about a stored node: a class node has
    its payload in the buffer, a [{m,n}] node has its bounds in order and
    at most [MaxQuant]. *)
Definition node_ok (buf : list byte) (idx : nat) (nd : node) : Prop :=
  (typ nd = TClass \/ typ nd = TNClass -> class_ok buf idx nd)
  /\ (typ nd = TQuant -> fst (mn nd) <= snd (mn nd) <= MaxQuant).

(** Invariant of the loop of [compile]. *)
Definition nodes_ok (buf : list byte) (idx : nat) (ns : list node) : Prop :=
  Forall (node_ok buf idx) ns
  /\ exists nd, nth_error ns (MaxNodes - 1) = Some nd /\ typ nd = TNone.

Definition inv (st : cstate) : Prop :=
  (c_idx st <= length (c_buffer st))%nat
  /\ nodes_ok (c_buffer st) (c_idx st) (c_nodes st).

(** *** Sample nodes *)

Definition sample_atom : node := mkNode TChar (chr "a") None (0, 0).


(** The state of [compile] after the atom [a] of a pattern [a...]. *)
Definition sample_state : cstate :=
  mkState 1 true 0 (repeat zero_node MaxNodes) (repeat 0 MaxBufLen).

Definition sample_b : list node := [mkNode TChar (chr "b") None (0, 0); zero_node].

(* ================================================================== *)
(** ** Further code: the type names *)

(** [Type.String]: the table of names, indexed by the type. *)
Definition Type_String (t : Type_) : string :=
  match t with
  | TNone => "None"
  | TBegin => "Begin"
  | TEnd => "End"
  | TQuant => "Quant"
  | TLQuant => "LQuant"
  | TQMark => "QMark"
  | TLQMark => "LQMark"
  | TStar => "Star"
  | TLStar => "LStar"
  | TPlus => "Plus"
  | TLPlus => "LPlus"
  | TDot => "Dot"
  | TChar => "Char"
  | TClass => "Class"
  | TNClass => "NClass"
  | TDigit => "Digit"
  | TNDigit => "NDigit"
  | TAlpha => "Alpha"
  | TNAlpha => "NAlpha"
  | TSpace => "Space"
  | TNSpace => "NSpace"
  end.

(* ================================================================== *)
(** ** Statements about whole patterns *)

(** The pattern bytes that the [switch] of [compile] sends to its
    [default] case. *)
Definition plain_byte (c : byte) : bool :=
  negb ((c =? chr "^") || (c =? chr "$") || (c =? chr ".") || (c =? chr "*")
        || (c =? chr "+") || (c =? chr "?") || (c =? chr "\") || (c =? chr "[")
        || (c =? chr "{")).

(** The node that [compile] stores for an ordinary byte. *)
Definition lit_node (c : byte) : node := mkNode TChar c None (0, 0).

Definition end_node : node := mkNode TEnd 0 None (0, 0).

Definition begin_node : node := mkNode TBegin 0 None (0, 0).

(** [txt] starts with the bytes [p]. *)
Fixpoint is_prefix (p txt : list byte) : bool :=
  match p, txt with
  | [], _ => true
  | _ :: _, [] => false
  | x :: p', y :: t => (x =? y) && is_prefix p' t
  end.

(** [txt] is exactly the bytes [p]. *)
Fixpoint same_bytes (p txt : list byte) : bool :=
  match p, txt with
  | [], [] => true
  | x :: p', y :: t => (x =? y) && same_bytes p' t
  | _, _ => false
  end.

(** The test [f] succeeds on some non-empty suffix of [b]. *)
Fixpoint some_suffix (f : list byte -> bool) (b : list byte) : bool :=
  match b with
  | [] => false
  | _ :: t => f b || some_suffix f t
  end.

(** [p] occurs in [b] as a block of adjacent bytes. *)
Definition occurs (p b : list byte) : Prop :=
  exists pre post, b = pre ++ p ++ post.

(** The decimal value of the digits [ds], continuing from [v]. *)
Definition decimal (v : Z) (ds : list byte) : Z :=
  fold_left (fun v d => 10 * v + (d - chr "0")) ds v.

(** A byte that stands for itself in a class payload. *)
Definition class_byte (c : byte) : bool :=
  negb ((c =? 0) || (c =? chr "\") || (c =? chr "-")).

(** A byte that can be written as it is between the brackets of a
    class: a plain payload byte other than the closing bracket. *)
Definition class_member_byte (c : byte) : bool :=
  class_byte c && negb (c =? chr "]").

(** A node array with [k] pattern nodes: the nodes below [k] are not
    the sentinel, the nodes from [k] on are zeroed (so node [k] is the
    first [None] node). *)
Definition layout (k : nat) (ns : list node) : Prop :=
  length ns = MaxNodes
  /\ forall i nd, nth_error ns i = Some nd ->
       ((i < k)%nat -> typ nd <> TNone) /\ ((k <= i)%nat -> nd = zero_node).

(** The bounds of a [{m,n}] node, greedy or lazy, obey the limit. *)
Definition bounded_quant (nd : node) : Prop :=
  typ nd = TQuant \/ typ nd = TLQuant -> fst (mn nd) <= snd (mn nd) <= MaxQuant.

(** The state of [compile] after the first byte [c] of a pattern, when
    [c] is an ordinary byte. *)
Definition after_atom (c : byte) : cstate :=
  mkState 1 true 0 (lit_node c :: repeat zero_node 63) (repeat 0 MaxBufLen).

Definition is_class (nd : node) : bool :=
  match typ nd with
  | TClass | TNClass => true
  | _ => false
  end.

(** The class payloads of a node array are apart: each class node has a
    payload of whole elements at its offset, followed by a zero byte, all
    of it below [idx], and every class node later in the array starts
    after that zero byte. *)
Definition classes_apart (buf : list byte) (idx : nat) (ns : list node) : Prop :=
  forall j1 nd1, nth_error ns j1 = Some nd1 -> is_class nd1 = true ->
    exists off1 pay1,
      ccl nd1 = Some off1 /\ tokens pay1
      /\ seg buf off1 (S (off1 + length pay1)) = pay1 ++ [0]
      /\ (off1 + length pay1 < idx)%nat
      /\ forall j2 nd2 off2,
           (j1 < j2)%nat -> nth_error ns j2 = Some nd2 ->
           is_class nd2 = true -> ccl nd2 = Some off2 ->
           (off1 + length pay1 < off2)%nat.

(** *** A pattern and the same pattern after a prefix *)

(** A node of the pattern [P], as it is stored when [P] is compiled
    after a prefix that has used [d] bytes of the class buffer. *)
Definition shift_node (d : nat) (nd : node) : node :=
  mkNode (typ nd) (ch nd) (option_map (fun off => (off + d)%nat) (ccl nd)) (mn nd).

(** The first [idx] bytes of [bP] are in [bQ], [d] bytes further. *)
Definition brel (d idx : nat) (bP bQ : list byte) : Prop :=
  forall k, (k < idx)%nat -> nth_error bQ (k + d) = nth_error bP k.

(** The nodes of [nsP] are in [nsQ], two places further, after the
    nodes [A] and [Qn]. *)
Definition nrel (d : nat) (A Qn : node) (nsP nsQ : list node) : Prop :=
  length nsQ = MaxNodes
  /\ nth_error nsQ 0 = Some A /\ nth_error nsQ 1 = Some Qn
  /\ forall k nd, (k + 2 < MaxNodes)%nat -> nth_error nsP k = Some nd ->
       nth_error nsQ (k + 2) = Some (shift_node d nd).

(** The state of [compile] on [P] and its state on [pre ++ P], [s]
    being the length of [pre]. *)
Definition srel (s d : nat) (A Qn : node) (stP stQ : cstate) : Prop :=
  c_i stQ = (c_i stP + s)%nat /\ c_quable stQ = c_quable stP
  /\ c_idx stQ = (c_idx stP + d)%nat
  /\ nrel d A Qn (c_nodes stP) (c_nodes stQ)
  /\ brel d (c_idx stP) (c_buffer stP) (c_buffer stQ).

(** Two node cursors that [match] cannot tell apart: node by node the
    same type and bounds and the same byte test, up to the sentinel. *)
Inductive msim (bufP bufQ : list byte) : list node -> list node -> Prop :=
| msim_sentinel n0 ns n0' ns' :
    typ n0 = TNone -> typ n0' = TNone -> msim bufP bufQ (n0 :: ns) (n0' :: ns')
| msim_cons n0 ns n0' ns' :
    typ n0' = typ n0 -> mn n0' = mn n0 ->
    (forall c, matchOne bufQ n0' c = matchOne bufP n0 c) ->
    msim bufP bufQ ns ns' ->
    msim bufP bufQ (n0 :: ns) (n0' :: ns').

(** [A] is the atom at the start of the pattern [expr]: the first
    iteration of [compile] consumes exactly the bytes of [A] and leaves
    a quantifiable node. *)
Definition reads_atom (expr A : list byte) : Prop :=
  exists st, step expr 0 init_state = Ok st
             /\ S (c_i st) = length A /\ c_quable st = true.

(* ================================================================== *)
(** ** Scenarios of the specification and of the test suite *)

(** The pattern/input table of the specification and the inputs of
    [TestCompileAndMatch], evaluated on the embedding. *)
Lemma scenarios_match :
  CompileMatch ".*" " " = Ok (Val true)
  /\ CompileMatch ".*" "abcd" = Ok (Val true)
  /\ CompileMatch "^[a-z]+\[[0-9]+\]$" "adam[23]" = Ok (Val true)
  /\ CompileMatch "^[a-z]+\[[0-9]+\]$" "eve[7]" = Ok (Val true)
  /\ CompileMatch "^[a-z]+\[[0-9]+\]$" "Job[48]" = Ok (Val false)
  /\ CompileMatch "^[a-z]+\[[0-9]+\]$" "snakey" = Ok (Val false)
  /\ CompileMatch "/$" "/abc/" = Ok (Val true)
  /\ CompileMatch "/$" "/abc" = Ok (Val false)
  /\ CompileMatch "[a\-\]z]+" "az]-bcz" = Ok (Val true)
  /\ CompileMatch "[a\-\]z]+" "ab1234cd" = Ok (Val true)
  /\ CompileMatch "foo.*" "seafood" = Ok (Val true)
  /\ CompileMatch "^abcd$" "abcd" = Ok (Val true)
  /\ CompileMatch "^abcd$" "abcde" = Ok (Val false)
  /\ CompileMatch "日本語+" "日本語" = Ok (Val true)
  /\ CompileMatch "日本語+" "日本語語語語" = Ok (Val true)
  /\ CompileMatch "日本語+" "" = Ok (Val false)
  /\ CompileMatch "[\w\.+-]+@[\w\.-]+\.[\w\.-]+" "kuba--@noreplay.github.com"
     = Ok (Val true)
  /\ CompileMatch "[\w\.+-]+@[\w\.-]+\.[\w\.-]+" "kuba--(at)noreplay.github.com"
     = Ok (Val false)
  /\ CompileMatch "[-a-zA-Z0-9@:%._\+~#=]{2,256}\.[a-z]{2,6}[-a-zA-Z0-9@:%_\+.~#?&//=]*"
       "http://www.foufos.gr" = Ok (Val true)
  /\ CompileMatch "[-a-zA-Z0-9@:%._\+~#=]{2,256}\.[a-z]{2,6}[-a-zA-Z0-9@:%_\+.~#?&//=]*"
       "http://foufos" = Ok (Val false).
Proof. repeat split; vm_compute; reflexivity. Qed.

(** The compilation-error tests of the specification that the code
    passes (the unterminated class [[abc] is treated with the outcomes
    of the compiler, below). *)
Lemma scenarios_errors :
  Compile "" = Err EEmpty /\ kind EEmpty = EmptyPattern
  /\ Compile "*a" = Err ENonQuantStar /\ kind ENonQuantStar = NonQuantifiable
  /\ Compile "a\" = Err EDangling /\ kind EDangling = DanglingEscape
  /\ Compile "[z-a]" = Err EBadRange /\ kind EBadRange = BadRange
  /\ Compile "a{3,2}" = Err EMaxBad /\ kind EMaxBad = BadQuantifier.
Proof. repeat split; vm_compute; reflexivity. Qed.

(* ================================================================== *)
(** ** The top-level predicate [Match] *)

Lemma Type_eqb_eq (a b : Type_) : Type_eqb a b = true <-> a = b.
Proof. destruct a, b; simpl; split; intro H; try reflexivity; discriminate H. Qed.

Lemma Type_eqb_neq (a b : Type_) : Type_eqb a b = false <-> a <> b.
Proof.
  rewrite <- Type_eqb_eq. destruct (Type_eqb a b); split; intro H;
    try reflexivity; try discriminate; try (intro; discriminate).
  exfalso; apply H; reflexivity.
Qed.

Lemma scan_tries (buf : list byte) (ns : list node) (b : list byte) :
  tries_in_order (fun k => match_ buf ns (skipn k b)) (length b) (scan buf ns b).
Proof.
  induction b as [|c t IH].
  - split; split.
    + discriminate.
    + intros (k & Hk & _). inversion Hk.
    + intros _ k Hk. inversion Hk.
    + reflexivity.
  - destruct IH as [IHt IHf]. cbn [scan length].
    destruct (match_ buf ns (c :: t)) as [[|]|] eqn:E; cbn [rbind].
    + split; split.
      * intros _. exists 0%nat. repeat split; [lia | exact E | intros k' Hk'; lia].
      * reflexivity.
      * discriminate.
      * intros H. specialize (H 0%nat ltac:(lia)). cbn [skipn] in H. congruence.
    + split; split.
      * intros H. apply IHt in H. destruct H as (k & Hk & Ht & Hlt).
        exists (S k). repeat split; [lia | exact Ht |].
        intros [|k'] Hk'; [exact E | apply Hlt; lia].
      * intros (k & Hk & Ht & Hlt). apply IHt. destruct k as [|k].
        -- cbn [skipn] in Ht. congruence.
        -- exists k. repeat split; [lia | exact Ht |].
           intros k' Hk'. apply (Hlt (S k')). lia.
      * intros H [|k] Hk; [exact E |]. apply IHf; [exact H | lia].
      * intros H. apply IHf. intros k Hk. apply (H (S k)). lia.
    + split; split.
      * discriminate.
      * intros (k & Hk & Ht & Hlt). destruct k as [|k].
        -- cbn [skipn] in Ht. congruence.
        -- specialize (Hlt 0%nat ltac:(lia)). cbn [skipn] in Hlt. congruence.
      * discriminate.
      * intros H. specialize (H 0%nat ltac:(lia)). cbn [skipn] in H. congruence.
Qed.

(** C4. For every compiled pattern, [Match] on the empty input returns
    [false], whatever the pattern. *)
Theorem Match_empty_input (re : Regexp) : Match re [] = Val false.
Proof. reflexivity. Qed.

(** C5, counterexample. The pattern [^a*] starts with [Begin] and the
    core match of its un-anchored suffix succeeds at offset 0 of the
    empty input, yet [Match] answers [false]: the anchored rule fails on
    the empty input. *)
Lemma anchored_rule_fails_on_empty_input :
  exists re, Compile "^a*" = Ok re /\ ~ anchored_rule re [].
Proof.
  eexists. split; [vm_compute; reflexivity |].
  intros H.
  specialize (H _ _ eq_refl eq_refl).
  destruct H as [_ H]. specialize (H eq_refl). discriminate H.
Qed.

(** C5, on non-empty input. When the first node is [Begin],
    [Match] is exactly one core match of the nodes after the anchor at
    offset 0 (so it succeeds iff that match does); otherwise the core
    match is tried at offsets 0, 1, 2, ... in increasing order, [true] at
    the first success and [false] when all offsets have been tried. *)
Theorem Match_anchored_or_scanning (re : Regexp) (b : list byte) :
  b <> [] ->
  (forall n0 ns, nodes re = n0 :: ns -> typ n0 = TBegin ->
     Match re b = match_ (buffer re) ns b)
  /\ anchored_rule re b
  /\ unanchored_rule re b.
Proof.
  intros Hb.
  assert (Hanch : forall n0 ns, nodes re = n0 :: ns -> typ n0 = TBegin ->
                    Match re b = match_ (buffer re) ns b).
  { intros n0 ns Hn Ht. unfold Match. destruct b as [|c t]; [congruence |].
    cbn [length Nat.eqb]. rewrite Hn.
    apply Type_eqb_eq in Ht. rewrite Ht. reflexivity. }
  split; [exact Hanch |]. split.
  - intros n0 ns Hn Ht. rewrite (Hanch n0 ns Hn Ht). tauto.
  - intros n0 ns Hn Ht. unfold Match. destruct b as [|c t]; [congruence |].
    cbn [Nat.eqb]. rewrite Hn.
    apply Type_eqb_neq in Ht. rewrite Ht. rewrite <- Hn. apply scan_tries.
Qed.

(** C5, instance: [^abcd$] against [abcd]. *)
Lemma Match_anchored_or_scanning_witness :
  exists re, Compile "^abcd$" = Ok re /\
    bytes "abcd" <> [] /\
    ((forall n0 ns, nodes re = n0 :: ns -> typ n0 = TBegin ->
        Match re (bytes "abcd") = match_ (buffer re) ns (bytes "abcd"))
     /\ anchored_rule re (bytes "abcd")
     /\ unanchored_rule re (bytes "abcd")).
Proof.
  eexists. split; [vm_compute; reflexivity |].
  split; [discriminate |].
  apply Match_anchored_or_scanning. discriminate.
Defined.

(** C10. When the first node is not [Begin], [Match] on an input of
    length [L] is decided by the core match at the offsets [0 .. L-1]
    alone, tried in order; the empty suffix (offset [L]) is never
    attempted. Consequently the pattern [$] (nodes [End],
    end-of-pattern), whose core match succeeds on the empty suffix only,
    is rejected on every input. *)
Theorem Match_never_tries_empty_suffix :
  (forall re b, unanchored_rule re b)
  /\ (exists re, Compile "$" = Ok re
        /\ match_ (buffer re) (nodes re) [] = Val true
        /\ forall b, Match re b = Val false).
Proof.
  split.
  - intros re b n0 ns Hn Ht. unfold Match. rewrite Hn.
    apply Type_eqb_neq in Ht. rewrite Ht. rewrite <- Hn.
    destruct b as [|c t].
    + cbn [length Nat.eqb]. apply (scan_tries (buffer re) (nodes re) []).
    + cbn [length Nat.eqb]. apply scan_tries.
  - eexists. split; [vm_compute; reflexivity |]. split; [reflexivity |].
    intros b. unfold Match. destruct b as [|c t]; [reflexivity |].
    cbn [length Nat.eqb nodes buffer Type_eqb typ].
    generalize (c :: t). intros l. induction l as [|x l IH]; [reflexivity |].
    cbn [scan]. replace (match_ _ _ (x :: l)) with (Val (A:=bool) false) by reflexivity.
    cbn [rbind]. exact IH.
Qed.

(** C10, instance: [foo.*] against [seafood]. *)
Lemma Match_never_tries_empty_suffix_witness :
  exists re, Compile "foo.*" = Ok re /\ unanchored_rule re (bytes "seafood").
Proof.
  eexists. split; [vm_compute; reflexivity |].
  apply (proj1 Match_never_tries_empty_suffix).
Defined.

(* ================================================================== *)
(** ** The greedy quantifier routine *)

Lemma wrap_small (z : Z) : - 2 ^ 63 <= z < 2 ^ 63 -> wrap z = z.
Proof.
  intros H. unfold wrap.
  change (2 ^ 63) with 9223372036854775808 in *.
  change (2 ^ 64) with 18446744073709551616.
  rewrite Z.mod_small; lia.
Qed.

Section GreedyFacts.
Variable one : byte -> run bool.
Variable rest : list byte -> run bool.

Lemma greedy_count (txt : list byte) :
  (forall c, In c txt -> one c <> Panic) ->
  forall (i : nat) (max : Z), 0 <= max <= max_int ->
    greedy one txt i max
    = Val (i + Nat.min (Z.to_nat max) (run_length (fun c => holds (one c)) txt))%nat.
Proof.
  induction txt as [|c t IH]; intros Hone i max Hmax.
  - cbn [greedy run_length]. destruct (max =? 0); f_equal; lia.
  - cbn [greedy run_length].
    destruct (Z.eqb_spec max 0) as [-> | Hne].
    + f_equal. cbn. lia.
    + assert (Hc : one c <> Panic) by (apply Hone; left; reflexivity).
      destruct (one c) as [[|]|] eqn:E; cbn [rbind holds]; [| f_equal; lia | congruence].
      rewrite wrap_small by (unfold max_int in Hmax;
        change (2 ^ 63) with 9223372036854775808 in *; lia).
      rewrite IH; [| intros x Hx; apply Hone; right; exact Hx | lia].
      f_equal.
      replace (Z.to_nat max) with (S (Z.to_nat (max - 1))) by lia.
      cbn [Nat.min]. lia.
Qed.

Lemma backoff_tries (txt : list byte) (min : Z) :
  0 <= min ->
  forall i : nat,
    tries_downward (fun k => rest (skipn k txt)) (Z.to_nat min) i
                   (backoff rest txt min i).
Proof.
  intros Hmin. induction i as [|i IH].
  - cbn [backoff]. destruct (Z.ltb_spec (Z.of_nat 0) min) as [Hlt | Hge].
    + split; split.
      * discriminate.
      * intros (k & Hk & _). lia.
      * intros _ k Hk. lia.
      * reflexivity.
    + assert (min = 0) by lia. subst min.
      destruct (rest (skipn 0 txt)) as [[|]|] eqn:E; cbn [rbind].
      * split; split.
        -- intros _. exists 0%nat. repeat split; [lia | lia | exact E | intros; lia].
        -- reflexivity.
        -- discriminate.
        -- intros H. specialize (H 0%nat ltac:(lia)). congruence.
      * change (-1 <? 0) with true. cbv iota.
        split; split.
        -- discriminate.
        -- intros (k & Hk & Ht & _). assert (k = 0%nat) by lia. subst k. congruence.
        -- intros _ k Hk. assert (k = 0%nat) by lia. subst k. exact E.
        -- reflexivity.
      * split; split.
        -- discriminate.
        -- intros (k & Hk & Ht & _). assert (k = 0%nat) by lia. subst k. congruence.
        -- discriminate.
        -- intros H. specialize (H 0%nat ltac:(lia)). congruence.
  - destruct IH as [IHt IHf]. cbn [backoff].
    destruct (Z.ltb_spec (Z.of_nat (S i)) min) as [Hlt | Hge].
    + split; split.
      * discriminate.
      * intros (k & Hk & _). lia.
      * intros _ k Hk. lia.
      * reflexivity.
    + destruct (rest (skipn (S i) txt)) as [[|]|] eqn:E; cbn [rbind].
      * split; split.
        -- intros _. exists (S i). repeat split; [lia | lia | exact E | intros; lia].
        -- reflexivity.
        -- discriminate.
        -- intros H. specialize (H (S i) ltac:(lia)). congruence.
      * split; split.
        -- intros H. apply IHt in H. destruct H as (k & Hk & Ht & Hlt).
           exists k. repeat split; [lia | lia | exact Ht |].
           intros k' Hk'. destruct (Nat.eq_dec k' (S i)) as [-> | Hne];
             [exact E | apply Hlt; lia].
        -- intros (k & Hk & Ht & Hlt). apply IHt.
           destruct (Nat.eq_dec k (S i)) as [-> | Hne]; [congruence |].
           exists k. repeat split; [lia | lia | exact Ht |].
           intros k' Hk'. apply Hlt. lia.
        -- intros H k Hk. destruct (Nat.eq_dec k (S i)) as [-> | Hne];
             [exact E | apply IHf; [exact H | lia]].
        -- intros H. apply IHf. intros k Hk. apply H. lia.
      * split; split.
        -- discriminate.
        -- intros (k & Hk & Ht & Hlt).
           destruct (Nat.eq_dec k (S i)) as [-> | Hne]; [congruence |].
           specialize (Hlt (S i) ltac:(lia)). congruence.
        -- discriminate.
        -- intros H. specialize (H (S i) ltac:(lia)). congruence.
Qed.

Lemma matchQuant_tries (txt : list byte) (min max : Z) :
  0 <= min -> 0 <= max <= max_int ->
  (forall c, In c txt -> one c <> Panic) ->
  tries_downward (fun k => rest (skipn k txt)) (Z.to_nat min)
    (Nat.min (Z.to_nat max) (run_length (fun c => holds (one c)) txt))
    (matchQuant one rest txt min max).
Proof.
  intros Hmin Hmax Hone. unfold matchQuant.
  rewrite greedy_count by assumption. cbn [rbind Nat.add].
  apply backoff_tries. exact Hmin.
Qed.
End GreedyFacts.




(* ================================================================== *)
(** ** Totality of the matcher on well-formed node cursors *)

Section Totality.
Variable one : byte -> run bool.
Variable rest : list byte -> run bool.
Hypothesis one_total : forall c, one c <> Panic.
Hypothesis rest_total : forall t, rest t <> Panic.

Lemma greedy_total (txt : list byte) :
  forall (i : nat) (max : Z), exists k, greedy one txt i max = Val k.
Proof.
  induction txt as [|c t IH]; intros i max; cbn [greedy].
  - destruct (max =? 0); eauto.
  - destruct (max =? 0); eauto.
    specialize (one_total c).
    destruct (one c) as [[|]|]; cbn [rbind]; eauto. congruence.
Qed.

Lemma backoff_total (txt : list byte) (min : Z) :
  0 <= min -> forall i, backoff rest txt min i <> Panic.
Proof.
  intros Hmin. induction i as [|i IH]; cbn [backoff].
  - destruct (Z.ltb_spec (Z.of_nat 0) min); [discriminate |].
    specialize (rest_total (skipn 0 txt)).
    destruct (rest (skipn 0 txt)) as [[|]|]; cbn [rbind]; try congruence.
    destruct (Z.ltb_spec (-1) min); [discriminate | lia].
  - destruct (Z.ltb_spec (Z.of_nat (S i)) min); [discriminate |].
    specialize (rest_total (skipn (S i) txt)).
    destruct (rest (skipn (S i) txt)) as [[|]|]; cbn [rbind]; congruence.
Qed.

Lemma matchQuant_total (txt : list byte) (min max : Z) :
  0 <= min -> matchQuant one rest txt min max <> Panic.
Proof.
  intros Hmin. unfold matchQuant.
  destruct (greedy_total txt 0 max) as [k ->]. cbn [rbind].
  apply backoff_total. exact Hmin.
Qed.

Lemma lazyMin_total (txt : list byte) :
  forall min, exists p, lazyMin one txt min = Val p.
Proof.
  induction txt as [|c t IH]; intros min; cbn [lazyMin].
  - destruct (min =? 0); eauto.
  - destruct (min =? 0); eauto.
    specialize (one_total c).
    destruct (one c) as [[|]|]; cbn [rbind]; eauto. congruence.
Qed.

Lemma lazyExt_total (txt : list byte) :
  forall max, lazyExt one rest txt max <> Panic.
Proof.
  induction txt as [|c t IH]; intros max; cbn [lazyExt].
  - specialize (rest_total []).
    destruct (rest []) as [[|]|]; cbn [rbind]; try congruence.
    destruct (wrap (max - 1) =? 0); discriminate.
  - specialize (rest_total (c :: t)).
    destruct (rest (c :: t)) as [[|]|]; cbn [rbind]; try congruence.
    destruct (wrap (max - 1) =? 0); [discriminate |].
    specialize (one_total c).
    destruct (one c) as [[|]|]; cbn [rbind]; [apply IH | discriminate | congruence].
Qed.

Lemma matchLQuant_total (txt : list byte) (min max : Z) :
  matchLQuant one rest txt min max <> Panic.
Proof.
  unfold matchLQuant.
  destruct (lazyMin_total txt min) as [[t' m'] ->]. cbn [rbind].
  destruct (negb (m' =? 0)); [discriminate | apply lazyExt_total].
Qed.
End Totality.

(** The body of [match] on a cursor with at least two nodes. *)
Lemma match_unfold (buf : list byte) (n0 n1 : node) (nn : list node) (txt : list byte) :
  match_ buf (n0 :: n1 :: nn) txt =
  if Type_eqb (typ n0) TNone then Val true
  else if Type_eqb (typ n0) TEnd && Type_eqb (typ n1) TNone
  then Val (Nat.eqb (length txt) 0)
  else
    let one := matchOne buf n0 in
    let rest := match_ buf nn in
    match typ n1 with
    | TQMark => matchQuant one rest txt 0 1
    | TLQMark => matchLQuant one rest txt 0 1
    | TQuant => matchQuant one rest txt (fst (mn n1)) (snd (mn n1))
    | TLQuant => matchLQuant one rest txt (fst (mn n1)) (snd (mn n1))
    | TStar => matchQuant one rest txt 0 MaxPlus
    | TLStar => matchLQuant one rest txt 0 MaxPlus
    | TPlus => matchQuant one rest txt 1 MaxPlus
    | TLPlus => matchLQuant one rest txt 1 MaxPlus
    | _ =>
        match txt with
        | [] => Val false
        | c :: t =>
            r <- one c ;;
            if r then match_ buf (n1 :: nn) t else Val false
        end
    end.
Proof. reflexivity. Qed.

Lemma match_total (buf : list byte) (ns : list node) :
  wf_cursor buf ns -> forall txt, match_ buf ns txt <> Panic.
Proof.
  induction 1 as [n0 ns H0 | n0 n1 nn H0 Hq Hone Hmin Hnn IH
                 | n0 n1 nn H0 Hq Hone Hns IH]; intros txt.
  - cbn [match_]. rewrite H0. discriminate.
  - rewrite match_unfold. apply Type_eqb_neq in H0. rewrite H0.
    destruct (Type_eqb (typ n0) TEnd && Type_eqb (typ n1) TNone); [discriminate |].
    cbv zeta.
    destruct (typ n1) eqn:E; try discriminate Hq;
      solve [ apply matchQuant_total; [exact Hone | exact IH | first [lia | apply Hmin; reflexivity]]
            | apply matchLQuant_total; [exact Hone | exact IH] ].
  - rewrite match_unfold. apply Type_eqb_neq in H0. rewrite H0.
    destruct (Type_eqb (typ n0) TEnd && Type_eqb (typ n1) TNone); [discriminate |].
    cbv zeta.
    assert (Hbyte : match txt with
                    | [] => Val false
                    | c :: t => r <- matchOne buf n0 c ;;
                                if r then match_ buf (n1 :: nn) t else Val false
                    end <> Panic).
    { destruct txt as [|c t]; [discriminate |].
      specialize (Hone c). destruct (matchOne buf n0 c) as [[|]|]; cbn [rbind];
        [apply IH | discriminate | congruence]. }
    destruct (typ n1) eqn:E; try discriminate Hq; exact Hbyte.
Qed.

Lemma scan_total (buf : list byte) (ns : list node) :
  (forall t, match_ buf ns t <> Panic) -> forall b, scan buf ns b <> Panic.
Proof.
  intros H. induction b as [|c t IH]; cbn [scan]; [discriminate |].
  specialize (H (c :: t)). destruct (match_ buf ns (c :: t)) as [[|]|]; cbn [rbind];
    [discriminate | exact IH | congruence].
Qed.

(** [Match] never panics on a well-formed compiled pattern. *)
Lemma Match_total (re : Regexp) (b : list byte) :
  wf_cursor (buffer re) (nodes re) ->
  (forall n0 ns, nodes re = n0 :: ns -> typ n0 = TBegin -> wf_cursor (buffer re) ns) ->
  Match re b <> Panic.
Proof.
  intros Hwf Hanch. unfold Match.
  destruct (Nat.eqb (length b) 0); [discriminate |].
  destruct (nodes re) as [|n0 ns] eqn:En; [inversion Hwf |].
  destruct (Type_eqb (typ n0) TBegin) eqn:Eb.
  - apply match_total. apply (Hanch n0 ns eq_refl). apply Type_eqb_eq. exact Eb.
  - apply scan_total. apply match_total. exact Hwf.
Qed.

(* ================================================================== *)
(** ** Greedy and lazy quantifiers try the same counts *)

Lemma existsb_pointwise {A} (f g : A -> bool) (l : list A) :
  (forall x, f x = g x) -> existsb f l = existsb g l.
Proof.
  intros H. induction l as [|x l IH]; [reflexivity |].
  cbn [existsb]. rewrite H, IH. reflexivity.
Qed.

Lemma existsb_through_map {A B} (f : B -> bool) (g : A -> B) (l : list A) :
  existsb f (map g l) = existsb (fun x => f (g x)) l.
Proof.
  induction l as [|x l IH]; [reflexivity |].
  cbn [map existsb]. rewrite IH. reflexivity.
Qed.

Lemma existsb_seq_shift (f : nat -> bool) (lo n : nat) :
  existsb f (seq lo n) = existsb (fun k => f (lo + k)%nat) (seq 0 n).
Proof.
  revert lo f. induction n as [|n IH]; intros lo f; [reflexivity |].
  cbn [seq existsb]. rewrite Nat.add_0_r. f_equal.
  rewrite (IH (S lo)), (IH 1%nat). apply existsb_pointwise. intros k.
  f_equal. lia.
Qed.

Lemma run_length_skipn (p : byte -> bool) (txt : list byte) (c : nat) :
  (c <= run_length p txt)%nat ->
  run_length p (skipn c txt) = (run_length p txt - c)%nat.
Proof.
  revert txt. induction c as [|c IH]; intros txt Hc.
  - cbn [skipn]. lia.
  - destruct txt as [|x t]; [cbn in Hc; lia |].
    cbn [run_length] in *. destruct (p x); [| lia].
    cbn [skipn]. rewrite IH by lia. lia.
Qed.

Section Duality.
Variable one : byte -> run bool.
Variable rest : list byte -> run bool.
Hypothesis one_total : forall c, one c <> Panic.
Hypothesis rest_total : forall t, rest t <> Panic.

Local Abbreviation p := (fun c => holds (one c)).

Lemma rest_holds (t : list byte) : rest t = Val (holds (rest t)).
Proof.
  specialize (rest_total t). destruct (rest t) as [[|]|]; [reflexivity | reflexivity | congruence].
Qed.

Lemma backoff_value (txt : list byte) (min : Z) :
  0 <= min ->
  forall i, backoff rest txt min i = Val (some_count rest txt (Z.to_nat min) i).
Proof.
  intros Hmin. unfold some_count. induction i as [|i IH]; cbn [backoff].
  - destruct (Z.ltb_spec (Z.of_nat 0) min) as [Hlt | Hge].
    + replace (1 - Z.to_nat min)%nat with 0%nat by lia. reflexivity.
    + assert (min = 0) by lia. subst min. cbn [Z.to_nat Nat.sub seq existsb].
      rewrite (rest_holds (skipn 0 txt)). cbn [rbind].
      destruct (holds (rest (skipn 0 txt))); reflexivity.
  - destruct (Z.ltb_spec (Z.of_nat (S i)) min) as [Hlt | Hge].
    + replace (S (S i) - Z.to_nat min)%nat with 0%nat by lia. reflexivity.
    + replace (S (S i) - Z.to_nat min)%nat with (S (S i - Z.to_nat min)) by lia.
      rewrite seq_S, existsb_app. cbn [existsb].
      replace (Z.to_nat min + (S i - Z.to_nat min))%nat with (S i) by lia.
      rewrite (rest_holds (skipn (S i) txt)). cbn [rbind].
      destruct (holds (rest (skipn (S i) txt))).
      * cbn [holds orb]. rewrite orb_true_r. reflexivity.
      * cbn [holds orb]. rewrite orb_false_r. exact IH.
Qed.

Lemma matchQuant_value (txt : list byte) (min max : Z) :
  0 <= min -> 0 <= max <= max_int ->
  matchQuant one rest txt min max
  = Val (some_count rest txt (Z.to_nat min)
           (Nat.min (Z.to_nat max) (run_length p txt))).
Proof.
  intros Hmin Hmax. unfold matchQuant.
  rewrite greedy_count by (auto || lia). cbn [rbind Nat.add].
  apply backoff_value. exact Hmin.
Qed.

Lemma lazyMin_value (txt : list byte) :
  forall min, 0 <= min <= max_int ->
    lazyMin one txt min
    = Val (skipn (Nat.min (Z.to_nat min) (run_length p txt)) txt,
           min - Z.of_nat (Nat.min (Z.to_nat min) (run_length p txt))).
Proof.
  induction txt as [|c t IH]; intros min Hmin; cbn [lazyMin run_length].
  - rewrite Nat.min_0_r. cbn [skipn Z.of_nat]. rewrite Z.sub_0_r.
    destruct (min =? 0); reflexivity.
  - destruct (Z.eqb_spec min 0) as [-> | Hne].
    + cbn [Z.to_nat Nat.min skipn Z.of_nat]. reflexivity.
    + specialize (one_total c).
      destruct (one c) as [[|]|]; cbn [rbind holds]; [| | congruence].
      * rewrite wrap_small by (unfold max_int in Hmin;
          change (2 ^ 63) with 9223372036854775808 in *; lia).
        rewrite IH by lia.
        replace (Z.to_nat min) with (S (Z.to_nat (min - 1))) by lia.
        cbn [Nat.min skipn]. f_equal. f_equal. lia.
      * rewrite Nat.min_0_r. cbn [skipn Z.of_nat]. rewrite Z.sub_0_r. reflexivity.
Qed.

Lemma lazyExt_value (txt : list byte) :
  forall m, 1 <= m <= max_int ->
    lazyExt one rest txt m
    = Val (some_count rest txt 0 (Nat.min (Z.to_nat (m - 1)) (run_length p txt))).
Proof.
  unfold some_count.
  induction txt as [|c t IH]; intros m Hm; cbn [lazyExt run_length].
  - rewrite Nat.min_0_r. cbn [Nat.sub seq existsb].
    rewrite (rest_holds []). cbn [rbind skipn].
    destruct (holds (rest [])); [reflexivity |].
    destruct (wrap (m - 1) =? 0); reflexivity.
  - rewrite (rest_holds (c :: t)). cbn [rbind].
    rewrite Nat.sub_0_r. cbn [seq existsb skipn].
    destruct (holds (rest (c :: t))); [reflexivity |]. cbn [orb].
    rewrite wrap_small by (unfold max_int in Hm;
      change (2 ^ 63) with 9223372036854775808 in *; lia).
    destruct (Z.eqb_spec (m - 1) 0) as [E0 | Hne].
    + rewrite E0. cbn [Z.to_nat Nat.min seq existsb]. reflexivity.
    + specialize (one_total c).
      destruct (one c) as [[|]|]; cbn [rbind holds]; [| | congruence].
      * rewrite IH by lia. rewrite Nat.sub_0_r.
        replace (Z.to_nat (m - 1)) with (S (Z.to_nat (m - 1 - 1))) by lia.
        cbn [Nat.min]. rewrite <- seq_shift, existsb_through_map. reflexivity.
      * rewrite Nat.min_0_r. reflexivity.
Qed.

Lemma matchLQuant_value (txt : list byte) (min max : Z) :
  0 <= min <= max -> max < max_int ->
  matchLQuant one rest txt min max
  = Val (some_count rest txt (Z.to_nat min)
           (Nat.min (Z.to_nat max) (run_length p txt))).
Proof.
  intros Hb Hmax. unfold matchLQuant.
  rewrite lazyMin_value by lia. cbn [rbind].
  assert (Hw : wrap (wrap (max - min) + 1) = max - min + 1).
  { rewrite (wrap_small (max - min)) by (unfold max_int in Hmax;
      change (2 ^ 63) with 9223372036854775808 in *; lia).
    apply wrap_small. unfold max_int in Hmax.
    change (2 ^ 63) with 9223372036854775808 in *. lia. }
  rewrite Hw. clear Hw.
  destruct (Nat.le_gt_cases (Z.to_nat min) (run_length p txt)) as [Hle | Hgt].
  - replace (Nat.min (Z.to_nat min) (run_length p txt)) with (Z.to_nat min) by lia.
    replace (min - Z.of_nat (Z.to_nat min)) with 0 by lia. cbn [Z.eqb negb].
    rewrite lazyExt_value by lia. f_equal. unfold some_count.
    rewrite run_length_skipn by exact Hle.
    rewrite Nat.sub_0_r.
    rewrite (existsb_seq_shift _ (Z.to_nat min)).
    replace (S (Nat.min (Z.to_nat max) (run_length p txt)) - Z.to_nat min)%nat
      with (S (Nat.min (Z.to_nat (max - min + 1 - 1))
                       (run_length p txt - Z.to_nat min))) by lia.
    apply existsb_pointwise. intros k. rewrite skipn_skipn.
    replace (k + Z.to_nat min)%nat with (Z.to_nat min + k)%nat by lia. reflexivity.
  - replace (Nat.min (Z.to_nat min) (run_length p txt)) with (run_length p txt) by lia.
    destruct (Z.eqb_spec (min - Z.of_nat (run_length p txt)) 0) as [E | _]; [lia |].
    cbn [negb]. unfold some_count.
    replace (S (Nat.min (Z.to_nat max) (run_length p txt)) - Z.to_nat min)%nat
      with 0%nat by lia. reflexivity.
Qed.

Lemma greedy_lazy_same_counts (txt : list byte) (min max : Z) :
  0 <= min <= max -> max < max_int ->
  matchLQuant one rest txt min max = matchQuant one rest txt min max.
Proof.
  intros Hb Hmax. rewrite matchLQuant_value, matchQuant_value by lia. reflexivity.
Qed.
End Duality.

Section Extensionality.
Variables one one' : byte -> run bool.
Variables rest rest' : list byte -> run bool.
Hypothesis one_ext : forall c, one' c = one c.
Hypothesis rest_ext : forall t, rest' t = rest t.

Lemma greedy_ext (txt : list byte) :
  forall i max, greedy one' txt i max = greedy one txt i max.
Proof.
  induction txt as [|c t IH]; intros i max; cbn [greedy]; [reflexivity |].
  rewrite one_ext. destruct (max =? 0); [reflexivity |].
  destruct (one c) as [[|]|]; cbn [rbind]; auto.
Qed.

Lemma backoff_ext (txt : list byte) (min : Z) :
  forall i, backoff rest' txt min i = backoff rest txt min i.
Proof.
  induction i as [|i IH]; cbn [backoff]; rewrite rest_ext; [reflexivity |].
  rewrite IH. reflexivity.
Qed.

Lemma matchQuant_ext (txt : list byte) (min max : Z) :
  matchQuant one' rest' txt min max = matchQuant one rest txt min max.
Proof.
  unfold matchQuant. rewrite greedy_ext.
  destruct (greedy one txt 0 max); cbn [rbind]; [apply backoff_ext | reflexivity].
Qed.

Lemma lazyMin_ext (txt : list byte) :
  forall min, lazyMin one' txt min = lazyMin one txt min.
Proof.
  induction txt as [|c t IH]; intros min; cbn [lazyMin]; [reflexivity |].
  rewrite one_ext. destruct (min =? 0); [reflexivity |].
  destruct (one c) as [[|]|]; cbn [rbind]; auto.
Qed.

Lemma lazyExt_ext (txt : list byte) :
  forall max, lazyExt one' rest' txt max = lazyExt one rest txt max.
Proof.
  induction txt as [|c t IH]; intros max; cbn [lazyExt]; rewrite rest_ext;
    [reflexivity |].
  rewrite one_ext.
  destruct (rest (c :: t)) as [[|]|]; cbn [rbind]; try reflexivity.
  destruct (wrap (max - 1) =? 0); [reflexivity |].
  destruct (one c) as [[|]|]; cbn [rbind]; auto.
Qed.

Lemma matchLQuant_ext (txt : list byte) (min max : Z) :
  matchLQuant one' rest' txt min max = matchLQuant one rest txt min max.
Proof.
  unfold matchLQuant. rewrite lazyMin_ext.
  destruct (lazyMin one txt min) as [[t' m']|]; cbn [rbind]; [| reflexivity].
  destruct (negb (m' =? 0)); [reflexivity | apply lazyExt_ext].
Qed.
End Extensionality.

Lemma matchOne_lazy_node (buf : list byte) (nd : node) (c : byte) :
  matchOne buf (lazy_node nd) c = matchOne buf nd c.
Proof. destruct nd as [t x o m]. destruct t; reflexivity. Qed.

Lemma lazy_type_not_quant (t : Type_) : is_quant t = false -> lazy_type t = t.
Proof. destruct t; intros H; try discriminate H; reflexivity. Qed.

Lemma lazy_type_eqb (t u : Type_) :
  is_quant u = false -> Type_eqb (lazy_type t) u = Type_eqb t u.
Proof. destruct t, u; intros H; try discriminate H; reflexivity. Qed.

(** Where every byte test is defined and every [{m,n}] has bounds
    [0 <= m <= n] below the largest [int], a node sequence and its lazy
    form accept exactly the same texts. *)
Lemma lazy_form_agrees (buf : list byte) (ns : list node) :
  wf_cursor buf ns -> Forall sane_bounds ns ->
  forall txt, match_ buf (map lazy_node ns) txt = match_ buf ns txt.
Proof.
  induction 1 as [n0 ns H0 | n0 n1 nn H0 Hq Hone Hmin Hnn IH
                 | n0 n1 nn H0 Hq Hone Hns IH]; intros Hsane txt.
  - cbn [map match_]. change (typ (lazy_node n0)) with (lazy_type (typ n0)).
    rewrite H0. reflexivity.
  - cbn [map]. rewrite !match_unfold.
    change (typ (lazy_node n0)) with (lazy_type (typ n0)).
    change (typ (lazy_node n1)) with (lazy_type (typ n1)).
    change (mn (lazy_node n1)) with (mn n1).
    rewrite !lazy_type_eqb by reflexivity.
    destruct (Type_eqb (typ n0) TNone); [reflexivity |].
    assert (Hn1 : Type_eqb (typ n1) TNone = false)
      by (destruct (typ n1); try discriminate Hq; reflexivity).
    rewrite Hn1, !andb_false_r. cbv zeta.
    inversion Hsane as [|? ? _ Hs1]; subst. inversion Hs1 as [|? ? Hb Hs2]; subst.
    specialize (IH Hs2).
    pose proof (match_total buf nn Hnn) as Hrest.
    assert (HQ : forall a b, matchQuant (matchOne buf (lazy_node n0))
                   (match_ buf (map lazy_node nn)) txt a b
                 = matchQuant (matchOne buf n0) (match_ buf nn) txt a b)
      by (intros; apply matchQuant_ext; [apply matchOne_lazy_node | exact IH]).
    assert (HL : forall a b, matchLQuant (matchOne buf (lazy_node n0))
                   (match_ buf (map lazy_node nn)) txt a b
                 = matchLQuant (matchOne buf n0) (match_ buf nn) txt a b)
      by (intros; apply matchLQuant_ext; [apply matchOne_lazy_node | exact IH]).
    destruct (typ n1) eqn:E; try discriminate Hq; cbn [lazy_type];
      rewrite ?HQ, ?HL; try reflexivity;
      apply greedy_lazy_same_counts; try assumption;
      try (unfold MaxPlus, max_int; lia).
    + apply (Hb E).
    + apply (Hb E).
  - cbn [map]. rewrite !match_unfold.
    change (typ (lazy_node n0)) with (lazy_type (typ n0)).
    change (typ (lazy_node n1)) with (lazy_type (typ n1)).
    rewrite (lazy_type_not_quant (typ n1) Hq).
    rewrite !lazy_type_eqb by reflexivity.
    inversion Hsane as [|? ? _ Hs1]; subst. specialize (IH Hs1). cbn [map] in IH.
    destruct (Type_eqb (typ n0) TNone); [reflexivity |].
    destruct (Type_eqb (typ n0) TEnd && Type_eqb (typ n1) TNone); [reflexivity |].
    cbv zeta.
    assert (Hbyte : match txt with
                    | [] => Val false
                    | c :: t => r <- matchOne buf (lazy_node n0) c ;;
                                if r then match_ buf (lazy_node n1 :: map lazy_node nn) t
                                else Val false
                    end
                    = match txt with
                      | [] => Val false
                      | c :: t => r <- matchOne buf n0 c ;;
                                  if r then match_ buf (n1 :: nn) t else Val false
                      end).
    { destruct txt as [|c t]; [reflexivity |]. rewrite matchOne_lazy_node.
      destruct (matchOne buf n0 c) as [[|]|]; cbn [rbind]; [apply IH | reflexivity | reflexivity]. }
    destruct (typ n1) eqn:E; try discriminate Hq; exact Hbyte.
Qed.

(* ================================================================== *)
(** ** Prepending an optional atom *)

Lemma scan_prepend (buf : list byte) (A : node) (n : Z) (P : list node) :
  quantifiable (typ A) = true ->
  0 <= n <= max_int ->
  (forall c, matchOne buf A c <> Panic) ->
  (forall t, match_ buf P t <> Panic) ->
  forall s, scan buf P s = Val true ->
            scan buf (A :: mkNode TQuant 0 None (0, n) :: P) s = Val true.
Proof.
  intros HA Hn Hone Hrest.
  assert (Hhead : forall t,
            match_ buf (A :: mkNode TQuant 0 None (0, n) :: P) t
            = matchQuant (matchOne buf A) (match_ buf P) t 0 n).
  { intros t. rewrite match_unfold. cbn [typ mn fst snd Type_eqb].
    destruct (typ A); try discriminate HA; reflexivity. }
  induction s as [|c t IH]; intros Hs; [discriminate Hs |].
  cbn [scan] in *. rewrite Hhead.
  pose proof (matchQuant_total (matchOne buf A) (match_ buf P) Hone Hrest
                (c :: t) 0 n ltac:(lia)) as Htot.
  destruct (matchQuant (matchOne buf A) (match_ buf P) (c :: t) 0 n) as [[|]|] eqn:E;
    cbn [rbind]; [reflexivity | | congruence].
  destruct (match_ buf P (c :: t)) as [[|]|] eqn:EP; cbn [rbind] in Hs.
  - exfalso.
    destruct (matchQuant_tries (matchOne buf A) (match_ buf P) (c :: t) 0 n
                ltac:(lia) Hn (fun x _ => Hone x)) as [_ Hfalse].
    destruct Hfalse as [Hf _]. specialize (Hf E 0%nat ltac:(lia)).
    cbn [skipn] in Hf. congruence.
  - apply IH. exact Hs.
  - discriminate Hs.
Qed.

(* ================================================================== *)
(** ** The class-buffer encoding *)

Lemma get_Ok {A} (s : list A) (i : nat) (x : A) :
  get s i = Ok x <-> nth_error s i = Some x.
Proof.
  unfold get. destruct (nth_error s i); split; intros H;
    try discriminate H; inversion H; reflexivity.
Qed.

Lemma set_nth_middle {A} (s : list A) (i : nat) (x : A) :
  (i < length s)%nat -> set_nth s i x = firstn i s ++ x :: skipn (S i) s.
Proof.
  revert i. induction s as [|y s IH]; intros i Hi; [inversion Hi |].
  destruct i as [|i]; [reflexivity |].
  cbn [set_nth firstn skipn app]. f_equal. apply IH. cbn [length] in Hi. lia.
Qed.

Lemma store_Ok {A} (s s' : list A) (i : nat) (x : A) :
  store s i x = Ok s' ->
  (i < length s)%nat /\ s' = firstn i s ++ x :: skipn (S i) s.
Proof.
  unfold store. destruct (Nat.ltb_spec i (length s)) as [Hi | Hi]; [| discriminate].
  intros H. inversion H. split; [exact Hi | apply set_nth_middle; exact Hi].
Qed.

Lemma store_length {A} (s s' : list A) (i : nat) (x : A) :
  store s i x = Ok s' -> length s' = length s.
Proof.
  intros H. apply store_Ok in H. destruct H as [Hi ->].
  rewrite length_app. cbn [length]. rewrite length_firstn, length_skipn. lia.
Qed.

Lemma store_prefix {A} (s s' : list A) (i k : nat) (x : A) :
  store s i x = Ok s' -> (k <= i)%nat -> firstn k s' = firstn k s.
Proof.
  intros H Hk. apply store_Ok in H. destruct H as [Hi ->].
  rewrite firstn_app, length_firstn.
  replace (k - Nat.min i (length s))%nat with 0%nat by lia.
  cbn [firstn]. rewrite app_nil_r, firstn_firstn. f_equal. lia.
Qed.

Lemma store_seg {A} (s s' : list A) (i : nat) (x : A) :
  store s i x = Ok s' -> seg s' i (S i) = [x].
Proof.
  intros H. apply store_Ok in H. destruct H as [Hi ->]. unfold seg.
  rewrite firstn_app, length_firstn.
  replace (S i - Nat.min i (length s))%nat with 1%nat by lia.
  rewrite firstn_firstn. replace (Nat.min (S i) i) with i by lia.
  cbn [firstn]. rewrite skipn_app, length_firstn.
  replace (i - Nat.min i (length s))%nat with 0%nat by lia.
  rewrite skipn_all2 by (rewrite length_firstn; lia). reflexivity.
Qed.

Lemma seg_nil {A} (s : list A) (lo : nat) : seg s lo lo = [].
Proof. unfold seg. apply skipn_all2. rewrite length_firstn. lia. Qed.

Lemma seg_split {A} (s : list A) (lo mid hi : nat) :
  (lo <= mid <= hi)%nat -> (hi <= length s)%nat ->
  seg s lo hi = seg s lo mid ++ seg s mid hi.
Proof.
  intros H Hlen. unfold seg.
  rewrite <- (firstn_skipn mid (firstn hi s)) at 1.
  rewrite firstn_firstn. replace (Nat.min mid hi) with mid by lia.
  rewrite skipn_app, length_firstn.
  replace (lo - Nat.min mid (length s))%nat with 0%nat by lia. reflexivity.
Qed.

Lemma seg_prefix {A} (s s' : list A) (lo hi : nat) :
  firstn hi s' = firstn hi s -> seg s' lo hi = seg s lo hi.
Proof. unfold seg. intros ->. reflexivity. Qed.

Lemma firstn_prefix_le {A} (s s' : list A) (k hi : nat) :
  firstn hi s' = firstn hi s -> (k <= hi)%nat -> firstn k s' = firstn k s.
Proof.
  intros H Hk. replace k with (Nat.min k hi) by lia.
  rewrite <- !firstn_firstn. rewrite H. reflexivity.
Qed.

Lemma seg_cons {A} (s : list A) (i hi : nat) (c : A) :
  nth_error s i = Some c -> (i < hi)%nat -> seg s i hi = c :: seg s (S i) hi.
Proof.
  intros Hc Hi. unfold seg.
  assert (Hn : nth_error (firstn hi s) i = Some c).
  { rewrite nth_error_firstn. destruct (Nat.ltb_spec i hi); [exact Hc | lia]. }
  revert Hn. generalize (firstn hi s). clear Hc Hi. intros l. revert i.
  induction l as [|y l IH]; intros [|i] Hn; try discriminate Hn.
  - inversion Hn. reflexivity.
  - cbn [nth_error] in Hn. cbn [skipn]. rewrite (IH i Hn). reflexivity.
Qed.

(** Inversion of a successful compiler step: split the binds and the
    tests of a hypothesis [_ = Ok _]. *)
Ltac ok_inv H :=
  repeat match type of H with
  | bind ?m _ = Ok _ =>
      let E := fresh "E" in destruct m eqn:E; cbn [bind] in H; [| discriminate H ..]
  | (if ?b then _ else _) = Ok _ =>
      let E := fresh "E" in destruct b eqn:E; try discriminate H
  | (let '(_, _) := ?p in _) = Ok _ => destruct p
  end.

Lemma classRangeC_Ok (expr : list byte) (i idx : nat) (buf : list byte)
    (i2 idx2 : nat) (buf2 : list byte) :
  classRangeC expr i idx buf = Ok (i2, idx2, buf2) ->
  (i2 = i /\ idx2 = idx /\ buf2 = buf)
  \/ (i2 = S i /\ nth_error expr (S i) = Some (chr "-") /\ idx2 = S idx
      /\ store buf idx (chr "-") = Ok buf2).
Proof.
  unfold classRangeC. intros H. rewrite Nat.add_1_r in H.
  ok_inv H; inversion H; subst; clear H; try (left; repeat split; reflexivity).
  right. apply negb_false_iff, Z.eqb_eq in E0. subst.
  repeat split; [apply get_Ok; assumption | assumption].
Qed.

(** Appending one byte to the segment written so far. *)
Lemma store_snoc (b1 b2 : list byte) (lo k : nat) (x : byte) :
  store b1 k x = Ok b2 -> (lo <= k)%nat ->
  seg b2 lo (S k) = seg b1 lo k ++ [x]
  /\ firstn lo b2 = firstn lo b1
  /\ length b2 = length b1 /\ (S k <= length b2)%nat.
Proof.
  intros H Hk.
  pose proof (store_length _ _ _ _ H) as Hlen.
  pose proof (store_Ok _ _ _ _ H) as [Hlt _].
  repeat split; try lia.
  - rewrite (seg_split b2 lo k (S k)) by lia.
    rewrite (store_seg _ _ _ _ H).
    rewrite (seg_prefix b1 b2) by (apply (store_prefix _ _ _ _ _ H); lia).
    reflexivity.
  - apply (store_prefix _ _ _ _ _ H). exact Hk.
Qed.

Lemma classElem_Ok (expr : list byte) (i idx : nat) (buf : list byte)
    (i1 idx1 : nat) (buf1 : list byte) (cont : bool) :
  classElem expr i idx buf = Ok (i1, idx1, buf1, cont) ->
  exists pe,
    (forall hi, (i1 < hi)%nat ->
       payload isMetaOrEsc (seg expr i hi)
       = pe ++ payload isMetaOrEsc (seg expr (S i1) hi))
    /\ idx1 = (idx + length pe)%nat
    /\ firstn idx buf1 = firstn idx buf
    /\ seg buf1 idx idx1 = pe
    /\ (idx1 <= length buf1)%nat
    /\ (i <= i1)%nat.
Proof.
  unfold classElem. intros H.
  ok_inv H; inversion H; subst; clear H;
    repeat match goal with
    | Hg : get _ _ = Ok _ |- _ => apply get_Ok in Hg
    end.
  - exists [a; a0].
    destruct (store_snoc _ _ idx _ _ E5 (le_n _)) as (S1 & P1 & L1 & B1).
    destruct (store_snoc _ _ idx _ _ E6 (le_S _ _ (le_n _))) as (S2 & P2 & L2 & B2).
    rewrite seg_nil in S1. rewrite S1 in S2.
    repeat split; [| cbn; lia | congruence | exact S2 | exact B2 | lia].
    intros hi Hhi. rewrite (seg_cons expr i hi a) by (assumption || lia).
    rewrite (seg_cons expr (S i) hi a0) by (assumption || lia).
    cbn [payload]. rewrite E0, E3. reflexivity.
  - exists [a; a0].
    destruct (store_snoc _ _ idx _ _ E5 (le_n _)) as (S1 & P1 & L1 & B1).
    destruct (store_snoc _ _ idx _ _ E6 (le_S _ _ (le_n _))) as (S2 & P2 & L2 & B2).
    rewrite seg_nil in S1. rewrite S1 in S2.
    repeat split; [| cbn; lia | congruence | exact S2 | exact B2 | lia].
    intros hi Hhi. rewrite (seg_cons expr i hi a) by (assumption || lia).
    rewrite (seg_cons expr (S i) hi a0) by (assumption || lia).
    cbn [payload]. rewrite E0, E3. reflexivity.
  - exists [a0].
    destruct (store_snoc _ _ idx _ _ E5 (le_n _)) as (S1 & P1 & L1 & B1).
    rewrite seg_nil in S1.
    repeat split; [| cbn; lia | exact P1 | exact S1 | exact B1 | lia].
    intros hi Hhi. rewrite (seg_cons expr i hi a) by (assumption || lia).
    rewrite (seg_cons expr (S i) hi a0) by (assumption || lia).
    cbn [payload]. rewrite E0, E3. reflexivity.
  - exists [a].
    destruct (store_snoc _ _ idx _ _ E2 (le_n _)) as (S1 & P1 & L1 & B1).
    rewrite seg_nil in S1.
    repeat split; [| cbn; lia | exact P1 | exact S1 | exact B1 | lia].
    intros hi Hhi. rewrite (seg_cons expr i1 hi a) by (assumption || lia).
    cbn [payload]. rewrite E0. reflexivity.
Qed.

Lemma classCopy_Ok (expr : list byte) (fuel : nat) :
  forall (i idx : nat) (buf : list byte) (i' idx' : nat) (buf' : list byte),
    classCopy expr fuel i idx buf = Ok (i', idx', buf') ->
    (idx <= length buf)%nat ->
    (i <= i')%nat /\ (idx <= idx' <= length buf')%nat
    /\ firstn idx buf' = firstn idx buf
    /\ seg buf' idx idx' = payload isMetaOrEsc (seg expr i i')
    /\ ((i' <? length expr)%nat && negb (peek expr i' (chr "]")) = false).
Proof.
  induction fuel as [|fuel IH]; intros i idx buf i' idx' buf' H Hidx; cbn [classCopy] in H.
  - destruct ((i <? length expr)%nat && negb (peek expr i (chr "]"))) eqn:C;
      [discriminate H |]. inversion H; subst; clear H.
    rewrite !seg_nil. repeat split; (lia || reflexivity || assumption).
  - destruct ((i <? length expr)%nat && negb (peek expr i (chr "]"))) eqn:C.
    + destruct (classElem expr i idx buf) as [[[[i1 idx1] buf1] cont] | | |] eqn:EE;
        cbn [bind] in H; try discriminate H.
      apply classElem_Ok in EE.
      destruct EE as (pe & Hpay & -> & Hpre & Hseg & Hlen & Hi).
      assert (Hnext : forall i2 idx2 buf2,
                 (i2 = i1 /\ idx2 = (idx + length pe)%nat /\ buf2 = buf1)
                 \/ (i2 = S i1 /\ nth_error expr (S i1) = Some (chr "-")
                     /\ idx2 = S (idx + length pe)
                     /\ store buf1 (idx + length pe) (chr "-") = Ok buf2) ->
                 classCopy expr fuel (S i2) idx2 buf2 = Ok (i', idx', buf') ->
                 (i <= i')%nat /\ (idx <= idx' <= length buf')%nat
                 /\ firstn idx buf' = firstn idx buf
                 /\ seg buf' idx idx' = payload isMetaOrEsc (seg expr i i')
                 /\ ((i' <? length expr)%nat && negb (peek expr i' (chr "]")) = false)).
      { intros i2 idx2 buf2 [(-> & -> & ->) | (-> & Hdash & -> & Hst)] Hrec.
        - apply IH in Hrec; [| exact Hlen].
          destruct Hrec as (Hi' & Hidx' & Hpre' & Hseg' & Hexit).
          repeat split; try lia; try assumption.
          + rewrite <- Hpre. apply (firstn_prefix_le _ _ _ _ Hpre'). lia.
          + rewrite (seg_split buf' idx (idx + length pe) idx') by lia.
            rewrite Hseg', (seg_prefix buf1 buf') by exact Hpre'.
            rewrite Hseg, Hpay by lia. reflexivity.
        - destruct (store_snoc _ _ idx _ _ Hst ltac:(lia)) as (S1 & P1 & L1 & B1).
          apply IH in Hrec; [| exact B1].
          destruct Hrec as (Hi' & Hidx' & Hpre' & Hseg' & Hexit).
          repeat split; try lia; try assumption.
          + rewrite <- Hpre, <- P1. apply (firstn_prefix_le _ _ _ _ Hpre'). lia.
          + rewrite (seg_split buf' idx (S (idx + length pe)) idx') by lia.
            rewrite Hseg', (seg_prefix buf2 buf') by exact Hpre'.
            rewrite S1, Hseg, Hpay by lia.
            rewrite (seg_cons expr (S i1) i' (chr "-")) by (assumption || lia).
            cbn [payload]. change (chr "-" =? chr "\") with false. cbv iota.
            rewrite <- app_assoc. reflexivity. }
      destruct cont.
      * apply (Hnext i1 (idx + length pe)%nat buf1); [left; auto | exact H].
      * destruct (classRangeC expr i1 (idx + length pe) buf1)
          as [[[i2 idx2] buf2] | | |] eqn:ER; cbn [bind] in H; try discriminate H.
        apply classRangeC_Ok in ER. apply (Hnext i2 idx2 buf2); [| exact H].
        destruct ER as [(-> & -> & ->) | (-> & Hd & -> & Hst)]; [left | right]; auto.
    + inversion H; subst; clear H.
      rewrite !seg_nil. repeat split; (lia || reflexivity || assumption).
Qed.

Lemma nth_error_set_nth_ne {A} (s : list A) (j k : nat) (x : A) :
  j <> k -> nth_error (set_nth s j x) k = nth_error s k.
Proof.
  revert j k. induction s as [|y s IH]; intros j k H; [destruct j; reflexivity |].
  destruct j as [|j], k as [|k]; cbn [set_nth nth_error]; try reflexivity; try lia.
  apply IH. lia.
Qed.

Lemma Forall_set_nth {A} (P : A -> Prop) (s : list A) (j : nat) (x : A) :
  Forall P s -> P x -> Forall P (set_nth s j x).
Proof.
  intros Hs Hx. revert j. induction Hs as [|y s Hy Hs IH]; intros j.
  - destruct j; constructor.
  - destruct j as [|j]; cbn [set_nth]; constructor; auto.
Qed.

Lemma set_nth_twice {A} (s : list A) (j : nat) (x y : A) :
  set_nth (set_nth s j x) j y = set_nth s j y.
Proof.
  revert j. induction s as [|z s IH]; intros j; [destruct j; reflexivity |].
  destruct j as [|j]; cbn [set_nth]; [reflexivity | rewrite IH; reflexivity].
Qed.

Lemma upd_Ok (ns ns' : list node) (j : nat) (f : node -> node) :
  upd ns j f = Ok ns' ->
  exists nd, nth_error ns j = Some nd /\ ns' = set_nth ns j (f nd).
Proof.
  unfold upd. destruct (get ns j) as [nd | | |] eqn:E; cbn [bind]; try discriminate.
  intros H. apply get_Ok in E. exists nd. split; [exact E |].
  unfold store in H. destruct (j <? length ns)%nat; [| discriminate H].
  inversion H. reflexivity.
Qed.

(** Inversion of every successful compiler step in the context. *)
Ltac ok_all :=
  repeat match goal with
  | H : bind ?m _ = Ok _ |- _ =>
      let E := fresh "E" in destruct m eqn:E; cbn [bind] in H; [| discriminate H ..]
  | H : (if ?b then _ else _) = Ok _ |- _ =>
      let E := fresh "E" in destruct b eqn:E; try discriminate H
  | H : (let '(_, _) := ?p in _) = Ok _ |- _ => destruct p
  | H : Ok _ = Ok _ |- _ => inversion H; subst; clear H
  | H : Err _ = Ok _ |- _ => discriminate H
  | H : GoPanic = Ok _ |- _ => discriminate H
  end.

(** What [case '[':] does to the state. *)
Lemma compileClass_Ok expr j st st' :
  compileClass expr j st = Ok st' ->
  let start := if peek expr (S (c_i st)) (chr "^")
               then (c_i st + 2)%nat else (c_i st + 1)%nat in
  (c_idx st < c_idx st' <= length (c_buffer st'))%nat
  /\ firstn (c_idx st) (c_buffer st') = firstn (c_idx st) (c_buffer st)
  /\ nth_error expr (c_i st') = Some (chr "]")
  /\ seg (c_buffer st') (c_idx st) (c_idx st')
     = payload isMetaOrEsc (seg expr start (c_i st')) ++ [0]
  /\ exists nd T, nth_error (c_nodes st) j = Some nd
       /\ (T = TClass \/ T = TNClass)
       /\ c_nodes st' = set_nth (c_nodes st) j (set_ccl (c_idx st) (set_typ T nd)).
Proof.
  intros H start. unfold compileClass in H.
  ok_all; cbn [c_i c_idx c_buffer c_nodes].
  all: subst start; cbv iota.
  all: match goal with
       | E : (?a <? ?b)%nat = false |- _ => apply Nat.ltb_ge in E; rename E into Hle
       end.
  all: match goal with
       | E : classCopy _ _ _ _ _ = Ok _ |- _ =>
           apply classCopy_Ok in E; [| exact Hle];
           destruct E as (Hi & Hidx & Hpre & Hseg & Hexit)
       end.
  all: match goal with
       | E : store _ _ _ = Ok _ |- _ =>
           destruct (store_snoc _ _ (c_idx st) _ _ E ltac:(lia)) as (S1 & P1 & L1 & B1)
       end.
  all: match goal with
       | E : get _ _ = Ok _, E' : negb (_ =? _) = false |- _ =>
           apply get_Ok in E; apply negb_false_iff, Z.eqb_eq in E'; subst
       end.
  all: match goal with
       | E1 : upd _ _ (set_typ ?T) = Ok ?ns1,
         E2 : upd ?ns1 _ (set_ccl _) = Ok _ |- _ =>
           apply upd_Ok in E1; destruct E1 as (nd & Hnd & ->);
           apply upd_Ok in E2; destruct E2 as (nd' & Hnd' & ->);
           assert (Hnd'' : nd' = set_typ T nd);
           [ assert (Hlt : (j < length (c_nodes st))%nat)
               by (apply nth_error_Some; rewrite Hnd; discriminate);
             rewrite (set_nth_middle _ _ _ Hlt) in Hnd';
             rewrite nth_error_app2 in Hnd' by (rewrite length_firstn; lia);
             rewrite length_firstn in Hnd';
             replace (j - Nat.min j (length (c_nodes st)))%nat with 0%nat in Hnd' by lia;
             cbn [nth_error] in Hnd'; inversion Hnd'; reflexivity
           | subst nd'; rewrite set_nth_twice ]
       end.
  all: repeat split; try lia; try assumption; try congruence.
  all: try (rewrite S1, Hseg; f_equal; f_equal; f_equal; lia).
  all: eexists _, _; repeat split; eauto.
Qed.




(* ================================================================== *)
(** ** Outcomes of the compiler *)

(** Inversion of a compiler hypothesis [t = R] where [R] is [NoFuel] or
    a particular error: follow the binds and tests down to the call that
    produced [R]. *)
Ltac res_inv H :=
  cbv zeta in H;
  lazymatch type of H with
  | bind ?m _ = _ =>
      let E := fresh "E" in
      destruct m eqn:E; cbn [bind] in H;
      [ res_inv H
      | first [discriminate H | inversion H; subst; clear H; res_inv E]
      | discriminate H
      | first [discriminate H | clear H; res_inv E] ]
  | (if ?b then _ else _) = _ =>
      let E := fresh "E" in destruct b eqn:E; res_inv H
  | (let '(_, _) := ?p in _) = _ => destruct p; res_inv H
  | Ok _ = _ => discriminate H
  | Err _ = _ => first [discriminate H | idtac]
  | GoPanic = _ => discriminate H
  | NoFuel = _ => first [discriminate H | idtac]
  | get _ _ = _ => unfold get in H; res_inv H
  | store _ _ _ = _ => unfold store in H; res_inv H
  | match ?x with Some _ => _ | None => _ end = _ => destruct x; res_inv H
  | upd _ _ _ = _ => unfold upd in H; res_inv H
  | _ => idtac
  end.

Lemma classElem_fuel expr i idx buf : classElem expr i idx buf <> NoFuel.
Proof. unfold classElem. intros H. res_inv H. Qed.

Lemma classElem_term expr i idx buf : classElem expr i idx buf <> Err ENonTerminated.
Proof. unfold classElem. intros H. res_inv H. Qed.

Lemma classRangeC_fuel expr i idx buf : classRangeC expr i idx buf <> NoFuel.
Proof. unfold classRangeC. intros H. res_inv H. Qed.

Lemma classRangeC_term expr i idx buf : classRangeC expr i idx buf <> Err ENonTerminated.
Proof. unfold classRangeC. intros H. res_inv H. Qed.

Lemma classCopy_fuel expr fuel :
  forall i idx buf, (length expr <= i + fuel)%nat -> classCopy expr fuel i idx buf <> NoFuel.
Proof.
  induction fuel as [|fuel IH]; intros i idx buf Hf H; cbn [classCopy] in H.
  - destruct (Nat.ltb_spec i (length expr)); cbn [andb] in H; [lia | discriminate H].
  - destruct ((i <? length expr)%nat && negb (peek expr i (chr "]"))); [| discriminate H].
    destruct (classElem expr i idx buf) as [[[[i1 idx1] buf1] cont] | | |] eqn:EE;
      cbn [bind] in H; try discriminate H; [| apply classElem_fuel in EE; exact EE].
    pose proof (classElem_Ok _ _ _ _ _ _ _ _ EE) as (pe & _ & _ & _ & _ & _ & Hi).
    destruct cont.
    + apply IH in H; [exact H | lia].
    + destruct (classRangeC expr i1 idx1 buf1) as [[[i2 idx2] buf2] | | |] eqn:ER;
        cbn [bind] in H; try discriminate H; [| apply classRangeC_fuel in ER; exact ER].
      apply classRangeC_Ok in ER. apply IH in H; [exact H |].
      destruct ER as [(-> & _) | (-> & _)]; lia.
Qed.

Lemma classCopy_term expr fuel :
  forall i idx buf, classCopy expr fuel i idx buf <> Err ENonTerminated.
Proof.
  induction fuel as [|fuel IH]; intros i idx buf H; cbn [classCopy] in H.
  - destruct ((i <? length expr)%nat && negb (peek expr i (chr "]"))); discriminate H.
  - destruct ((i <? length expr)%nat && negb (peek expr i (chr "]"))); [| discriminate H].
    destruct (classElem expr i idx buf) as [[[[i1 idx1] buf1] cont] | | |] eqn:EE;
      cbn [bind] in H; try discriminate H;
      [| inversion H; subst; apply classElem_term in EE; exact EE].
    destruct cont.
    + apply IH in H; exact H.
    + destruct (classRangeC expr i1 idx1 buf1) as [[[i2 idx2] buf2] | | |] eqn:ER;
        cbn [bind] in H; try discriminate H;
        [| inversion H; subst; apply classRangeC_term in ER; exact ER].
      apply IH in H; exact H.
Qed.

Lemma compileClass_fuel expr j st : compileClass expr j st <> NoFuel.
Proof.
  unfold compileClass. intros H. res_inv H.
  all: match goal with E : classCopy _ _ _ _ _ = NoFuel |- _ =>
         apply classCopy_fuel in E; [exact E | lia] end.
Qed.

Lemma compileClass_term expr j st : compileClass expr j st <> Err ENonTerminated.
Proof.
  unfold compileClass. intros H. res_inv H.
  - match goal with
    | E : (if (?a <? ?b)%nat then _ else _) = Ok _ |- _ =>
        destruct (Nat.ltb_spec a b) as [Hlt | Hle]; [discriminate E |]
    end.
    match goal with
    | E : classCopy _ _ _ _ _ = Ok _ |- _ =>
        apply classCopy_Ok in E; [| exact Hle];
        destruct E as (_ & _ & _ & _ & Hexit)
    end.
    match goal with
    | E : get _ _ = Ok _ |- _ => apply get_Ok in E; rename E into Hget
    end.
    unfold peek in Hexit. rewrite Hget in Hexit.
    assert (Hlt : (n0 < length expr)%nat)
      by (apply nth_error_Some; rewrite Hget; discriminate).
    apply Nat.ltb_lt in Hlt. rewrite Hlt in Hexit. cbn [andb] in Hexit.
    congruence.
  - match goal with
    | E : classCopy _ _ _ _ _ = Err ENonTerminated |- _ =>
        apply classCopy_term in E; exact E
    end.
Qed.

Lemma quantMin_fuel expr fuel :
  forall i val, (length expr <= i + fuel)%nat -> quantMin expr fuel i val <> NoFuel.
Proof.
  induction fuel as [|fuel IH]; intros i val Hf H; cbn [quantMin] in H.
  - destruct (Nat.leb_spec (length expr) i); [discriminate H | lia].
  - res_inv H. apply IH in H; [exact H | lia].
Qed.

Lemma quantMax_fuel expr fuel :
  forall i val, (length expr <= i + fuel)%nat -> quantMax expr fuel i val <> NoFuel.
Proof.
  induction fuel as [|fuel IH]; intros i val Hf H; cbn [quantMax] in H.
  - destruct (get expr i) eqn:E; cbn [bind] in H; try discriminate H.
    + apply get_Ok in E. assert (i < length expr)%nat
        by (apply nth_error_Some; rewrite E; discriminate). lia.
    + revert E. unfold get. destruct (nth_error expr i); discriminate.
  - res_inv H. apply IH in H; [exact H | lia].
Qed.

Lemma quantMin_term expr fuel :
  forall i val, quantMin expr fuel i val <> Err ENonTerminated.
Proof.
  induction fuel as [|fuel IH]; intros i val H; cbn [quantMin] in H; res_inv H.
  apply IH in H; exact H.
Qed.

Lemma quantMax_term expr fuel :
  forall i val, quantMax expr fuel i val <> Err ENonTerminated.
Proof.
  induction fuel as [|fuel IH]; intros i val H; cbn [quantMax] in H; res_inv H.
  apply IH in H; exact H.
Qed.

Lemma compileQuant_fuel expr j st : compileQuant expr j st <> NoFuel.
Proof.
  unfold compileQuant. intros H. res_inv H.
  all: match goal with
       | E : quantMin _ _ _ _ = NoFuel |- _ => apply quantMin_fuel in E; [exact E | lia]
       | E : quantMax _ _ _ _ = NoFuel |- _ => apply quantMax_fuel in E; [exact E | lia]
       end.
Qed.

Lemma compileQuant_term expr j st : compileQuant expr j st <> Err ENonTerminated.
Proof.
  unfold compileQuant. intros H. res_inv H.
  all: match goal with
       | E : quantMin _ _ _ _ = _ |- _ => apply quantMin_term in E; exact E
       | E : quantMax _ _ _ _ = _ |- _ => apply quantMax_term in E; exact E
       end.
Qed.

Lemma step_fuel expr j st : step expr j st <> NoFuel.
Proof.
  unfold step, compileMark, compileEscape. intros H. res_inv H.
  all: match goal with
       | E : compileClass _ _ _ = _ |- _ => apply compileClass_fuel in E; exact E
       | E : compileQuant _ _ _ = _ |- _ => apply compileQuant_fuel in E; exact E
       end.
Qed.

Lemma step_term expr j st : step expr j st <> Err ENonTerminated.
Proof.
  unfold step, compileMark, compileEscape. intros H. res_inv H.
  all: match goal with
       | E : compileClass _ _ _ = _ |- _ => apply compileClass_term in E; exact E
       | E : compileQuant _ _ _ = _ |- _ => apply compileQuant_term in E; exact E
       end.
Qed.

Lemma loop_fuel expr fuel :
  forall j st, (MaxNodes <= S (j + fuel))%nat -> loop expr fuel j st <> NoFuel.
Proof.
  induction fuel as [|fuel IH]; intros j st Hf H; cbn [loop] in H.
  - destruct (Nat.ltb_spec (j + 1) MaxNodes); [lia |].
    rewrite andb_false_r in H. discriminate H.
  - destruct ((c_i st <? length expr)%nat && (j + 1 <? MaxNodes)%nat); [| discriminate H].
    destruct (step expr j st) eqn:E; cbn [bind] in H; try discriminate H.
    + apply IH in H; [exact H | lia].
    + apply step_fuel in E; exact E.
Qed.

Lemma loop_term expr fuel :
  forall j st, loop expr fuel j st <> Err ENonTerminated.
Proof.
  induction fuel as [|fuel IH]; intros j st H; cbn [loop] in H.
  - destruct ((c_i st <? length expr)%nat && (j + 1 <? MaxNodes)%nat); discriminate H.
  - destruct ((c_i st <? length expr)%nat && (j + 1 <? MaxNodes)%nat); [| discriminate H].
    destruct (step expr j st) eqn:E; cbn [bind] in H; try discriminate H.
    + apply IH in H; exact H.
    + inversion H; subst. apply step_term in E; exact E.
Qed.

(** The loop budgets of the embedding are never exhausted: [compile]
    returns a pattern, returns an error, or panics. *)
Lemma compile_has_fuel (expr : list byte) : compile expr <> NoFuel.
Proof.
  unfold compile. intros H. res_inv H.
  match goal with
  | E : loop _ _ _ _ = NoFuel |- _ => apply loop_fuel in E; [exact E | unfold MaxNodes; lia]
  end.
Qed.

(** [Non terminated class] is never returned: when the class loop ends,
    either [expr[i]] is the closing bracket, or [i] is past the end and
    [expr[i]] panics. *)
Lemma compile_never_reports_unterminated (expr : list byte) :
  compile expr <> Err ENonTerminated.
Proof.
  unfold compile. intros H. res_inv H.
  match goal with
  | E : loop _ _ _ _ = _ |- _ => apply loop_term in E; exact E
  end.
Qed.

(** C1. A class left open makes [compile] read [expr[i+1]] (range
    look-ahead) or [expr[i]] (test after the loop) past the end of the
    pattern: [[abc] panics, and so do other patterns with an unclosed
    bracket. The error [Non terminated class] (kind UnterminatedClass) is
    returned for no pattern at all. *)
Theorem unterminated_class_panics :
  Compile "[abc" = GoPanic
  /\ Compile "[" = GoPanic
  /\ Compile "x[^a-z" = GoPanic
  /\ forall expr e, compile expr = Err e -> kind e <> UnterminatedClass.
Proof.
  split; [vm_compute; reflexivity |].
  split; [vm_compute; reflexivity |].
  split; [vm_compute; reflexivity |].
  intros expr e H Hk.
  assert (e = ENonTerminated) by (destruct e; try discriminate Hk; reflexivity).
  subst e. apply compile_never_reports_unterminated in H. exact H.
Qed.

(** C1, instance: the error of [[z-a]] is of another kind. *)
Lemma unterminated_class_panics_witness :
  Compile "[z-a]" = Err EBadRange /\ kind EBadRange <> UnterminatedClass.
Proof.
  split; [vm_compute; reflexivity |].
  apply (proj2 (proj2 (proj2 unterminated_class_panics)) (bytes "[z-a]")).
  vm_compute. reflexivity.
Defined.

(* ================================================================== *)
(** ** Quantifier parsing and its arithmetic *)

(** The three accepted forms, and the rejections that the compiler does
    report. *)
Lemma quantifier_forms :
  quant_at (Compile "a{3}") 1 = Some (TQuant, 3, 3)
  /\ quant_at (Compile "a{3,}") 1 = Some (TQuant, 3, MaxQuant)
  /\ quant_at (Compile "a{3,5}") 1 = Some (TQuant, 3, 5)
  /\ quant_at (Compile "a{3,5}?") 1 = Some (TLQuant, 3, 5)
  /\ Compile "a{" = Err EMinNonDigit
  /\ Compile "a{x}" = Err EMinNonDigit
  /\ Compile "a{3x}" = Err EMinNonDigit
  /\ Compile "a{1025}" = Err EMinTooBig
  /\ Compile "a{3," = Err EUnexpectedEnd
  /\ Compile "a{3,x}" = Err EMaxNonDigit
  /\ Compile "a{3,1025}" = Err EMaxBad
  /\ Compile "a{3,2}" = Err EMaxBad.
Proof. repeat split; vm_compute; reflexivity. Qed.

Lemma nth_error_set_nth_eq {A} (s : list A) (j : nat) (x : A) :
  (j < length s)%nat -> nth_error (set_nth s j x) j = Some x.
Proof.
  revert j. induction s as [|y s IH]; intros j Hj; [inversion Hj |].
  destruct j as [|j]; [reflexivity |]. cbn [set_nth nth_error]. apply IH.
  cbn [length] in Hj. lia.
Qed.

Lemma upd_upd (ns ns1 ns2 : list node) (j : nat) (f g : node -> node) :
  upd ns j f = Ok ns1 -> upd ns1 j g = Ok ns2 ->
  upd ns j (fun nd => g (f nd)) = Ok ns2.
Proof.
  intros H1 H2.
  apply upd_Ok in H1. destruct H1 as (nd & Hnd & ->).
  apply upd_Ok in H2. destruct H2 as (nd' & Hnd' & ->).
  assert (Hlt : (j < length ns)%nat) by (apply nth_error_Some; rewrite Hnd; discriminate).
  rewrite nth_error_set_nth_eq in Hnd' by exact Hlt. inversion Hnd'; subst nd'.
  rewrite set_nth_twice.
  unfold upd, get. rewrite Hnd. cbn [bind]. unfold store.
  apply Nat.ltb_lt in Hlt. rewrite Hlt. reflexivity.
Qed.

Lemma quantMin_Err expr fuel :
  forall i val e, quantMin expr fuel i val = Err e -> e = EMinNonDigit.
Proof.
  induction fuel as [|fuel IH]; intros i val e H; cbn [quantMin] in H; res_inv H;
    try (inversion H; reflexivity).
  apply IH in H. exact H.
Qed.

Lemma quantMax_Err expr fuel :
  forall i val e, quantMax expr fuel i val = Err e -> e = EMaxNonDigit.
Proof.
  induction fuel as [|fuel IH]; intros i val e H; cbn [quantMax] in H; res_inv H;
    try (inversion H; reflexivity).
  apply IH in H. exact H.
Qed.

(** Every error of [case '{':] is of kind NonQuantifiable or
    BadQuantifier. *)
Lemma compileQuant_Err expr j st e :
  compileQuant expr j st = Err e ->
  kind e = NonQuantifiable \/ kind e = BadQuantifier.
Proof.
  unfold compileQuant. intros H. res_inv H;
    try (inversion H; subst; cbn; auto; fail).
  all: try match goal with
           | E : Err _ = Err _ |- _ => inversion E; subst; cbn; auto; fail
           end.
  all: match goal with
       | E : quantMin _ _ _ _ = Err _ |- _ => apply quantMin_Err in E; subst; cbn; auto
       | E : quantMax _ _ _ _ = Err _ |- _ => apply quantMax_Err in E; subst; cbn; auto
       end.
Qed.

(** What [case '{':] does to the state: it stores at [j] a [Quant] or
    [LQuant] node whose bounds are in order and at most [MaxQuant]. *)
Lemma compileQuant_Ok expr j st st' :
  compileQuant expr j st = Ok st' ->
  c_idx st' = c_idx st /\ c_buffer st' = c_buffer st
  /\ exists nd,
       (j < length (c_nodes st))%nat
       /\ c_nodes st' = set_nth (c_nodes st) j nd
       /\ (typ nd = TQuant \/ typ nd = TLQuant)
       /\ fst (mn nd) <= snd (mn nd) <= MaxQuant.
Proof.
  unfold compileQuant. intros H. ok_all; cbn [c_nodes c_idx c_buffer].
  all: split; [reflexivity |]; split; [reflexivity |].
  all: match goal with
       | E2 : upd _ _ (set_mn0 ?z) = Ok ?a, E11 : upd ?a _ (set_typ ?T) = Ok ?l,
         E12 : upd ?l _ (set_mn1 ?m) = Ok _ |- _ =>
           pose proof (upd_upd _ _ _ _ _ _ (upd_upd _ _ _ _ _ _ E2 E11) E12) as HU;
           apply upd_Ok in HU; destruct HU as (nd0 & Hnd0 & ->);
           exists (set_mn1 m (set_typ T (set_mn0 z nd0)));
           apply upd_Ok in E2; destruct E2 as (nd1 & Hnd1 & ->);
           assert (Hlt : (j < length (c_nodes st))%nat)
             by (apply nth_error_Some; rewrite Hnd0; discriminate)
       end.
  all: split; [exact Hlt |].
  all: split; [reflexivity |].
  all: split; [cbn; auto |].
  all: cbn [mn fst snd set_mn0 set_mn1 set_typ].
  all: repeat match goal with
       | E : (_ <? _) = false |- _ => apply Z.ltb_ge in E
       | E : (_ || _) = false |- _ => apply orb_false_iff in E; destruct E
       | E : get (set_nth _ _ _) _ = Ok _ |- _ =>
           apply get_Ok in E; rewrite nth_error_set_nth_eq in E by exact Hlt;
           inversion E; subst; clear E
       end.
  all: cbn [mn fst snd set_mn0] in *; unfold MaxQuant in *; lia.
Qed.

Lemma compileQuant_node expr j st st' :
  compileQuant expr j st = Ok st' ->
  exists nd, nth_error (c_nodes st') j = Some nd
             /\ (typ nd = TQuant \/ typ nd = TLQuant)
             /\ fst (mn nd) <= snd (mn nd) <= MaxQuant.
Proof.
  intros H. apply compileQuant_Ok in H.
  destruct H as (_ & _ & nd & Hlt & -> & Ht & Hb).
  exists nd. split; [apply nth_error_set_nth_eq; exact Hlt |]. split; assumption.
Qed.

(** C2. The closing brace is read with [expr[i]] without a bounds check
    (after the digits of the minimum and in the loop of the maximum): a
    pattern that ends there panics instead of returning BadQuantifier.
    The digit run is accumulated in a wrapping [int] and compared with
    [MaxQuant] afterwards: 2^64 is accepted as the minimum 0, and
    2^64 + 2 as the maximum 2. Otherwise the claim holds: what is stored
    is a [Quant] or [LQuant] node with bounds in order and at most
    [MaxQuant], and every error returned is structured. *)
Theorem quantifier_missing_brace_panics :
  Compile "a{3" = GoPanic
  /\ Compile "a{3,4" = GoPanic
  /\ quant_at (Compile "a{18446744073709551616}") 1 = Some (TQuant, 0, 0)
  /\ quant_at (Compile "a{1,18446744073709551618}") 1 = Some (TQuant, 1, 2)
  /\ (forall expr j st st',
        compileQuant expr j st = Ok st' ->
        exists nd, nth_error (c_nodes st') j = Some nd
                   /\ (typ nd = TQuant \/ typ nd = TLQuant)
                   /\ fst (mn nd) <= snd (mn nd) <= MaxQuant)
  /\ (forall expr j st e,
        compileQuant expr j st = Err e ->
        kind e = NonQuantifiable \/ kind e = BadQuantifier).
Proof.
  split; [vm_compute; reflexivity |].
  split; [vm_compute; reflexivity |].
  split; [vm_compute; reflexivity |].
  split; [vm_compute; reflexivity |].
  split; [exact compileQuant_node | exact compileQuant_Err].
Qed.

(** C2, instance: the quantifier of [a{3,5}]. *)
Lemma quantifier_missing_brace_panics_witness :
  exists st',
    compileQuant (bytes "a{3,5}") 1 sample_state = Ok st'
    /\ exists nd, nth_error (c_nodes st') 1 = Some nd
                  /\ (typ nd = TQuant \/ typ nd = TLQuant)
                  /\ fst (mn nd) <= snd (mn nd) <= MaxQuant.
Proof.
  eexists. split; [vm_compute; reflexivity |].
  apply (proj1 (proj2 (proj2 (proj2 (proj2 quantifier_missing_brace_panics))))
           (bytes "a{3,5}") 1%nat sample_state).
  vm_compute. reflexivity.
Defined.

(* ================================================================== *)
(** ** The class matcher on compiled payloads *)

Lemma payload_tokens_le (n : nat) :
  forall body, (length body <= n)%nat -> tokens (payload isMetaOrEsc body).
Proof.
  induction n as [|n IH]; intros body Hn.
  - destruct body; [constructor | cbn in Hn; lia].
  - destruct body as [|c r]; [constructor |]. cbn [payload].
    destruct (Z.eqb_spec c (chr "\")) as [-> | Hc].
    + destruct r as [|e r']; [constructor |].
      cbn [length] in Hn.
      destruct (isMetaOrEsc e) eqn:Ee.
      * apply tok_pair; [exact Ee | apply IH; lia].
      * apply tok_byte; [| apply IH; lia].
        intros ->. discriminate Ee.
    + apply tok_byte; [exact Hc | apply IH; cbn [length] in Hn; lia].
Qed.

Lemma payload_tokens (body : list byte) : tokens (payload isMetaOrEsc body).
Proof. apply (payload_tokens_le (length body)). lia. Qed.

Lemma isMetaOrEsc_nonzero (e : byte) : isMetaOrEsc e = true -> e <> 0.
Proof. intros H ->. discriminate H. Qed.

Lemma tokens_upto0 (l : list byte) :
  tokens l -> tokens (upto0 l) /\ Forall (fun c => c <> 0) (upto0 l).
Proof.
  induction 1 as [| c l Hc Hl [IH1 IH2] | e l He Hl [IH1 IH2]]; cbn [upto0].
  - split; constructor.
  - destruct (Z.eqb_spec c 0) as [-> | Hz]; [split; constructor |].
    split; [apply tok_byte; assumption | constructor; assumption].
  - change (chr "\" =? 0) with false. cbv iota.
    pose proof (isMetaOrEsc_nonzero e He) as Hz.
    destruct (Z.eqb_spec e 0) as [-> | _]; [congruence |].
    split; [apply tok_pair; assumption |].
    constructor; [discriminate |]. constructor; assumption.
Qed.

Lemma IndexByte_upto0 (l tail : list byte) :
  IndexByte (l ++ 0 :: tail) 0 = Z.of_nat (length (upto0 l))
  /\ firstn (S (length (upto0 l))) (l ++ 0 :: tail) = upto0 l ++ [0].
Proof.
  induction l as [|c l [IH1 IH2]]; cbn [app IndexByte upto0].
  - split; reflexivity.
  - destruct (Z.eqb_spec c 0) as [-> | Hz].
    + split; reflexivity.
    + rewrite IH1. cbn [length]. split.
      * destruct (Z.ltb_spec (Z.of_nat (length (upto0 l))) 0); lia.
      * cbn [firstn app]. f_equal. exact IH2.
Qed.

(** The range test never goes wrong after an element of a payload. *)
Lemma classRange_tokens (b : byte) (txt : list byte) (i : nat) (l : list byte)
    (continue_ next : unit -> run bool) :
  tokens l -> Forall (fun c => c <> 0) l ->
  (1 <= i <= length txt)%nat ->
  continue_ tt <> Panic ->
  (forall l', l = chr "-" :: l' -> tokens l' -> next tt <> Panic) ->
  classRange b txt i (l ++ [0]) continue_ next <> Panic.
Proof.
  intros Hl Hnz Hi Hc Hn. unfold classRange.
  destruct l as [|s0 l1].
  - cbn. exact Hc.
  - cbn [app at_ nth_error rbind].
    destruct (Z.eqb_spec s0 (chr "-")) as [-> | Hs0]; cbn [negb]; [| exact Hc].
    inversion Hl as [| c l0 Hc0 Hl1 | e l0 He Hl0]; subst.
    destruct l1 as [|s1 l2].
    + cbn. exact Hc.
    + cbn [app at_ nth_error rbind].
      inversion Hnz as [|? ? _ Hnz1]; subst. inversion Hnz1 as [|? ? Hs1 Hnz2]; subst.
      destruct (Z.eqb_spec s1 0) as [-> | _]; [congruence |].
      assert (Hlo : exists lo, at_ txt (i - 1) = Val lo).
      { unfold at_. destruct (nth_error txt (i - 1)) eqn:E; [eauto |].
        apply nth_error_None in E. lia. }
      destruct Hlo as [lo Hlo].
      destruct (Z.eqb_spec s1 (chr "\")) as [-> | Hs1'].
      * inversion Hl1 as [| c l0 Hc1 Hl2 | e l0 He Hl2]; subst; [congruence |].
        cbn [app at_ nth_error rbind].
        destruct (isMeta e); [exact Hc |].
        cbn [rbind]. rewrite Hlo. cbn [rbind].
        destruct ((lo <=? b) && (b <=? e)); [discriminate |].
        apply (Hn _ eq_refl Hl1).
      * cbn [rbind]. rewrite Hlo. cbn [rbind].
        destruct ((lo <=? b) && (b <=? s1)); [discriminate |].
        apply (Hn _ eq_refl Hl1).
Qed.

Lemma classLoop_tokens (b : byte) (txt : list byte) (n : nat) :
  forall (l : list byte) (i : nat),
    (length l <= n)%nat ->
    tokens l -> Forall (fun c => c <> 0) l ->
    (i + length l < length txt)%nat ->
    classLoop b txt i (l ++ [0]) <> Panic.
Proof.
  induction n as [|n IH]; intros l i Hn Hl Hnz Hi.
  - destruct l; [cbn; discriminate | cbn in Hn; lia].
  - inversion Hl as [| c l1 Hc Hl1 | e l1 He Hl1]; subst.
    + cbn; discriminate.
    + inversion Hnz as [|? ? Hc0 Hnz1]; subst. cbn [length] in *.
      cbn [app classLoop].
      destruct (Z.eqb_spec c 0) as [-> | _]; [congruence |].
      destruct (Z.eqb_spec c (chr "\")) as [-> | _]; [congruence |].
      destruct (c =? b); [discriminate |].
      apply classRange_tokens; try assumption; try lia.
      * apply IH; (assumption || lia).
      * intros l' -> Hl'. cbn [app].
        inversion Hnz1; subst. cbn [length] in *.
        apply IH; (assumption || lia).
    + inversion Hnz as [|? ? _ Hnz1]; subst. inversion Hnz1 as [|? ? _ Hnz2]; subst.
      cbn [length] in *. cbn [app classLoop].
      change (chr "\" =? 0) with false. change (chr "\" =? chr "\") with true.
      cbv iota.
      destruct (matchMetaChar b e); [discriminate |].
      assert (Hcont : classLoop b txt (i + 2) (l1 ++ [0]) <> Panic)
        by (apply IH; (assumption || lia)).
      assert (Hd : exists t0 str3, l1 ++ [0] = t0 :: str3)
        by (destruct l1; cbn [app]; eauto).
      destruct Hd as (t0 & str3 & E). rewrite E.
      destruct (isMeta t0); [rewrite <- E; exact Hcont |].
      rewrite <- E.
      apply classRange_tokens; try assumption; try lia.
      intros l' -> Hl'. cbn [app] in E. inversion E; subst.
      inversion Hnz2; subst. cbn [length] in *.
      apply IH; (assumption || lia).
Qed.

Lemma matchCharClass_payload (b : byte) (pay tail : list byte) :
  tokens pay -> matchCharClass b (pay ++ 0 :: tail) <> Panic.
Proof.
  intros Hp. unfold matchCharClass.
  destruct (IndexByte_upto0 pay tail) as [Hi Hf]. rewrite Hi.
  destruct (tokens_upto0 pay Hp) as [Ht Hnz].
  destruct (upto0 pay) as [|c u] eqn:Eu.
  - cbn [length Z.of_nat Z.ltb Z.compare].
    destruct pay as [|c l]; cbn [app classLoop]; [discriminate |].
    cbn [upto0] in Eu. destruct (c =? 0); [discriminate | discriminate Eu].
  - replace (0 <? Z.of_nat (length (c :: u))) with true
      by (symmetry; apply Z.ltb_lt; cbn [length]; lia).
    replace (Z.to_nat (Z.of_nat (length (c :: u)) + 1)) with (S (length (c :: u))) by lia.
    rewrite Hf.
    apply (classLoop_tokens b _ (length (c :: u))); try assumption; try lia.
    assert (Hlen : (length ((c :: u) ++ [0%Z]) <= length (pay ++ 0%Z :: tail))%nat).
    { rewrite <- Hf. rewrite length_firstn. lia. }
    rewrite length_app in *. cbn [length] in *. rewrite length_app in *.
    cbn [length] in *. lia.
Qed.

(* ================================================================== *)
(** ** The invariant of the compiler and totality of [Match] *)

Lemma skipn_seg {A} (s : list A) (lo hi : nat) :
  (lo <= hi <= length s)%nat -> skipn lo s = seg s lo hi ++ skipn hi s.
Proof.
  intros H. unfold seg.
  rewrite <- (firstn_skipn hi s) at 1.
  rewrite skipn_app, length_firstn.
  replace (lo - Nat.min hi (length s))%nat with 0%nat by lia. reflexivity.
Qed.

Lemma node_ok_total (buf : list byte) (idx : nat) (nd : node) :
  node_ok buf idx nd -> forall c, matchOne buf nd c <> Panic.
Proof.
  intros Hok c. unfold matchOne.
  assert (Hclass : typ nd = TClass \/ typ nd = TNClass ->
                   matchCharClass c (cclOf buf nd) <> Panic).
  { intros Ht. destruct (proj1 Hok Ht) as (off & pay & Hccl & Htok & Hlt & Hlen & Hseg).
    unfold cclOf. rewrite Hccl.
    rewrite (skipn_seg buf off (S (off + length pay))) by lia.
    rewrite Hseg, <- app_assoc. cbn [app].
    apply matchCharClass_payload. exact Htok. }
  destruct (typ nd); try discriminate.
  - apply Hclass. left. reflexivity.
  - unfold rnegb. specialize (Hclass (or_intror eq_refl)).
    destruct (matchCharClass c (cclOf buf nd)); [discriminate | congruence].
Qed.

Lemma node_ok_mono (buf buf' : list byte) (idx idx' : nat) (nd : node) :
  node_ok buf idx nd ->
  firstn idx buf' = firstn idx buf -> (idx <= idx' <= length buf')%nat ->
  node_ok buf' idx' nd.
Proof.
  intros [Hok Hb] Hpre Hidx. split; [| exact Hb]. intros Ht.
  destruct (Hok Ht) as (off & pay & Hccl & Htok & Hlt & Hlen & Hseg).
  exists off, pay. repeat split; try assumption; try lia.
  rewrite <- Hseg. apply seg_prefix.
  apply (firstn_prefix_le _ _ _ _ Hpre). lia.
Qed.

(** A field update that leaves class nodes alone keeps the invariant. *)
Lemma upd_nodes_ok (buf : list byte) (idx : nat) (ns ns' : list node) (j : nat)
    (f : node -> node) :
  upd ns j f = Ok ns' ->
  (j + 1 < MaxNodes)%nat ->
  (forall nd, node_ok buf idx nd -> node_ok buf idx (f nd)) ->
  nodes_ok buf idx ns -> nodes_ok buf idx ns'.
Proof.
  intros H Hj Hf [Hall Hlast].
  apply upd_Ok in H. destruct H as (nd & Hnd & ->). split.
  - apply Forall_set_nth; [exact Hall |]. apply Hf.
    rewrite Forall_forall in Hall. apply Hall. apply (nth_error_In _ _ Hnd).
  - rewrite nth_error_set_nth_ne by lia. exact Hlast.
Qed.

Ltac field_ok :=
  let nd := fresh "nd" in let H1 := fresh "H" in let H2 := fresh "H" in
  let X := fresh "X" in
  intros nd [H1 H2]; split;
  cbn [typ ccl mn set_typ set_ch];
  [ first [ exact H1 | intros [X | X]; discriminate X ]
  | first [ exact H2 | intros X; discriminate X ] ].

Ltac upd_all Hj :=
  repeat match goal with
  | E : upd ?ns _ ?f = Ok ?ns', Hn : nodes_ok ?b ?i ?ns |- _ =>
      apply (upd_nodes_ok b i ns ns' _ f) in E; [| exact Hj | field_ok | exact Hn];
      clear Hn
  end.

Lemma compileQuant_inv expr j st st' :
  compileQuant expr j st = Ok st' ->
  (j + 1 < MaxNodes)%nat -> inv st -> inv st'.
Proof.
  intros H Hj [Hidx [Hall Hlast]].
  apply compileQuant_Ok in H.
  destruct H as (Ei & Eb & nd & Hlt & Hns & Ht & Hb).
  unfold inv, nodes_ok. rewrite Ei, Eb, Hns. split; [exact Hidx |]. split.
  - apply Forall_set_nth; [exact Hall |]. split.
    + intros [X | X]; destruct Ht as [Y | Y]; congruence.
    + intros _. exact Hb.
  - rewrite nth_error_set_nth_ne by lia. exact Hlast.
Qed.

Lemma compileClass_inv expr j st st' :
  compileClass expr j st = Ok st' ->
  (j + 1 < MaxNodes)%nat -> inv st -> inv st'.
Proof.
  intros H Hj [Hidx [Hall Hlast]].
  apply compileClass_Ok in H.
  destruct H as (Hi & Hpre & _ & Hseg & nd & T & Hnd & HT & Hns).
  split; [lia |]. rewrite Hns. split.
  - apply Forall_set_nth.
    + rewrite Forall_forall in *. intros x Hx.
      apply (node_ok_mono (c_buffer st) _ (c_idx st)); auto.
      destruct Hi as [Hi1 Hi2]. split; [apply Nat.lt_le_incl; exact Hi1 | exact Hi2].
    + split; [| intros X; cbn [typ set_ccl set_typ] in X; destruct HT; congruence].
      intros _. exists (c_idx st), (payload isMetaOrEsc
         (seg expr (if peek expr (S (c_i st)) (chr "^")
                    then (c_i st + 2)%nat else (c_i st + 1)%nat) (c_i st'))).
      assert (Hlen : c_idx st' = S (c_idx st + length (payload isMetaOrEsc
         (seg expr (if peek expr (S (c_i st)) (chr "^")
                    then (c_i st + 2)%nat else (c_i st + 1)%nat) (c_i st'))))).
      { pose proof (f_equal (@length _) Hseg) as HL. unfold seg in HL at 1.
        rewrite length_skipn, length_firstn, length_app in HL.
        cbn [length] in HL. unfold byte in *. lia. }
      unfold byte in *. repeat split; try lia.
      * apply payload_tokens.
      * rewrite <- Hlen. exact Hseg.
  - rewrite nth_error_set_nth_ne by lia. exact Hlast.
Qed.

Lemma step_inv expr j st st' :
  step expr j st = Ok st' ->
  (j + 1 < MaxNodes)%nat -> inv st -> inv st'.
Proof.
  unfold step, compileMark, compileEscape. intros H Hj Hinv.
  pose proof Hinv as [Hidx Hn].
  ok_all; cbn [c_i c_idx c_buffer c_nodes] in *;
    try (eapply compileClass_inv; eassumption);
    try (eapply compileQuant_inv; eassumption);
    upd_all Hj; split; assumption.
Qed.

Lemma loop_inv expr fuel :
  forall j st j' st',
    loop expr fuel j st = Ok (j', st') ->
    (j < MaxNodes)%nat -> inv st -> (j' < MaxNodes)%nat /\ inv st'.
Proof.
  induction fuel as [|fuel IH]; intros j st j' st' H Hj Hinv; cbn [loop] in H.
  - destruct ((c_i st <? length expr)%nat && (j + 1 <? MaxNodes)%nat);
      [discriminate H | inversion H; subst; auto].
  - destruct ((c_i st <? length expr)%nat && (j + 1 <? MaxNodes)%nat) eqn:C;
      [| inversion H; subst; auto].
    apply andb_true_iff in C. destruct C as [_ C]. apply Nat.ltb_lt in C.
    destruct (step expr j st) as [st1 | | |] eqn:E; cbn [bind] in H; try discriminate H.
    apply IH in H; [exact H | lia |].
    apply step_inv in E; [| exact C | exact Hinv].
    destruct E as [E1 E2]. split; assumption.
Qed.

Lemma init_state_inv : inv init_state.
Proof.
  split; [cbn; lia |]. split.
  - apply Forall_forall. intros nd Hnd. apply repeat_spec in Hnd. subst nd.
    split; [intros [X | X]; discriminate X | intros X; discriminate X].
  - exists zero_node. split; reflexivity.
Qed.

(** Every node of a compiled pattern has a total byte test, every
    [{m,n}] node has bounds in order and at most [MaxQuant], and the last
    node of the array is the end-of-pattern sentinel. *)
Lemma compile_nodes_ok expr re :
  compile expr = Ok re ->
  (forall nd c, In nd (nodes re) -> matchOne (buffer re) nd c <> Panic)
  /\ (forall nd, In nd (nodes re) -> typ nd = TQuant ->
        fst (mn nd) <= snd (mn nd) <= MaxQuant)
  /\ exists nd, nth_error (nodes re) (MaxNodes - 1) = Some nd /\ typ nd = TNone.
Proof.
  unfold compile. intros H.
  destruct (length expr =? 0)%nat; [discriminate H |].
  destruct (loop expr MaxNodes 0 init_state) as [[j st] | | |] eqn:EL; cbn [bind] in H;
    try discriminate H.
  apply loop_inv in EL; [| unfold MaxNodes; lia | apply init_state_inv].
  destruct EL as [Hj [Hidx [Hall Hlast]]].
  destruct (upd (c_nodes st) j (set_typ TNone)) as [ns | | |] eqn:EU; cbn [bind] in H;
    try discriminate H.
  inversion H; subst; clear H. cbn [nodes buffer].
  apply upd_Ok in EU. destruct EU as (nd & Hnd & ->).
  assert (HF : Forall (node_ok (c_buffer st) (c_idx st))
                 (set_nth (c_nodes st) j (set_typ TNone nd))).
  { apply Forall_set_nth; [exact Hall |].
    split; [intros [X | X]; discriminate X | intros X; discriminate X]. }
  rewrite Forall_forall in HF.
  split; [| split].
  - intros x c Hx. apply (node_ok_total _ (c_idx st)). apply HF. exact Hx.
  - intros x Hx. apply (proj2 (HF x Hx)).
  - destruct (Nat.eq_dec j (MaxNodes - 1)) as [-> | Hne].
    + exists (set_typ TNone nd). split; [| reflexivity].
      assert (Hlt : (MaxNodes - 1 < length (c_nodes st))%nat)
        by (apply nth_error_Some; rewrite Hnd; discriminate).
      apply nth_error_set_nth_eq. exact Hlt.
    + rewrite nth_error_set_nth_ne by exact Hne. exact Hlast.
Qed.

(** A node array that holds a sentinel, whose byte tests are total and
    whose greedy [{m,n}] have no negative minimum, is a well-formed
    cursor. *)
Lemma wf_cursor_intro (buf : list byte) (n : nat) :
  forall ns,
    (length ns <= n)%nat ->
    (forall nd c, In nd ns -> matchOne buf nd c <> Panic) ->
    (forall nd, In nd ns -> typ nd = TQuant -> 0 <= fst (mn nd)) ->
    (exists k nd, nth_error ns k = Some nd /\ typ nd = TNone) ->
    wf_cursor buf ns.
Proof.
  induction n as [|n IH]; intros ns Hlen Hone Hmin (k & s & Hk & Hs).
  - destruct ns; [destruct k; discriminate Hk | cbn in Hlen; lia].
  - destruct ns as [|n0 ns]; [destruct k; discriminate Hk |].
    destruct (Type_eqb (typ n0) TNone) eqn:E0.
    + apply wf_sentinel. apply Type_eqb_eq. exact E0.
    + apply Type_eqb_neq in E0.
      destruct k as [|k]; [cbn in Hk; inversion Hk; subst; congruence |].
      cbn [nth_error] in Hk.
      destruct ns as [|n1 nn]; [destruct k; discriminate Hk |].
      cbn [length] in Hlen.
      destruct (is_quant (typ n1)) eqn:Eq.
      * apply wf_quantified; try assumption.
        -- intros c. apply Hone. left. reflexivity.
        -- apply Hmin. right. left. reflexivity.
        -- apply IH.
           ++ lia.
           ++ intros nd c Hin. apply Hone. right. right. exact Hin.
           ++ intros nd Hin. apply Hmin. right. right. exact Hin.
           ++ destruct k as [|k];
                [cbn in Hk; inversion Hk; subst; rewrite Hs in Eq; discriminate Eq |].
              exists k, s. split; assumption.
      * apply wf_single; try assumption.
        -- intros c. apply Hone. left. reflexivity.
        -- apply IH.
           ++ cbn [length]. lia.
           ++ intros nd c Hin. apply Hone. right. exact Hin.
           ++ intros nd Hin. apply Hmin. right. exact Hin.
           ++ exists k, s. split; assumption.
Qed.

(** [Match] never panics on a compiled pattern whose [{m,n}] nodes have
    a non-negative minimum, that is, whose digit runs did not wrap. *)
Lemma Match_total_on_compiled (expr : list byte) (re : Regexp) :
  compile expr = Ok re ->
  (forall nd, In nd (nodes re) -> typ nd = TQuant -> 0 <= fst (mn nd)) ->
  forall b, Match re b <> Panic.
Proof.
  intros H Hmin b.
  destruct (compile_nodes_ok expr re H) as (Hone & _ & s & Hs & Hts).
  assert (Hwf : wf_cursor (buffer re) (nodes re)).
  { apply (wf_cursor_intro _ (length (nodes re))); auto. exists (MaxNodes - 1)%nat, s. auto. }
  apply Match_total; [exact Hwf |].
  intros n0 ns Hn Hb. rewrite Hn in *.
  apply (wf_cursor_intro _ (length ns)); auto.
  - intros nd c Hin. apply Hone. right. exact Hin.
  - intros nd Hin. apply Hmin. right. exact Hin.
  - exists (MaxNodes - 2)%nat, s. split; [| exact Hts].
    change (MaxNodes - 1)%nat with (S (MaxNodes - 2)) in Hs. exact Hs.
Qed.

Lemma scan_ext (buf : list byte) (ns ns' : list node) :
  (forall t, match_ buf ns' t = match_ buf ns t) ->
  forall b, scan buf ns' b = scan buf ns b.
Proof.
  intros H. induction b as [|c t IH]; cbn [scan]; [reflexivity |].
  rewrite H, IH. reflexivity.
Qed.

(** On a compiled pattern whose [{m,n}] minima did not wrap, replacing
    every greedy quantifier node by its lazy variant does not change the
    answer of [Match]. *)
Lemma Match_lazy_form_on_compiled (expr : list byte) (re : Regexp) :
  compile expr = Ok re ->
  (forall nd, In nd (nodes re) -> typ nd = TQuant -> 0 <= fst (mn nd)) ->
  forall b, Match (mkRegexp (map lazy_node (nodes re)) (buffer re)) b = Match re b.
Proof.
  intros H Hmin b.
  destruct (compile_nodes_ok expr re H) as (Hone & Hbounds & s & Hs & Hts).
  assert (Hsane : Forall sane_bounds (nodes re)).
  { apply Forall_forall. intros nd Hin Ht.
    specialize (Hmin nd Hin Ht). specialize (Hbounds nd Hin Ht).
    unfold MaxQuant, max_int in *. lia. }
  unfold Match. cbn [nodes buffer].
  destruct (Nat.eqb (length b) 0); [reflexivity |].
  destruct (nodes re) as [|n0 ns] eqn:En; [reflexivity |].
  cbn [map]. change (typ (lazy_node n0)) with (lazy_type (typ n0)).
  rewrite lazy_type_eqb by reflexivity.
  destruct (Type_eqb (typ n0) TBegin) eqn:Eb.
  - apply lazy_form_agrees; [| inversion Hsane; assumption].
    apply (wf_cursor_intro _ (length ns)); auto.
    + intros nd c Hin. apply Hone. right. exact Hin.
    + intros nd Hin. apply Hmin. right. exact Hin.
    + exists (MaxNodes - 2)%nat, s. split; [| exact Hts].
      change (MaxNodes - 1)%nat with (S (MaxNodes - 2)) in Hs. exact Hs.
  - change (lazy_node n0 :: map lazy_node ns) with (map lazy_node (n0 :: ns)).
    apply scan_ext. apply lazy_form_agrees; [| exact Hsane].
    apply (wf_cursor_intro _ (length (n0 :: ns))); auto.
    exists (MaxNodes - 1)%nat, s. auto.
Qed.

(* ================================================================== *)
(** ** Totality and the lazy form on compiled patterns *)

(** Boolean check of the side condition, for concrete patterns. *)
Lemma nonneg_minima_check (ns : list node) :
  forallb (fun nd => negb (Type_eqb (typ nd) TQuant) || (0 <=? fst (mn nd))) ns = true ->
  forall nd, In nd ns -> typ nd = TQuant -> 0 <= fst (mn nd).
Proof.
  intros H nd Hin Ht. rewrite forallb_forall in H. specialize (H nd Hin).
  apply Type_eqb_eq in Ht. rewrite Ht in H. cbn [negb orb] in H.
  apply Z.leb_le. exact H.
Qed.

(** C3. The minimum 2^63 wraps to -2^63 and passes the check against
    [MaxQuant]; in [matchQuant] the loop [for i >= min] then reaches
    [i = -1] and the slice [txt[i:]] panics. This is the only way for
    [Match] to fail: on every compiled pattern whose [{m,n}] nodes have a
    non-negative minimum it returns a boolean. *)
Theorem Match_panics_on_wrapped_minimum :
  (exists re,
     Compile "a{9223372036854775808}b" = Ok re
     /\ quant_at (Ok re) 1 = Some (TQuant, - 2 ^ 63, - 2 ^ 63)
     /\ Match re (bytes "c") = Panic)
  /\ (forall expr re,
        compile expr = Ok re ->
        (forall nd, In nd (nodes re) -> typ nd = TQuant -> 0 <= fst (mn nd)) ->
        forall b, exists r : bool, Match re b = Val r).
Proof.
  split.
  - eexists. split; [vm_compute; reflexivity |].
    split; vm_compute; reflexivity.
  - intros expr re H Hmin b.
    pose proof (Match_total_on_compiled expr re H Hmin b) as Ht.
    destruct (Match re b) as [r|]; [exists r; reflexivity | congruence].
Qed.

(** C3, instance: [[a-z]{2,3}\d] never goes wrong. *)
Lemma Match_panics_on_wrapped_minimum_witness :
  exists re, Compile "[a-z]{2,3}\d" = Ok re
             /\ exists r : bool, Match re (bytes "xy7") = Val r.
Proof.
  eexists. split; [vm_compute; reflexivity |].
  apply (proj2 Match_panics_on_wrapped_minimum (bytes "[a-z]{2,3}\d")).
  - vm_compute. reflexivity.
  - apply nonneg_minima_check. vm_compute. reflexivity.
Defined.

(** C7. With the wrapped minimum -2^63 the greedy form accepts [a] (the
    count 1 is at least the minimum), while the lazy form rejects it (its
    first loop must bring the minimum down to 0 and cannot). Where no
    minimum has wrapped the claim holds: the lazy form of a compiled
    pattern (every greedy quantifier node replaced by its lazy variant,
    as [a+?b{2,3}?c??] for [a+b{2,3}c?]) gives the same answers. *)
Theorem greedy_and_lazy_disagree_on_wrapped_minimum :
  (CompileMatch "a{9223372036854775808}" "a" = Ok (Val true)
   /\ CompileMatch "a{9223372036854775808}?" "a" = Ok (Val false))
  /\ (exists re re',
        Compile "a+b{2,3}c?" = Ok re /\ Compile "a+?b{2,3}?c??" = Ok re'
        /\ nodes re' = map lazy_node (nodes re) /\ buffer re' = buffer re)
  /\ (forall expr re,
        compile expr = Ok re ->
        (forall nd, In nd (nodes re) -> typ nd = TQuant -> 0 <= fst (mn nd)) ->
        forall b, Match (mkRegexp (map lazy_node (nodes re)) (buffer re)) b
                  = Match re b).
Proof.
  split; [split; vm_compute; reflexivity |]. split.
  - do 2 eexists. split; [vm_compute; reflexivity |].
    split; [vm_compute; reflexivity |]. split; reflexivity.
  - exact Match_lazy_form_on_compiled.
Qed.

(** C7, instance: [a+b{2,3}c?] and its lazy form on [aabbbc]. *)
Lemma greedy_and_lazy_disagree_on_wrapped_minimum_witness :
  exists re, Compile "a+b{2,3}c?" = Ok re
             /\ Match (mkRegexp (map lazy_node (nodes re)) (buffer re)) (bytes "aabbbc")
                = Match re (bytes "aabbbc").
Proof.
  eexists. split; [vm_compute; reflexivity |].
  apply (proj2 (proj2 greedy_and_lazy_disagree_on_wrapped_minimum) (bytes "a+b{2,3}c?")).
  - vm_compute. reflexivity.
  - apply nonneg_minima_check. vm_compute. reflexivity.
Defined.

(* ================================================================== *)
(** ** Further properties: what one loop iteration writes *)

Lemma length_set_nth {A} (s : list A) (j : nat) (x : A) :
  length (set_nth s j x) = length s.
Proof.
  revert j. induction s as [|y s IH]; intros j; [destruct j; reflexivity |].
  destruct j as [|j]; cbn [set_nth length]; [reflexivity | rewrite IH; reflexivity].
Qed.

Lemma classElem_length expr i idx buf i1 idx1 buf1 cont :
  classElem expr i idx buf = Ok (i1, idx1, buf1, cont) -> length buf1 = length buf.
Proof.
  unfold classElem. intros H. ok_all;
    repeat match goal with
    | E : store _ _ _ = Ok _ |- _ => apply store_length in E
    end; congruence.
Qed.

Lemma classRangeC_length expr i idx buf i2 idx2 buf2 :
  classRangeC expr i idx buf = Ok (i2, idx2, buf2) -> length buf2 = length buf.
Proof.
  intros H. apply classRangeC_Ok in H.
  destruct H as [(_ & _ & ->) | (_ & _ & _ & H)]; [reflexivity |].
  apply store_length in H. exact H.
Qed.

Lemma classCopy_length expr fuel :
  forall i idx buf i' idx' buf',
    classCopy expr fuel i idx buf = Ok (i', idx', buf') -> length buf' = length buf.
Proof.
  induction fuel as [|fuel IH]; intros i idx buf i' idx' buf' H; cbn [classCopy] in H.
  - destruct ((i <? length expr)%nat && negb (peek expr i (chr "]")));
      [discriminate H | inversion H; reflexivity].
  - destruct ((i <? length expr)%nat && negb (peek expr i (chr "]")));
      [| inversion H; reflexivity].
    destruct (classElem expr i idx buf) as [[[[i1 idx1] buf1] cont] | | |] eqn:EE;
      cbn [bind] in H; try discriminate H.
    apply classElem_length in EE. destruct cont.
    + apply IH in H. congruence.
    + destruct (classRangeC expr i1 idx1 buf1) as [[[i2 idx2] buf2] | | |] eqn:ER;
        cbn [bind] in H; try discriminate H.
      apply classRangeC_length in ER. apply IH in H. congruence.
Qed.

Lemma compileClass_length expr j st st' :
  compileClass expr j st = Ok st' -> length (c_buffer st') = length (c_buffer st).
Proof.
  unfold compileClass. intros H. ok_all; cbn [c_buffer].
  all: repeat match goal with
       | E : store _ _ _ = Ok _ |- _ => apply store_length in E
       | E : classCopy _ _ _ _ _ = Ok _ |- _ => apply classCopy_length in E
       end; congruence.
Qed.

(** What one iteration of the main loop does to the node array: it
    writes node [j] and nothing else. *)
Lemma step_Ok expr j st st' :
  step expr j st = Ok st' ->
  (j < length (c_nodes st))%nat
  /\ length (c_buffer st') = length (c_buffer st)
  /\ exists nd,
       c_nodes st' = set_nth (c_nodes st) j nd
       /\ typ nd <> TNone
       /\ (typ nd = TQuant \/ typ nd = TLQuant ->
           fst (mn nd) <= snd (mn nd) <= MaxQuant).
Proof.
  intros H.
  assert (HQ : compileQuant expr j st = Ok st' \/ compileClass expr j st = Ok st'
               \/ exists f, upd (c_nodes st) j f = Ok (c_nodes st')
                            /\ c_buffer st' = c_buffer st
                            /\ (forall nd, typ (f nd) <> TNone /\ typ (f nd) <> TQuant
                                           /\ typ (f nd) <> TLQuant)).
  { unfold step, compileMark, compileEscape in H. ok_all; auto; right; right;
      cbn [c_nodes c_buffer];
      match goal with
      | E1 : upd (c_nodes st) j ?f = Ok ?a, E2 : upd ?a j ?g = Ok _ |- _ =>
          exists (fun nd => g (f nd)); split; [exact (upd_upd _ _ _ _ _ _ E1 E2) |];
          split; [reflexivity |]; intros nd; cbn; repeat split; discriminate
      | E1 : upd (c_nodes st) j ?f = Ok _ |- _ =>
          exists f; split; [exact E1 |];
          split; [reflexivity |]; intros nd; cbn; repeat split; discriminate
      end. }
  destruct HQ as [HQ | [HC | (f & Hu & Hb & Hf)]].
  - apply compileQuant_Ok in HQ. destruct HQ as (_ & Eb & nd & Hlt & Hns & Ht & Hbd).
    split; [exact Hlt |]. split; [rewrite Eb; reflexivity |].
    exists nd. split; [exact Hns |]. split; [destruct Ht; congruence |].
    intros _. exact Hbd.
  - pose proof (compileClass_length _ _ _ _ HC) as Hl.
    apply compileClass_Ok in HC.
    destruct HC as (_ & _ & _ & _ & nd & T & Hnd & HT & Hns).
    split; [apply nth_error_Some; rewrite Hnd; discriminate |].
    split; [exact Hl |].
    exists (set_ccl (c_idx st) (set_typ T nd)). split; [exact Hns |].
    cbn [typ set_ccl set_typ]. split; [destruct HT; subst; discriminate |].
    intros [X | X]; destruct HT; congruence.
  - apply upd_Ok in Hu. destruct Hu as (nd & Hnd & Hns).
    split; [apply nth_error_Some; rewrite Hnd; discriminate |].
    split; [rewrite Hb; reflexivity |].
    exists (f nd). split; [exact Hns |]. destruct (Hf nd) as (H1 & H2 & H3).
    split; [exact H1 |]. intros [X | X]; congruence.
Qed.

(** *** Runs of ordinary bytes in a pattern *)

Lemma upd_eval (ns : list node) (j : nat) (nd : node) (f : node -> node) :
  nth_error ns j = Some nd -> upd ns j f = Ok (set_nth ns j (f nd)).
Proof.
  intros H. unfold upd, get, store. rewrite H. cbn [bind].
  assert (Hlt : (j < length ns)%nat) by (apply nth_error_Some; rewrite H; discriminate).
  apply Nat.ltb_lt in Hlt. rewrite Hlt. reflexivity.
Qed.

Lemma set_nth_app {A} (pre s : list A) (x : A) :
  set_nth (pre ++ s) (length pre) x = pre ++ set_nth s 0 x.
Proof.
  induction pre as [|y pre IH]; cbn [app length set_nth].
  - destruct s; reflexivity.
  - rewrite IH. reflexivity.
Qed.

Lemma nth_error_app_zero (pre : list node) (m : nat) :
  (0 < m)%nat -> nth_error (pre ++ repeat zero_node m) (length pre) = Some zero_node.
Proof.
  intros H. rewrite nth_error_app2 by lia. rewrite Nat.sub_diag.
  destruct m; [lia | reflexivity].
Qed.

(** The [default] case of the switch. *)
Lemma step_plain expr j st c nd :
  nth_error expr (c_i st) = Some c -> plain_byte c = true ->
  nth_error (c_nodes st) j = Some nd ->
  step expr j st
  = Ok (mkState (c_i st) true (c_idx st)
          (set_nth (c_nodes st) j (set_ch c (set_typ TChar nd))) (c_buffer st)).
Proof.
  intros Hc Hp Hnd. unfold step, get. rewrite Hc. cbn [bind].
  unfold plain_byte in Hp. apply negb_true_iff in Hp.
  repeat (apply orb_false_iff in Hp; destruct Hp as [Hp ?]).
  repeat match goal with E : (c =? _) = false |- _ => rewrite E; clear E end.
  rewrite (upd_eval _ _ _ _ Hnd). cbn [bind].
  assert (Hlt : (j < length (c_nodes st))%nat)
    by (apply nth_error_Some; rewrite Hnd; discriminate).
  rewrite (upd_eval _ _ (set_typ TChar nd)) by (apply nth_error_set_nth_eq; exact Hlt).
  cbn [bind]. rewrite set_nth_twice. reflexivity.
Qed.

(** A run of [k] ordinary bytes takes [k] iterations of the main loop
    and fills [k] fresh nodes. *)
Lemma loop_plain_run expr (run : list byte) :
  forall fuel j st pre m,
    c_nodes st = pre ++ repeat zero_node m -> length pre = j ->
    firstn (length run) (skipn (c_i st) expr) = run ->
    Forall (fun c => plain_byte c = true) run ->
    (j + length run < MaxNodes)%nat -> (length run <= m)%nat ->
    (length run <= fuel)%nat ->
    exists q,
      (run = [] -> q = c_quable st)
      /\ (run <> [] -> q = true)
      /\ loop expr fuel j st
         = loop expr (fuel - length run) (j + length run)
             (mkState (c_i st + length run) q (c_idx st)
                (pre ++ map lit_node run ++ repeat zero_node (m - length run))
                (c_buffer st)).
Proof.
  induction run as [|c run IH]; intros fuel j st pre m Hns Hj Hrun Hp Hcap Hm Hf.
  - exists (c_quable st). split; [reflexivity |]. split; [congruence |].
    cbn [length map app]. rewrite !Nat.add_0_r, !Nat.sub_0_r. rewrite <- Hns.
    destruct st; reflexivity.
  - cbn [length] in *.
    destruct fuel as [|fuel]; [lia |].
    destruct m as [|m]; [lia |].
    assert (Hc : nth_error expr (c_i st) = Some c).
    { destruct (skipn (c_i st) expr) as [|x l] eqn:E; [discriminate Hrun |].
      cbn [firstn] in Hrun. inversion Hrun; subst x.
      rewrite <- (firstn_skipn (c_i st) expr) at 1.
      assert (Hl : (c_i st <= length expr)%nat).
      { destruct (Nat.le_gt_cases (c_i st) (length expr)) as [|Hgt]; [assumption |].
        rewrite skipn_all2 in E by lia. discriminate E. }
      rewrite nth_error_app2 by (rewrite length_firstn; lia).
      rewrite length_firstn, Nat.min_l by lia. rewrite Nat.sub_diag, E. reflexivity. }
    assert (Hlt : (c_i st < length expr)%nat)
      by (apply nth_error_Some; rewrite Hc; discriminate).
    inversion Hp as [|? ? Hpc Hpr]; subst.
    assert (Hnd : nth_error (c_nodes st) (length pre) = Some zero_node)
      by (rewrite Hns; apply nth_error_app_zero; lia).
    cbn [loop].
    replace ((c_i st <? length expr)%nat) with true by (symmetry; apply Nat.ltb_lt; lia).
    replace ((length pre + 1 <? MaxNodes)%nat) with true
      by (symmetry; apply Nat.ltb_lt; lia).
    cbn [andb].
    rewrite (step_plain _ _ _ _ _ Hc Hpc Hnd). cbn [bind c_i c_quable c_idx c_nodes c_buffer].
    destruct (IH fuel (S (length pre))
                (mkState (S (c_i st)) true (c_idx st)
                   (set_nth (c_nodes st) (length pre) (set_ch c (set_typ TChar zero_node)))
                   (c_buffer st))
                (pre ++ [lit_node c]) m) as (q & Hq0 & Hq1 & Hq).
    + cbn [c_nodes]. rewrite Hns, set_nth_app. cbn [repeat set_nth].
      rewrite <- app_assoc. reflexivity.
    + rewrite length_app. cbn [length]. lia.
    + cbn [c_i].
      destruct (skipn (c_i st) expr) as [|x l] eqn:E; [discriminate Hrun |].
      cbn [firstn] in Hrun. injection Hrun as Hx Hl.
      replace (skipn (S (c_i st)) expr) with l; [exact Hl |].
      change (S (c_i st)) with (1 + c_i st)%nat.
      rewrite <- skipn_skipn, E. reflexivity.
    + exact Hpr.
    + lia.
    + lia.
    + lia.
    + exists true. split; [discriminate |]. split; [reflexivity |].
      assert (q = true) as -> by (destruct run; [apply Hq0; reflexivity | apply Hq1; discriminate]).
      rewrite Hq. cbn [c_i c_quable c_idx c_nodes c_buffer Nat.sub].
      rewrite <- app_assoc. cbn [app map].
      replace (S (length pre) + length run)%nat with (length pre + S (length run))%nat by lia.
      replace (S (c_i st) + length run)%nat with (c_i st + S (length run))%nat by lia.
      reflexivity.
Qed.

(** *** Matching a run of [Char] nodes *)

Lemma match_char_step buf c n1 nn txt :
  is_quant (typ n1) = false ->
  match_ buf (lit_node c :: n1 :: nn) txt
  = match txt with
    | [] => Val false
    | x :: t => if c =? x then match_ buf (n1 :: nn) t else Val false
    end.
Proof.
  intros Hq. rewrite match_unfold. cbn [lit_node typ Type_eqb andb].
  cbv zeta. destruct (typ n1); try discriminate Hq;
    (destruct txt as [|x t]; [reflexivity |]);
    unfold matchOne; cbn [typ ch rbind]; reflexivity.
Qed.

Lemma match_literal buf tail (p : list byte) :
  forall txt, match_ buf (map lit_node p ++ zero_node :: tail) txt = Val (is_prefix p txt).
Proof.
  induction p as [|c p IH]; intros txt.
  - reflexivity.
  - assert (Hstep : match_ buf (map lit_node (c :: p) ++ zero_node :: tail) txt
                    = match txt with
                      | [] => Val false
                      | x :: t => if c =? x
                                  then match_ buf (map lit_node p ++ zero_node :: tail) t
                                  else Val false
                      end).
    { destruct p as [|c' p]; cbn [map app]; apply match_char_step; reflexivity. }
    rewrite Hstep. destruct txt as [|x t]; [reflexivity |].
    cbn [is_prefix]. destruct (c =? x); [apply IH | reflexivity].
Qed.

Lemma match_literal_end buf tail (p : list byte) :
  forall txt,
    match_ buf (map lit_node p ++ end_node :: zero_node :: tail) txt
    = Val (same_bytes p txt).
Proof.
  induction p as [|c p IH]; intros txt.
  - cbn [map app]. rewrite match_unfold. cbn [end_node zero_node typ Type_eqb andb].
    destruct txt; reflexivity.
  - assert (Hstep : match_ buf (map lit_node (c :: p) ++ end_node :: zero_node :: tail) txt
                    = match txt with
                      | [] => Val false
                      | x :: t => if c =? x
                                  then match_ buf (map lit_node p ++ end_node :: zero_node :: tail) t
                                  else Val false
                      end).
    { destruct p as [|c' p]; cbn [map app]; apply match_char_step; reflexivity. }
    rewrite Hstep. destruct txt as [|x t]; [reflexivity |].
    cbn [same_bytes]. destruct (c =? x); [apply IH | reflexivity].
Qed.

Lemma scan_value buf ns (f : list byte -> bool) :
  (forall t, match_ buf ns t = Val (f t)) ->
  forall b, scan buf ns b = Val (some_suffix f b).
Proof.
  intros Hf b. induction b as [|x b IH]; [reflexivity |].
  cbn [scan some_suffix]. rewrite Hf. cbn [rbind].
  destruct (f (x :: b)); [reflexivity | exact IH].
Qed.

(** *** The tests on byte strings, as propositions *)

Lemma is_prefix_spec (p txt : list byte) :
  is_prefix p txt = true <-> exists post, txt = p ++ post.
Proof.
  revert txt. induction p as [|x p IH]; intros txt; cbn [is_prefix].
  - split; [intros _; exists txt; reflexivity | reflexivity].
  - destruct txt as [|y t].
    + split; [discriminate | intros [post H]; discriminate H].
    + rewrite andb_true_iff, Z.eqb_eq, IH. split.
      * intros [-> [post ->]]. exists post. reflexivity.
      * intros [post H]. cbn [app] in H. injection H as -> ->.
        split; [reflexivity | exists post; reflexivity].
Qed.

Lemma same_bytes_spec (p txt : list byte) :
  same_bytes p txt = true <-> txt = p.
Proof.
  revert txt. induction p as [|x p IH]; intros txt; destruct txt as [|y t];
    cbn [same_bytes]; try (split; [discriminate | discriminate]).
  - split; reflexivity.
  - rewrite andb_true_iff, Z.eqb_eq, IH. split.
    + intros [-> ->]. reflexivity.
    + intros H. injection H as -> ->. split; reflexivity.
Qed.

Lemma some_suffix_spec (f : list byte -> bool) (b : list byte) :
  some_suffix f b = true
  <-> exists pre s, b = pre ++ s /\ s <> [] /\ f s = true.
Proof.
  induction b as [|x b IH]; cbn [some_suffix].
  - split; [discriminate |]. intros (pre & s & H & Hs & _).
    destruct pre, s; try discriminate H. congruence.
  - rewrite orb_true_iff, IH. split.
    + intros [H | (pre & s & -> & Hs & H)].
      * exists [], (x :: b). repeat split; [discriminate | exact H].
      * exists (x :: pre), s. repeat split; assumption.
    + intros (pre & s & H & Hs & Hf). destruct pre as [|y pre].
      * cbn [app] in H. subst s. left. exact Hf.
      * cbn [app] in H. injection H as -> ->. right. exists pre, s.
        repeat split; assumption.
Qed.

Lemma occurs_spec (p b : list byte) :
  p <> [] -> (some_suffix (is_prefix p) b = true <-> occurs p b).
Proof.
  intros Hp. rewrite some_suffix_spec. unfold occurs. split.
  - intros (pre & s & -> & _ & H). apply is_prefix_spec in H. destruct H as [post ->].
    exists pre, post. reflexivity.
  - intros (pre & post & ->). exists pre, (p ++ post). split; [reflexivity |].
    split; [destruct p; [congruence | discriminate] |].
    apply is_prefix_spec. exists post. reflexivity.
Qed.

Lemma ends_with_spec (p b : list byte) :
  p <> [] -> (some_suffix (same_bytes p) b = true <-> exists pre, b = pre ++ p).
Proof.
  intros Hp. rewrite some_suffix_spec. split.
  - intros (pre & s & -> & _ & H). apply same_bytes_spec in H. subst s.
    exists pre. reflexivity.
  - intros (pre & ->). exists pre, p. split; [reflexivity |].
    split; [exact Hp | apply same_bytes_spec; reflexivity].
Qed.

(** *** Compiling runs of ordinary bytes *)

Lemma loop_stop expr fuel j st :
  (c_i st <? length expr)%nat && (j + 1 <? MaxNodes)%nat = false ->
  loop expr fuel j st = Ok (j, st).
Proof. intros H. destruct fuel; cbn [loop]; rewrite H; reflexivity. Qed.

Lemma set_nth_same {A} (s : list A) (j : nat) (x : A) :
  nth_error s j = Some x -> set_nth s j x = s.
Proof.
  revert j. induction s as [|y s IH]; intros j H; [destruct j; discriminate H |].
  destruct j as [|j]; cbn [set_nth nth_error] in *.
  - congruence.
  - rewrite IH by exact H. reflexivity.
Qed.

(** The sentinel write after the loop, when node [j] is still zeroed. *)
Lemma sentinel_write (pre : list node) (m : nat) :
  (0 < m)%nat ->
  upd (pre ++ repeat zero_node m) (length pre) (set_typ TNone)
  = Ok (pre ++ repeat zero_node m).
Proof.
  intros Hm. rewrite (upd_eval _ _ zero_node) by (apply nth_error_app_zero; exact Hm).
  rewrite set_nth_same; [reflexivity |]. apply nth_error_app_zero. exact Hm.
Qed.

Lemma step_anchor expr j st c nd (t : Type_) :
  nth_error expr (c_i st) = Some c ->
  (c = chr "^" /\ t = TBegin) \/ (c = chr "$" /\ t = TEnd) ->
  nth_error (c_nodes st) j = Some nd ->
  step expr j st
  = Ok (mkState (c_i st) false (c_idx st)
          (set_nth (c_nodes st) j (set_typ t nd)) (c_buffer st)).
Proof.
  intros Hc Ht Hnd. unfold step, get. rewrite Hc. cbn [bind].
  destruct Ht as [[-> ->] | [-> ->]].
  - change (chr "^" =? chr "^") with true. cbv iota.
    rewrite (upd_eval _ _ _ _ Hnd). reflexivity.
  - change (chr "$" =? chr "^") with false. change (chr "$" =? chr "$") with true.
    cbv iota. rewrite (upd_eval _ _ _ _ Hnd). reflexivity.
Qed.

Lemma compile_literal (lit : list byte) :
  lit <> [] -> Forall (fun c => plain_byte c = true) lit ->
  compile lit
  = Ok (mkRegexp (map lit_node (firstn 63 lit)
                    ++ repeat zero_node (MaxNodes - length (firstn 63 lit)))
                 (repeat 0 MaxBufLen)).
Proof.
  intros Hne Hp. unfold compile.
  destruct (length lit =? 0)%nat eqn:E0.
  { apply Nat.eqb_eq in E0. destruct lit; [congruence | discriminate E0]. }
  set (run := firstn 63 lit).
  assert (Hlen : (length run <= 63)%nat) by (unfold run; rewrite length_firstn; lia).
  destruct (loop_plain_run lit run MaxNodes 0 init_state [] MaxNodes)
    as (q & _ & _ & Hq).
  - reflexivity.
  - reflexivity.
  - cbn [init_state c_i skipn]. unfold run. rewrite length_firstn.
    destruct (Nat.le_gt_cases 63 (length lit)).
    + rewrite Nat.min_l by lia. reflexivity.
    + rewrite Nat.min_r by lia. rewrite !firstn_all2 by lia. reflexivity.
  - unfold run. apply Forall_forall. intros c Hc. rewrite Forall_forall in Hp.
    apply Hp. rewrite <- (firstn_skipn 63 lit). apply in_or_app. left. exact Hc.
  - unfold MaxNodes. lia.
  - unfold MaxNodes. lia.
  - unfold MaxNodes. lia.
  - rewrite Hq. rewrite loop_stop.
    + cbn [bind c_nodes c_buffer init_state app].
      replace (0 + length run)%nat with (length (map lit_node run))
        by (rewrite length_map; reflexivity).
      rewrite sentinel_write by (unfold MaxNodes; lia).
      cbn [bind]. reflexivity.
    + cbn [c_i init_state]. apply andb_false_iff.
      unfold run in *. rewrite length_firstn in *.
      destruct (Nat.le_gt_cases 63 (length lit)).
      * right. apply Nat.ltb_ge. rewrite Nat.min_l by lia. unfold MaxNodes. lia.
      * left. apply Nat.ltb_ge. rewrite Nat.min_r by lia. lia.
Qed.

Lemma Forall_firstn {A} (P : A -> Prop) (k : nat) (l : list A) :
  Forall P l -> Forall P (firstn k l).
Proof.
  intros H. apply Forall_forall. intros x Hx. rewrite Forall_forall in H.
  apply H. rewrite <- (firstn_skipn k l). apply in_or_app. left. exact Hx.
Qed.

(** The loop over a run of ordinary bytes that ends the pattern or
    fills the node array. *)
Lemma loop_run_stop expr (run : list byte) fuel j st pre m :
  c_nodes st = pre ++ repeat zero_node m -> length pre = j ->
  firstn (length run) (skipn (c_i st) expr) = run ->
  Forall (fun c => plain_byte c = true) run ->
  (j + length run < MaxNodes)%nat -> (length run <= m)%nat ->
  (length run <= fuel)%nat ->
  (c_i st + length run = length expr \/ j + length run + 1 = MaxNodes)%nat ->
  exists q,
    loop expr fuel j st
    = Ok ((j + length run)%nat,
          mkState (c_i st + length run) q (c_idx st)
            (pre ++ map lit_node run ++ repeat zero_node (m - length run))
            (c_buffer st)).
Proof.
  intros Hns Hj Hrun Hp Hcap Hm Hf Hend.
  destruct (loop_plain_run expr run fuel j st pre m Hns Hj Hrun Hp Hcap Hm Hf)
    as (q & _ & _ & Hq).
  exists q. rewrite Hq. apply loop_stop. cbn [c_i]. apply andb_false_iff.
  destruct Hend; [left | right]; apply Nat.ltb_ge; lia.
Qed.

(** The same run followed by a final [$]. *)
Lemma loop_run_end expr (run : list byte) fuel j st pre m :
  c_nodes st = pre ++ repeat zero_node m -> length pre = j ->
  firstn (length run) (skipn (c_i st) expr) = run ->
  Forall (fun c => plain_byte c = true) run ->
  (j + length run + 1 < MaxNodes)%nat -> (length run + 2 <= m)%nat ->
  (length run + 1 <= fuel)%nat ->
  nth_error expr (c_i st + length run) = Some (chr "$") ->
  (c_i st + length run + 1 = length expr)%nat ->
  loop expr fuel j st
  = Ok ((j + length run + 1)%nat,
        mkState (c_i st + length run + 1) false (c_idx st)
          (pre ++ map lit_node run ++ end_node :: repeat zero_node (m - length run - 1))
          (c_buffer st)).
Proof.
  intros Hns Hj Hrun Hp Hcap Hm Hf Hd Hn.
  destruct (loop_plain_run expr run fuel j st pre m Hns Hj Hrun Hp) as (q & _ & _ & Hq);
    [lia | lia | lia |].
  rewrite Hq. clear Hq.
  destruct (fuel - length run)%nat as [|fuel'] eqn:Ef; [lia |].
  cbn [loop c_i].
  replace ((c_i st + length run <? length expr)%nat) with true
    by (symmetry; apply Nat.ltb_lt; lia).
  replace ((j + length run + 1 <? MaxNodes)%nat) with true
    by (symmetry; apply Nat.ltb_lt; lia).
  cbn [andb].
  assert (Hnd : nth_error (pre ++ map lit_node run ++ repeat zero_node (m - length run))
                  (j + length run) = Some zero_node).
  { rewrite app_assoc.
    replace (j + length run)%nat with (length (pre ++ map lit_node run))
      by (rewrite length_app, length_map; lia).
    apply nth_error_app_zero. lia. }
  rewrite (step_anchor expr _ _ (chr "$") zero_node TEnd); cbn [c_i c_nodes];
    [| exact Hd | right; split; reflexivity | exact Hnd].
  cbn [bind c_i c_quable c_idx c_nodes c_buffer].
  rewrite loop_stop.
  - f_equal. f_equal.
    + f_equal; lia.
    + replace (S (c_i st + length run)) with (c_i st + length run + 1)%nat by lia.
      f_equal. rewrite app_assoc.
      replace (j + length run)%nat with (length (pre ++ map lit_node run))
        by (rewrite length_app, length_map; lia).
      rewrite set_nth_app.
      destruct (m - length run)%nat as [|m'] eqn:Em; [lia |].
      cbn [repeat set_nth]. rewrite <- app_assoc.
      replace (S m' - 1)%nat with m' by lia. reflexivity.
  - cbn [c_i]. apply andb_false_iff. left. apply Nat.ltb_ge. lia.
Qed.

(** The first iteration on a pattern that starts with [^]. *)
Lemma loop_begin (rest : list byte) fuel :
  loop (chr "^" :: rest) (S fuel) 0 init_state
  = loop (chr "^" :: rest) fuel 1
      (mkState 1 false 0 ([begin_node] ++ repeat zero_node 63) (repeat 0 MaxBufLen)).
Proof.
  cbn [loop]. change (c_i init_state) with 0%nat.
  change ((0 <? length (chr "^" :: rest))%nat) with true.
  change ((0 + 1 <? MaxNodes)%nat) with true. cbn [andb].
  rewrite (step_anchor _ _ _ (chr "^") zero_node TBegin);
    [| reflexivity | left; split; reflexivity | reflexivity].
  reflexivity.
Qed.

Lemma compile_anchored_literal (lit : list byte) :
  Forall (fun c => plain_byte c = true) lit ->
  compile (chr "^" :: lit)
  = Ok (mkRegexp (begin_node :: map lit_node (firstn 62 lit)
                    ++ repeat zero_node (63 - length (firstn 62 lit)))
                 (repeat 0 MaxBufLen)).
Proof.
  intros Hp. unfold compile. cbn [length Nat.eqb].
  change MaxNodes with (S 63) at 1. rewrite loop_begin.
  set (run := firstn 62 lit).
  assert (Hlen : (length run <= 62)%nat) by (unfold run; rewrite length_firstn; lia).
  destruct (loop_run_stop (chr "^" :: lit) run 63 1
              (mkState 1 false 0 ([begin_node] ++ repeat zero_node 63) (repeat 0 MaxBufLen))
              [begin_node] 63) as (q & Hq).
  - reflexivity.
  - reflexivity.
  - cbn [c_i skipn]. unfold run. rewrite length_firstn.
    destruct (Nat.le_gt_cases 62 (length lit)).
    + rewrite Nat.min_l by lia. reflexivity.
    + rewrite Nat.min_r by lia. rewrite !firstn_all2 by lia. reflexivity.
  - apply Forall_firstn. exact Hp.
  - unfold MaxNodes. lia.
  - lia.
  - lia.
  - cbn [c_i length]. unfold run in *. rewrite length_firstn in *. unfold MaxNodes. lia.
  - rewrite Hq. cbn [bind c_nodes c_buffer].
    rewrite app_assoc.
    replace (1 + length run)%nat with (length ([begin_node] ++ map lit_node run))
      by (rewrite length_app, length_map; reflexivity).
    rewrite sentinel_write by lia. reflexivity.
Qed.

Lemma compile_literal_end (lit : list byte) :
  Forall (fun c => plain_byte c = true) lit -> (length lit <= 62)%nat ->
  compile (lit ++ [chr "$"])
  = Ok (mkRegexp (map lit_node lit ++ end_node :: repeat zero_node (63 - length lit))
                 (repeat 0 MaxBufLen)).
Proof.
  intros Hp Hlen. unfold compile.
  destruct (length (lit ++ [chr "$"]) =? 0)%nat eqn:E0.
  { apply Nat.eqb_eq in E0. rewrite length_app in E0. cbn [length] in E0. lia. }
  rewrite (loop_run_end (lit ++ [chr "$"]) lit MaxNodes 0 init_state [] MaxNodes).
  - cbn [bind c_nodes c_buffer init_state app].
    change (map lit_node lit ++ end_node :: repeat zero_node (MaxNodes - length lit - 1))
      with (map lit_node lit ++ [end_node] ++ repeat zero_node (MaxNodes - length lit - 1)).
    rewrite app_assoc.
    replace (0 + length lit + 1)%nat with (length (map lit_node lit ++ [end_node]))
      by (rewrite length_app, length_map; cbn [length]; lia).
    rewrite sentinel_write by (unfold MaxNodes; lia). cbn [bind].
    rewrite <- app_assoc. cbn [app].
    replace (MaxNodes - length lit - 1)%nat with (63 - length lit)%nat
      by (unfold MaxNodes; lia).
    reflexivity.
  - reflexivity.
  - reflexivity.
  - cbn [init_state c_i skipn]. rewrite firstn_app, Nat.sub_diag, firstn_all.
    cbn [firstn]. apply app_nil_r.
  - exact Hp.
  - unfold MaxNodes. lia.
  - unfold MaxNodes. lia.
  - unfold MaxNodes. lia.
  - cbn [init_state c_i Nat.add]. rewrite nth_error_app2, Nat.sub_diag by lia. reflexivity.
  - cbn [init_state c_i Nat.add]. rewrite length_app. cbn [length]. lia.
Qed.

Lemma compile_anchored_literal_end (lit : list byte) :
  Forall (fun c => plain_byte c = true) lit -> (length lit <= 61)%nat ->
  compile (chr "^" :: lit ++ [chr "$"])
  = Ok (mkRegexp (begin_node :: map lit_node lit
                    ++ end_node :: repeat zero_node (62 - length lit))
                 (repeat 0 MaxBufLen)).
Proof.
  intros Hp Hlen. unfold compile. cbn [length Nat.eqb].
  change MaxNodes with (S 63) at 1. rewrite loop_begin.
  rewrite (loop_run_end (chr "^" :: lit ++ [chr "$"]) lit 63 1 _ [begin_node] 63).
  - cbn [bind c_nodes c_buffer].
    change (map lit_node lit ++ end_node :: repeat zero_node (63 - length lit - 1))
      with (map lit_node lit ++ [end_node] ++ repeat zero_node (63 - length lit - 1)).
    rewrite !app_assoc.
    replace (1 + length lit + 1)%nat
      with (length (([begin_node] ++ map lit_node lit) ++ [end_node]))
      by (rewrite !length_app, length_map; cbn [length]; lia).
    rewrite sentinel_write by lia. cbn [bind].
    rewrite <- !app_assoc. cbn [app].
    replace (63 - length lit - 1)%nat with (62 - length lit)%nat by lia.
    reflexivity.
  - reflexivity.
  - reflexivity.
  - cbn [c_i skipn]. rewrite firstn_app, Nat.sub_diag, firstn_all.
    cbn [firstn]. apply app_nil_r.
  - exact Hp.
  - unfold MaxNodes. lia.
  - lia.
  - lia.
  - cbn [c_i]. change (1 + length lit)%nat with (S (length lit)). cbn [nth_error].
    rewrite nth_error_app2, Nat.sub_diag by lia. reflexivity.
  - cbn [c_i length]. rewrite length_app. cbn [length]. lia.
Qed.

(* ================================================================== *)
(** ** Further properties: patterns of ordinary bytes *)

Lemma Match_scanning (n0 : node) (ns : list node) (buf b : list byte)
    (f : list byte -> bool) :
  Type_eqb (typ n0) TBegin = false ->
  (forall t, match_ buf (n0 :: ns) t = Val (f t)) ->
  Match (mkRegexp (n0 :: ns) buf) b = Val (some_suffix f b).
Proof.
  intros Hb Hf. unfold Match. cbn [nodes buffer]. rewrite Hb.
  destruct b as [|x b]; [reflexivity |]. cbn [length Nat.eqb].
  apply scan_value. exact Hf.
Qed.

Lemma Match_anchored (ns : list node) (buf b : list byte) (f : list byte -> bool) :
  (forall t, match_ buf ns t = Val (f t)) ->
  Match (mkRegexp (begin_node :: ns) buf) b
  = Val (negb (Nat.eqb (length b) 0) && f b).
Proof.
  intros Hf. unfold Match. cbn [nodes buffer begin_node typ Type_eqb].
  destruct (Nat.eqb (length b) 0); [reflexivity | apply Hf].
Qed.

Lemma nonempty_length (b : list byte) : negb (Nat.eqb (length b) 0) = true <-> b <> [].
Proof. destruct b; cbn; split; congruence. Qed.

(** X1. A pattern made of ordinary bytes only is a substring search:
    it compiles, [Match] never panics, and [Match] answers [true] exactly
    on the inputs that contain the pattern as a block of adjacent bytes.
    Only the first 63 bytes of the pattern count: the loop of [compile]
    stops when the node array is full. *)
Theorem literal_pattern_is_substring_search (lit b : list byte) :
  lit <> [] -> Forall (fun c => plain_byte c = true) lit ->
  exists re,
    compile lit = Ok re
    /\ Match re b <> Panic
    /\ (Match re b = Val true <-> occurs (firstn 63 lit) b).
Proof.
  intros Hne Hp. eexists. split; [apply compile_literal; assumption |].
  assert (Hrun : firstn 63 lit <> []) by (destruct lit; [congruence | discriminate]).
  assert (Hlen : (length (firstn 63 lit) <= 63)%nat) by (rewrite length_firstn; lia).
  destruct (firstn 63 lit) as [|c run] eqn:E; [congruence |].
  assert (HM : Match (mkRegexp (map lit_node (c :: run)
                                  ++ repeat zero_node (MaxNodes - length (c :: run)))
                               (repeat 0 MaxBufLen)) b
               = Val (some_suffix (is_prefix (c :: run)) b)).
  { cbn [map app]. apply Match_scanning; [reflexivity |].
    intros t. change (lit_node c :: map lit_node run) with (map lit_node (c :: run)).
    destruct (MaxNodes - length (c :: run))%nat as [|m] eqn:Em;
      [unfold MaxNodes in Em; lia |].
    cbn [repeat]. exact (match_literal _ _ (c :: run) t). }
  rewrite HM. split; [discriminate |].
  rewrite <- occurs_spec by discriminate.
  split; [intros H; injection H as H; exact H | intros ->; reflexivity].
Qed.

(** X1, instance: [ab] against [xaby]. *)
Lemma literal_pattern_is_substring_search_witness :
  bytes "ab" <> []
  /\ Forall (fun c => plain_byte c = true) (bytes "ab")
  /\ exists re,
       compile (bytes "ab") = Ok re
       /\ Match re (bytes "xaby") <> Panic
       /\ (Match re (bytes "xaby") = Val true
           <-> occurs (firstn 63 (bytes "ab")) (bytes "xaby")).
Proof.
  split; [discriminate |].
  split; [repeat constructor |].
  apply (literal_pattern_is_substring_search (bytes "ab") (bytes "xaby")).
  - discriminate.
  - repeat constructor.
Defined.

(** X2. The pattern [^] followed by ordinary bytes is a prefix test:
    [Match] answers [true] exactly on the non-empty inputs that start
    with those bytes (with the first 62 of them, the node array being
    full after that). *)
Theorem anchored_literal_is_prefix_test (lit b : list byte) :
  Forall (fun c => plain_byte c = true) lit ->
  exists re,
    compile (chr "^" :: lit) = Ok re
    /\ Match re b <> Panic
    /\ (Match re b = Val true
        <-> b <> [] /\ exists post, b = firstn 62 lit ++ post).
Proof.
  intros Hp. eexists. split; [apply compile_anchored_literal; assumption |].
  assert (Hlen : (length (firstn 62 lit) <= 62)%nat) by (rewrite length_firstn; lia).
  assert (HM : Match (mkRegexp (begin_node :: map lit_node (firstn 62 lit)
                                  ++ repeat zero_node (63 - length (firstn 62 lit)))
                               (repeat 0 MaxBufLen)) b
               = Val (negb (Nat.eqb (length b) 0) && is_prefix (firstn 62 lit) b)).
  { apply Match_anchored. intros t.
    destruct (63 - length (firstn 62 lit))%nat as [|m] eqn:Em; [lia |].
    cbn [repeat]. apply match_literal. }
  rewrite HM. split; [discriminate |].
  rewrite <- is_prefix_spec, <- nonempty_length, <- andb_true_iff.
  split; [intros H; injection H as H; exact H | intros ->; reflexivity].
Qed.

(** X2, instance: [^ab] against [abc]. *)
Lemma anchored_literal_is_prefix_test_witness :
  Forall (fun c => plain_byte c = true) (bytes "ab")
  /\ exists re,
       compile (chr "^" :: bytes "ab") = Ok re
       /\ Match re (bytes "abc") <> Panic
       /\ (Match re (bytes "abc") = Val true
           <-> bytes "abc" <> []
               /\ exists post, bytes "abc" = firstn 62 (bytes "ab") ++ post).
Proof.
  split; [repeat constructor |].
  apply (anchored_literal_is_prefix_test (bytes "ab") (bytes "abc")).
  repeat constructor.
Defined.

(** X3. Ordinary bytes followed by [$] are a suffix test: for at most 62
    such bytes, [Match] answers [true] exactly on the inputs that end
    with them. *)
Theorem literal_end_is_suffix_test (lit b : list byte) :
  lit <> [] -> Forall (fun c => plain_byte c = true) lit -> (length lit <= 62)%nat ->
  exists re,
    compile (lit ++ [chr "$"]) = Ok re
    /\ Match re b <> Panic
    /\ (Match re b = Val true <-> exists pre, b = pre ++ lit).
Proof.
  intros Hne Hp Hlen. eexists. split; [apply compile_literal_end; assumption |].
  assert (HM : Match (mkRegexp (map lit_node lit
                                  ++ end_node :: repeat zero_node (63 - length lit))
                               (repeat 0 MaxBufLen)) b
               = Val (some_suffix (same_bytes lit) b)).
  { destruct (63 - length lit)%nat as [|m] eqn:Em; [lia |].
    clear Em Hlen Hp. destruct lit as [|c run]; [congruence |].
    cbn [map app]. apply Match_scanning; [reflexivity |].
    intros t. cbn [repeat]. exact (match_literal_end _ _ (c :: run) t). }
  rewrite HM. split; [discriminate |].
  rewrite <- ends_with_spec by exact Hne.
  split; [intros H; injection H as H; exact H | intros ->; reflexivity].
Qed.

(** X3, instance: [ab$] against [xab]. *)
Lemma literal_end_is_suffix_test_witness :
  bytes "ab" <> []
  /\ Forall (fun c => plain_byte c = true) (bytes "ab")
  /\ (length (bytes "ab") <= 62)%nat
  /\ exists re,
       compile (bytes "ab" ++ [chr "$"]) = Ok re
       /\ Match re (bytes "xab") <> Panic
       /\ (Match re (bytes "xab") = Val true <-> exists pre, bytes "xab" = pre ++ bytes "ab").
Proof.
  split; [discriminate |].
  split; [repeat constructor |].
  split; [cbn; lia |].
  apply (literal_end_is_suffix_test (bytes "ab") (bytes "xab")).
  - discriminate.
  - repeat constructor.
  - cbn. lia.
Defined.

(** X4. The pattern [^], ordinary bytes, [$] is an equality test: for at
    most 61 such bytes, [Match] answers [true] exactly on the input that
    is equal to them (and never on the empty input). *)
Theorem anchored_literal_end_is_equality_test (lit b : list byte) :
  Forall (fun c => plain_byte c = true) lit -> (length lit <= 61)%nat ->
  exists re,
    compile (chr "^" :: lit ++ [chr "$"]) = Ok re
    /\ Match re b <> Panic
    /\ (Match re b = Val true <-> b <> [] /\ b = lit).
Proof.
  intros Hp Hlen. eexists. split; [apply compile_anchored_literal_end; assumption |].
  assert (HM : Match (mkRegexp (begin_node :: map lit_node lit
                                  ++ end_node :: repeat zero_node (62 - length lit))
                               (repeat 0 MaxBufLen)) b
               = Val (negb (Nat.eqb (length b) 0) && same_bytes lit b)).
  { apply Match_anchored. intros t.
    destruct (62 - length lit)%nat as [|m] eqn:Em; [lia |].
    cbn [repeat]. apply match_literal_end. }
  rewrite HM. split; [discriminate |].
  rewrite <- (same_bytes_spec lit b), <- (nonempty_length b), <- andb_true_iff.
  split; [intros H; injection H as H; exact H | intros ->; reflexivity].
Qed.

(** X4, instance: [^abcd$] against [abcd]. *)
Lemma anchored_literal_end_is_equality_test_witness :
  Forall (fun c => plain_byte c = true) (bytes "abcd")
  /\ (length (bytes "abcd") <= 61)%nat
  /\ exists re,
       compile (chr "^" :: bytes "abcd" ++ [chr "$"]) = Ok re
       /\ Match re (bytes "abcd") <> Panic
       /\ (Match re (bytes "abcd") = Val true
           <-> bytes "abcd" <> [] /\ bytes "abcd" = bytes "abcd").
Proof.
  split; [repeat constructor |].
  split; [cbn; lia |].
  apply (anchored_literal_end_is_equality_test (bytes "abcd") (bytes "abcd")).
  - repeat constructor.
  - cbn. lia.
Defined.

(* ================================================================== *)
(** ** Further properties: invariants of compiled patterns *)

(** *** The node array of a compiled pattern *)

Lemma layout_step (j : nat) (ns : list node) (nd : node) :
  layout j ns -> typ nd <> TNone -> layout (S j) (set_nth ns j nd).
Proof.
  intros [Hlen Hns] Hnd. split; [rewrite length_set_nth; exact Hlen |].
  intros i x Hx. destruct (Nat.eq_dec j i) as [<- | Hne].
  - assert (Hlt : (j < length ns)%nat).
    { apply nth_error_Some. intros E.
      assert (Hl : (j < length (set_nth ns j nd))%nat)
        by (apply nth_error_Some; rewrite Hx; discriminate).
      rewrite length_set_nth in Hl. apply nth_error_None in E. lia. }
    rewrite nth_error_set_nth_eq in Hx by exact Hlt. injection Hx as <-.
    split; [intros _; exact Hnd | lia].
  - rewrite nth_error_set_nth_ne in Hx by exact Hne.
    destruct (Hns i x Hx) as [H1 H2]. split; intros H; [apply H1 | apply H2]; lia.
Qed.

Lemma loop_layout expr fuel :
  forall j st j' st',
    loop expr fuel j st = Ok (j', st') ->
    (j < MaxNodes)%nat -> layout j (c_nodes st) ->
    Forall bounded_quant (c_nodes st) ->
    length (c_buffer st) = MaxBufLen ->
    (j <= j' < MaxNodes)%nat /\ layout j' (c_nodes st')
    /\ Forall bounded_quant (c_nodes st')
    /\ length (c_buffer st') = MaxBufLen.
Proof.
  induction fuel as [|fuel IH]; intros j st j' st' H Hj Hl Hb Hbuf; cbn [loop] in H.
  - destruct ((c_i st <? length expr)%nat && (j + 1 <? MaxNodes)%nat);
      [discriminate H |]. inversion H; subst.
    split; [lia | split; [assumption | split; assumption]].
  - destruct ((c_i st <? length expr)%nat && (j + 1 <? MaxNodes)%nat) eqn:Ec.
    + destruct (step expr j st) as [st1 | | |] eqn:ES; cbn [bind] in H;
        try discriminate H.
      apply andb_true_iff in Ec. destruct Ec as [_ Ec]. apply Nat.ltb_lt in Ec.
      apply step_Ok in ES. destruct ES as (Hlt & Hbl & nd & Hns & Hnd & Hq).
      apply IH in H; cbn [c_nodes c_buffer].
      * destruct H as (Hjj & H). split; [lia | exact H].
      * lia.
      * rewrite Hns. apply layout_step; assumption.
      * rewrite Hns. apply Forall_set_nth; [exact Hb | exact Hq].
      * congruence.
    + inversion H; subst. split; [lia | split; [assumption | split; assumption]].
Qed.

Lemma loop_unfold expr fuel j st :
  loop expr (S fuel) j st
  = if (c_i st <? length expr)%nat && (j + 1 <? MaxNodes)%nat
    then st' <-- step expr j st ;;
         loop expr fuel (S j)
           (mkState (S (c_i st')) (c_quable st') (c_idx st') (c_nodes st') (c_buffer st'))
    else Ok (j, st).
Proof. reflexivity. Qed.

Lemma init_layout : layout 0 (c_nodes init_state).
Proof.
  split; [apply repeat_length |].
  intros i nd H. split; [lia |]. intros _.
  apply nth_error_In in H. apply repeat_spec in H. exact H.
Qed.

Lemma init_bounded : Forall bounded_quant (c_nodes init_state).
Proof.
  apply Forall_forall. intros nd H. apply repeat_spec in H. subst nd.
  intros [X | X]; discriminate X.
Qed.

(** X5. The node array of every compiled pattern has the fixed size
    [MaxNodes] and the class buffer the fixed size [MaxBufLen]; the
    array holds between 1 and 63 pattern nodes, none of them [None],
    and only zeroed nodes after them, so that the [None] sentinel is
    always there and is the first zeroed node. *)
Theorem compiled_pattern_layout (expr : list byte) (re : Regexp) :
  compile expr = Ok re ->
  length (buffer re) = MaxBufLen
  /\ exists k, (1 <= k < MaxNodes)%nat /\ layout k (nodes re).
Proof.
  unfold compile. intros H.
  destruct (length expr =? 0)%nat eqn:E0; [discriminate H |].
  apply Nat.eqb_neq in E0.
  change MaxNodes with (S 63) in H at 1. rewrite loop_unfold in H.
  change (c_i init_state) with 0%nat in H.
  replace ((0 <? length expr)%nat) with true in H by (symmetry; apply Nat.ltb_lt; lia).
  change ((0 + 1 <? MaxNodes)%nat) with true in H. cbn [andb] in H.
  destruct (step expr 0 init_state) as [st1 | | |] eqn:ES; cbn [bind] in H;
    try discriminate H.
  apply step_Ok in ES. destruct ES as (Hlt & Hbl & nd & Hns & Hnd & Hq).
  destruct (loop expr 63 1 _) as [[j st] | | |] eqn:EL; cbn [bind] in H;
    try discriminate H.
  apply loop_layout in EL; cbn [c_nodes c_buffer].
  - destruct EL as (Hj & Hl & _ & Hbuf).
    destruct (upd (c_nodes st) j (set_typ TNone)) as [ns | | |] eqn:EU; cbn [bind] in H;
      try discriminate H.
    inversion H; subst; clear H. cbn [nodes buffer].
    split; [exact Hbuf |]. exists j. split; [lia |].
    apply upd_Ok in EU. destruct EU as (x & Hx & ->).
    destruct (proj2 Hl j x Hx) as [_ Hz]. rewrite (Hz (Nat.le_refl j)).
    change (set_typ TNone zero_node) with zero_node.
    rewrite set_nth_same; [exact Hl |]. rewrite Hx, (Hz (Nat.le_refl j)). reflexivity.
  - unfold MaxNodes. lia.
  - rewrite Hns. apply layout_step; [apply init_layout | exact Hnd].
  - rewrite Hns. apply Forall_set_nth; [apply init_bounded | exact Hq].
  - rewrite Hbl. apply repeat_length.
Qed.

(** X5, instance: the pattern [a[0-9]+]. *)
Lemma compiled_pattern_layout_witness :
  exists re,
    Compile "a[0-9]+" = Ok re
    /\ length (buffer re) = MaxBufLen
    /\ exists k, (1 <= k < MaxNodes)%nat /\ layout k (nodes re).
Proof.
  eexists. split; [vm_compute; reflexivity |].
  apply (compiled_pattern_layout (bytes "a[0-9]+")). vm_compute. reflexivity.
Defined.

(** X6. In every compiled pattern, each [{m,n}] node, greedy or lazy,
    has [min <= max <= MaxQuant]. *)
Theorem compiled_quantifier_bounds (expr : list byte) (re : Regexp) :
  compile expr = Ok re ->
  forall nd, In nd (nodes re) ->
    typ nd = TQuant \/ typ nd = TLQuant ->
    fst (mn nd) <= snd (mn nd) <= MaxQuant.
Proof.
  unfold compile. intros H.
  destruct (length expr =? 0)%nat eqn:E0; [discriminate H |].
  destruct (loop expr MaxNodes 0 init_state) as [[j st] | | |] eqn:EL; cbn [bind] in H;
    try discriminate H.
  apply loop_layout in EL;
    [| unfold MaxNodes; lia | apply init_layout | apply init_bounded | apply repeat_length].
  destruct EL as (_ & _ & Hb & _).
  destruct (upd (c_nodes st) j (set_typ TNone)) as [ns | | |] eqn:EU; cbn [bind] in H;
    try discriminate H.
  inversion H; subst; clear H. cbn [nodes].
  apply upd_Ok in EU. destruct EU as (x & Hx & ->).
  assert (HF : Forall bounded_quant (set_nth (c_nodes st) j (set_typ TNone x))).
  { apply Forall_set_nth; [exact Hb |]. intros [X | X]; discriminate X. }
  rewrite Forall_forall in HF. intros nd Hnd. exact (HF nd Hnd).
Qed.

(** X6, instance: the lazy quantifier of [a{2,5}?b]. *)
Lemma compiled_quantifier_bounds_witness :
  exists re nd,
    Compile "a{2,5}?b" = Ok re
    /\ In nd (nodes re)
    /\ (typ nd = TQuant \/ typ nd = TLQuant)
    /\ fst (mn nd) <= snd (mn nd) <= MaxQuant.
Proof.
  eexists. exists (mkNode TLQuant 0 None (2, 5)).
  split; [vm_compute; reflexivity |].
  split; [right; left; reflexivity |].
  split; [right; reflexivity |].
  apply (compiled_quantifier_bounds (bytes "a{2,5}?b") _ eq_refl).
  - right. left. reflexivity.
  - right. reflexivity.
Defined.

(* ================================================================== *)
(** ** Further properties: the class matcher *)

(** *** What a class payload accepts *)

Lemma class_byte_inv (c : byte) :
  class_byte c = true -> (c =? 0) = false /\ (c =? chr "\") = false /\ (c =? chr "-") = false.
Proof.
  unfold class_byte. intros H. apply negb_true_iff in H.
  repeat (apply orb_false_iff in H; destruct H as [H ?]). repeat split; assumption.
Qed.

Lemma upto0_plain (l : list byte) :
  Forall (fun c => class_byte c = true) l -> upto0 l = l.
Proof.
  induction 1 as [|c l Hc _ IH]; [reflexivity |].
  cbn [upto0]. destruct (class_byte_inv c Hc) as (-> & _ & _). rewrite IH. reflexivity.
Qed.

(** The cursor of [matchCharClass] on a payload: the bytes before the
    first zero byte and that zero byte (the whole slice when it starts
    with the zero byte). *)
Lemma matchCharClass_cursor (b : byte) (l tail : list byte) :
  Forall (fun c => c <> 0) l ->
  matchCharClass b (l ++ 0 :: tail)
  = classLoop b (l ++ 0 :: tail) 0 (l ++ [0]).
Proof.
  intros Hl. unfold matchCharClass.
  assert (Hu : upto0 l = l).
  { induction Hl as [|c l Hc _ IH]; [reflexivity |]. cbn [upto0].
    apply Z.eqb_neq in Hc. rewrite Hc, IH. reflexivity. }
  destruct (IndexByte_upto0 l tail) as [Hi Hf]. rewrite Hu in Hi, Hf.
  rewrite Hi. cbv zeta.
  destruct l as [|c l].
  - reflexivity.
  - replace (0 <? Z.of_nat (length (c :: l))) with true
      by (symmetry; apply Z.ltb_lt; cbn [length]; lia).
    replace (Z.to_nat (Z.of_nat (length (c :: l)) + 1)) with (S (length (c :: l))) by lia.
    rewrite Hf. reflexivity.
Qed.

Lemma classLoop_plain (b : byte) (txt : list byte) (l : list byte) :
  Forall (fun c => class_byte c = true) l ->
  forall i, classLoop b txt i (l ++ [0]) = Val (existsb (fun c => c =? b) l).
Proof.
  induction 1 as [|c l Hc Hl IH]; intros i; [reflexivity |].
  destruct (class_byte_inv c Hc) as (E0 & Eb & _).
  cbn [app classLoop existsb]. rewrite E0, Eb.
  destruct (c =? b); [reflexivity |]. cbn [orb].
  unfold classRange.
  destruct Hl as [|c' l' Hc' Hl'].
  - reflexivity.
  - destruct (class_byte_inv c' Hc') as (_ & _ & Em).
    cbn [app at_ nth_error rbind]. rewrite Em. cbn [negb]. apply IH.
Qed.

Lemma classLoop_head (b : byte) (txt : list byte) (i : nat) (c : byte)
    (str1 : list byte) :
  (c =? 0) = false -> (c =? chr "\") = false ->
  classLoop b txt i (c :: str1)
  = if c =? b then Val true
    else classRange b txt (i + 1) str1
           (fun _ => classLoop b txt (i + 1) str1)
           (fun _ => match str1 with
                     | [] => Panic
                     | _ :: str2 => classLoop b txt (i + 2) str2
                     end).
Proof. intros H0 Hb. cbn [classLoop]. rewrite H0, Hb. reflexivity. Qed.

Lemma class_byte_nonzero (l : list byte) :
  Forall (fun c => class_byte c = true) l -> Forall (fun c => c <> 0) l.
Proof.
  intros H. eapply Forall_impl; [| exact H]. intros c Hc.
  apply Z.eqb_neq. apply (class_byte_inv c Hc).
Qed.

(** X8. A class payload of plain bytes (no zero byte, backslash or
    hyphen) accepts exactly its members: [matchCharClass] answers
    whether the byte is one of them, whatever follows the terminator in
    the buffer. *)
Theorem matchCharClass_plain_members (b : byte) (l tail : list byte) :
  Forall (fun c => class_byte c = true) l ->
  matchCharClass b (l ++ 0 :: tail) = Val (existsb (fun c => c =? b) l).
Proof.
  intros Hl. rewrite matchCharClass_cursor by (apply class_byte_nonzero; exact Hl).
  apply classLoop_plain. exact Hl.
Qed.

(** X8, instance: the payload [xyz] and the byte [y]. *)
Lemma matchCharClass_plain_members_witness :
  Forall (fun c => class_byte c = true) (bytes "xyz")
  /\ matchCharClass (chr "y") (bytes "xyz" ++ 0 :: bytes "leftover")
     = Val (existsb (fun c => c =? chr "y") (bytes "xyz")).
Proof.
  split; [repeat constructor |].
  apply (matchCharClass_plain_members (chr "y") (bytes "xyz") (bytes "leftover")).
  repeat constructor.
Defined.

(** X9. A class payload that is one range [lo-hi] with [lo <= hi]
    accepts exactly the bytes from [lo] to [hi]. *)
Theorem matchCharClass_range (b lo hi : byte) (tail : list byte) :
  class_byte lo = true -> class_byte hi = true -> lo <= hi ->
  matchCharClass b (lo :: chr "-" :: hi :: 0 :: tail)
  = Val ((lo <=? b) && (b <=? hi)).
Proof.
  intros Hlo Hhi Hle.
  destruct (class_byte_inv lo Hlo) as (L0 & Lb & Lm).
  destruct (class_byte_inv hi Hhi) as (H0 & Hb & Hm).
  change (lo :: chr "-" :: hi :: 0 :: tail) with ([lo; chr "-"; hi] ++ 0 :: tail).
  rewrite matchCharClass_cursor.
  2:{ repeat constructor; apply Z.eqb_neq; [exact L0 | reflexivity | exact H0]. }
  cbn [app]. rewrite (classLoop_head _ _ _ _ _ L0 Lb).
  destruct (lo =? b) eqn:E1.
  { apply Z.eqb_eq in E1. subst b. symmetry. f_equal. apply andb_true_iff.
    split; apply Z.leb_le; lia. }
  unfold classRange. cbn [at_ nth_error rbind Nat.add Nat.sub].
  change (chr "-" =? chr "-") with true. cbn [negb].
  rewrite H0, Hb. cbn [rbind].
  destruct ((lo <=? b) && (b <=? hi)) eqn:E2; [reflexivity |].
  rewrite (classLoop_plain b _ [hi]) by (repeat constructor; exact Hhi).
  cbn [existsb].
  destruct (hi =? b) eqn:E3; [| reflexivity].
  apply Z.eqb_eq in E3. subst b. apply andb_false_iff in E2.
  destruct E2 as [E2 | E2]; apply Z.leb_gt in E2; lia.
Qed.

(** X9, instance: the payload [a-f] and the byte [c]. *)
Lemma matchCharClass_range_witness :
  class_byte (chr "a") = true /\ class_byte (chr "f") = true /\ chr "a" <= chr "f"
  /\ matchCharClass (chr "c") (chr "a" :: chr "-" :: chr "f" :: 0 :: [])
     = Val ((chr "a" <=? chr "c") && (chr "c" <=? chr "f")).
Proof.
  split; [reflexivity |]. split; [reflexivity |]. split; [discriminate |].
  apply (matchCharClass_range (chr "c") (chr "a") (chr "f") []).
  - reflexivity.
  - reflexivity.
  - discriminate.
Defined.

Lemma matchCharClass_escape (b m : byte) (tail : list byte) :
  m <> 0 ->
  matchCharClass b (chr "\" :: m :: 0 :: tail) = Val (matchMetaChar b m).
Proof.
  intros Hm.
  change (chr "\" :: m :: 0 :: tail) with ([chr "\"; m] ++ 0 :: tail).
  rewrite matchCharClass_cursor by (repeat constructor; [discriminate | exact Hm]).
  cbn [app classLoop]. change (chr "\" =? 0) with false.
  change (chr "\" =? chr "\") with true. cbv iota.
  destruct (matchMetaChar b m); reflexivity.
Qed.

Lemma scan_congr (buf1 buf2 : list byte) (ns1 ns2 : list node) :
  (forall t, match_ buf1 ns1 t = match_ buf2 ns2 t) ->
  forall b, scan buf1 ns1 b = scan buf2 ns2 b.
Proof.
  intros H b. induction b as [|x b IH]; [reflexivity |].
  cbn [scan]. rewrite H, IH. reflexivity.
Qed.

(** The core match of a pattern that is one atom. *)
Lemma match_single_atom (buf : list byte) (nd : node) (tail : list node)
    (txt : list byte) :
  Type_eqb (typ nd) TNone = false -> Type_eqb (typ nd) TEnd = false ->
  match_ buf (nd :: zero_node :: tail) txt
  = match txt with
    | [] => Val false
    | c :: _ => matchOne buf nd c
    end.
Proof.
  intros H1 H2. rewrite match_unfold, H1, H2. cbn [andb zero_node typ]. cbv zeta.
  destruct txt as [|c t]; [reflexivity |].
  destruct (matchOne buf nd c) as [[|] |]; cbn [rbind]; [| reflexivity | reflexivity].
  destruct tail; reflexivity.
Qed.

(** X10. A class that holds one of the escapes [\d], [\D], [\w], [\W],
    [\s], [\S] and nothing else is the same pattern as the escape alone:
    both compile, and [Match] gives the same answer on every input. *)
Theorem class_of_one_escape_is_the_escape (m : byte) (b : list byte) :
  isMeta m = true ->
  exists re1 re2,
    compile [chr "\"; m] = Ok re1
    /\ compile [chr "["; chr "\"; m; chr "]"] = Ok re2
    /\ Match re2 b = Match re1 b.
Proof.
  intros Hm.
  assert (Hcases : m = chr "s" \/ m = chr "S" \/ m = chr "w" \/ m = chr "W"
                   \/ m = chr "d" \/ m = chr "D").
  { unfold isMeta in Hm. repeat (apply orb_true_iff in Hm; destruct Hm as [Hm | Hm]);
      apply Z.eqb_eq in Hm; auto 10. }
  assert (Hbody : forall T,
            compile [chr "\"; m] = Ok (mkRegexp (mkNode T 0 None (0, 0)
                                          :: repeat zero_node 63) (repeat 0 MaxBufLen)) ->
            compile [chr "["; chr "\"; m; chr "]"]
            = Ok (mkRegexp (mkNode TClass 0 (Some 0%nat) (0, 0) :: repeat zero_node 63)
                    (chr "\" :: m :: repeat 0 126)) ->
            (forall c, matchOne [] (mkNode T 0 None (0, 0)) c = Val (matchMetaChar c m)) ->
            Type_eqb T TNone = false -> Type_eqb T TEnd = false ->
            Type_eqb T TBegin = false -> T <> TClass -> T <> TNClass ->
            exists re1 re2,
              compile [chr "\"; m] = Ok re1
              /\ compile [chr "["; chr "\"; m; chr "]"] = Ok re2
              /\ Match re2 b = Match re1 b).
  { intros T H1 H2 Hone Hn He Hb Hc Hnc. eexists. eexists.
    split; [exact H1 |]. split; [exact H2 |].
    unfold Match. cbn [nodes buffer typ Type_eqb]. rewrite Hb.
    destruct (Nat.eqb (length b) 0); [reflexivity |].
    apply scan_congr. intros t. cbn [repeat].
    rewrite !match_single_atom by (assumption || reflexivity).
    destruct t as [|c t]; [reflexivity |].
    transitivity (Val (matchMetaChar c m)).
    - unfold matchOne, cclOf. cbn [typ ccl skipn].
      change (repeat 0 126) with (0 :: repeat 0 125).
      apply matchCharClass_escape.
      destruct Hcases as [-> | [-> | [-> | [-> | [-> | ->]]]]]; discriminate.
    - unfold matchOne in *. cbn [typ] in *. specialize (Hone c).
      destruct T; try congruence; symmetry; exact Hone. }
  destruct Hcases as [-> | [-> | [-> | [-> | [-> | ->]]]]].
  - apply (Hbody TSpace); try reflexivity; discriminate.
  - apply (Hbody TNSpace); try reflexivity; discriminate.
  - apply (Hbody TAlpha); try reflexivity; discriminate.
  - apply (Hbody TNAlpha); try reflexivity; discriminate.
  - apply (Hbody TDigit); try reflexivity; discriminate.
  - apply (Hbody TNDigit); try reflexivity; discriminate.
Qed.

(** X10, instance: [[\d]] and [\d] against [x7]. *)
Lemma class_of_one_escape_is_the_escape_witness :
  isMeta (chr "d") = true
  /\ exists re1 re2,
       compile [chr "\"; chr "d"] = Ok re1
       /\ compile [chr "["; chr "\"; chr "d"; chr "]"] = Ok re2
       /\ Match re2 (bytes "x7") = Match re1 (bytes "x7").
Proof.
  split; [reflexivity |].
  apply (class_of_one_escape_is_the_escape (chr "d") (bytes "x7")). reflexivity.
Defined.

(** X11. On a payload made of whole elements and followed by a zero
    byte, [matchCharClass] returns an answer for every byte: it never
    reads past the terminator. *)
Theorem matchCharClass_total_on_payload (b : byte) (pay tail : list byte) :
  tokens pay -> exists r, matchCharClass b (pay ++ 0 :: tail) = Val r.
Proof.
  intros H. pose proof (matchCharClass_payload b pay tail H) as Hp.
  destruct (matchCharClass b (pay ++ 0 :: tail)) as [r |]; [exists r; reflexivity | congruence].
Qed.

(** X11, instance: the payload [a-z\d] and the byte [q]. *)
Lemma matchCharClass_total_on_payload_witness :
  tokens (bytes "a-z\d")
  /\ exists r, matchCharClass (chr "q") (bytes "a-z\d" ++ 0 :: []) = Val r.
Proof.
  assert (H : tokens (bytes "a-z\d")).
  { apply tok_byte; [discriminate |]. apply tok_byte; [discriminate |].
    apply tok_byte; [discriminate |]. apply (tok_pair (chr "d")); [reflexivity |].
    apply tok_nil. }
  split; [exact H |].
  apply (matchCharClass_total_on_payload (chr "q") (bytes "a-z\d") [] H).
Defined.

(* ================================================================== *)
(** ** Further properties: misplaced anchors *)

(** *** Anchors that are not at their end of the pattern *)

Lemma match_dead_anchor buf n0 n1 nn txt :
  is_quant (typ n1) = false ->
  typ n0 = TBegin \/ (typ n0 = TEnd /\ typ n1 <> TNone) ->
  match_ buf (n0 :: n1 :: nn) txt = Val false.
Proof.
  intros Hq Ha. rewrite match_unfold.
  assert (H0 : Type_eqb (typ n0) TNone = false)
    by (destruct Ha as [-> | [-> _]]; reflexivity).
  assert (H1 : Type_eqb (typ n0) TEnd && Type_eqb (typ n1) TNone = false).
  { destruct Ha as [-> | [-> Hn]]; [reflexivity |].
    cbn [Type_eqb andb]. destruct (typ n1); try reflexivity. congruence. }
  rewrite H0, H1. cbv zeta.
  assert (Hone : forall c, matchOne buf n0 c = Val false)
    by (intros c; unfold matchOne; destruct Ha as [-> | [-> _]]; reflexivity).
  destruct (typ n1); try discriminate Hq;
    (destruct txt as [|c t]; [reflexivity | rewrite Hone; reflexivity]).
Qed.

Lemma match_literal_dead buf (a n1 : node) (nn : list node) (p : list byte) :
  is_quant (typ a) = false ->
  (forall txt, match_ buf (a :: n1 :: nn) txt = Val false) ->
  forall txt, match_ buf (map lit_node p ++ a :: n1 :: nn) txt = Val false.
Proof.
  intros Hq Ha. induction p as [|c p IH]; intros txt; [apply Ha |].
  assert (Hstep : match_ buf (map lit_node (c :: p) ++ a :: n1 :: nn) txt
                  = match txt with
                    | [] => Val false
                    | x :: t => if c =? x
                                then match_ buf (map lit_node p ++ a :: n1 :: nn) t
                                else Val false
                    end).
  { destruct p as [|c' p]; cbn [map app]; apply match_char_step;
      [exact Hq | reflexivity]. }
  rewrite Hstep. destruct txt as [|x t]; [reflexivity |].
  destruct (c =? x); [apply IH | reflexivity].
Qed.

Lemma some_suffix_false (b : list byte) : some_suffix (fun _ => false) b = false.
Proof. induction b as [|x b IH]; [reflexivity | exact IH]. Qed.

Lemma skipn_app_cons {A} (l1 : list A) (a : A) (l2 : list A) :
  skipn (S (length l1)) (l1 ++ a :: l2) = l2.
Proof. induction l1 as [|x l1 IH]; [reflexivity | exact IH]. Qed.

Lemma compile_inner_anchor (lit1 lit2 : list byte) (a : byte) (t : Type_) :
  Forall (fun c => plain_byte c = true) lit1 ->
  Forall (fun c => plain_byte c = true) lit2 ->
  (length lit1 <= 61)%nat ->
  (a = chr "^" /\ t = TBegin) \/ (a = chr "$" /\ t = TEnd) ->
  compile (lit1 ++ a :: lit2)
  = Ok (mkRegexp
          (map lit_node lit1
             ++ mkNode t 0 None (0, 0)
             :: map lit_node (firstn (62 - length lit1) lit2)
             ++ repeat zero_node
                  (63 - length lit1 - length (firstn (62 - length lit1) lit2)))
          (repeat 0 MaxBufLen)).
Proof.
  intros Hp1 Hp2 Hlen Ha. unfold compile.
  set (expr := lit1 ++ a :: lit2).
  assert (Hn : length expr = (length lit1 + S (length lit2))%nat)
    by (unfold expr; rewrite length_app; reflexivity).
  destruct (length expr =? 0)%nat eqn:E0; [apply Nat.eqb_eq in E0; lia |].
  destruct (loop_plain_run expr lit1 MaxNodes 0 init_state [] MaxNodes)
    as (q1 & _ & _ & Hq1).
  { reflexivity. } { reflexivity. }
  { cbn [init_state c_i skipn]. unfold expr.
    rewrite firstn_app, Nat.sub_diag, firstn_all. cbn [firstn]. apply app_nil_r. }
  { exact Hp1. } { unfold MaxNodes; lia. } { unfold MaxNodes; lia. }
  { unfold MaxNodes; lia. }
  rewrite Hq1. clear Hq1. cbn [init_state c_i c_idx c_buffer app Nat.add].
  replace (MaxNodes - length lit1)%nat with (S (63 - length lit1))
    by (unfold MaxNodes; lia).
  rewrite loop_unfold. cbn [c_i].
  replace ((length lit1 <? length expr)%nat) with true
    by (symmetry; apply Nat.ltb_lt; lia).
  replace ((length lit1 + 1 <? MaxNodes)%nat) with true
    by (symmetry; apply Nat.ltb_lt; unfold MaxNodes; lia).
  cbn [andb].
  assert (Hnd : nth_error (map lit_node lit1 ++ repeat zero_node (S (63 - length lit1)))
                  (length lit1) = Some zero_node).
  { rewrite <- (length_map lit_node lit1) at 2. apply nth_error_app_zero. lia. }
  rewrite (step_anchor expr _ _ a zero_node t); cbn [c_i c_nodes];
    [| unfold expr; rewrite nth_error_app2, Nat.sub_diag by lia; reflexivity
     | exact Ha | exact Hnd].
  cbn [bind c_i c_quable c_idx c_nodes c_buffer].
  set (run2 := firstn (62 - length lit1) lit2).
  assert (Hl2 : (length run2 <= 62 - length lit1)%nat)
    by (unfold run2; rewrite length_firstn; lia).
  destruct (loop_run_stop expr run2 (63 - length lit1) (S (length lit1))
              (mkState (S (length lit1)) false 0
                 (set_nth (map lit_node lit1 ++ repeat zero_node (S (63 - length lit1)))
                    (length lit1) (set_typ t zero_node))
                 (repeat 0 MaxBufLen))
              (map lit_node lit1 ++ [mkNode t 0 None (0, 0)]) (63 - length lit1))
    as (q2 & Hq2).
  { cbn [c_nodes]. rewrite <- (length_map lit_node lit1) at 2.
    rewrite set_nth_app. cbn [repeat set_nth]. rewrite <- app_assoc. reflexivity. }
  { rewrite length_app, length_map. cbn [length]. lia. }
  { cbn [c_i]. unfold expr. rewrite skipn_app_cons. unfold run2.
    rewrite length_firstn.
    destruct (Nat.le_gt_cases (62 - length lit1) (length lit2)).
    - rewrite Nat.min_l by lia. reflexivity.
    - rewrite Nat.min_r by lia. rewrite !firstn_all2 by lia. reflexivity. }
  { unfold run2. apply Forall_firstn. exact Hp2. }
  { unfold MaxNodes. lia. } { lia. } { lia. }
  { cbn [c_i]. unfold run2 in *. rewrite length_firstn in *. unfold MaxNodes. lia. }
  rewrite Hq2. cbn [bind c_nodes c_buffer].
  rewrite app_assoc.
  replace (S (length lit1) + length run2)%nat
    with (length ((map lit_node lit1 ++ [mkNode t 0 None (0, 0)]) ++ map lit_node run2))
    by (rewrite !length_app, !length_map; cbn [length]; lia).
  rewrite sentinel_write by lia. cbn [bind].
  rewrite <- !app_assoc. cbn [app]. reflexivity.
Qed.

(** X12. An anchor inside a short run of ordinary bytes makes the
    pattern unmatchable. Take at most 61 ordinary bytes [lit1], then an
    anchor, then at least one ordinary byte ([lit2], not empty); the
    anchor is [$], or it is [^] and [lit1] is not empty. Then the
    pattern compiles and [Match] answers [false] on every input. (With
    62 bytes or more before the anchor, the bytes after it do not fit
    the node array and nothing is stated.) *)
Theorem inner_anchor_never_matches (lit1 lit2 b : list byte) (a : byte) :
  Forall (fun c => plain_byte c = true) lit1 ->
  Forall (fun c => plain_byte c = true) lit2 ->
  lit2 <> [] -> (length lit1 <= 61)%nat ->
  a = chr "$" \/ (a = chr "^" /\ lit1 <> []) ->
  exists re, compile (lit1 ++ a :: lit2) = Ok re /\ Match re b = Val false.
Proof.
  intros Hp1 Hp2 Hne Hlen Ha.
  set (t := if a =? chr "$" then TEnd else TBegin).
  assert (Hat : (a = chr "^" /\ t = TBegin) \/ (a = chr "$" /\ t = TEnd)).
  { unfold t. destruct Ha as [-> | [-> _]]; [right | left]; split; reflexivity. }
  eexists. split; [apply (compile_inner_anchor lit1 lit2 a t); assumption |].
  assert (Hrun : exists c run, firstn (62 - length lit1) lit2 = c :: run).
  { destruct lit2 as [|c l2]; [congruence |].
    destruct (62 - length lit1)%nat as [|k] eqn:Ek; [lia |].
    cbn [firstn]. eauto. }
  destruct Hrun as (c & run & ->). cbn [map app].
  assert (Hdead : forall txt,
            match_ (repeat 0 MaxBufLen)
              (map lit_node lit1 ++ mkNode t 0 None (0, 0) :: lit_node c
                 :: map lit_node run
                 ++ repeat zero_node (63 - length lit1 - length (c :: run))) txt
            = Val false).
  { apply match_literal_dead.
    - destruct Hat as [[_ ->] | [_ ->]]; reflexivity.
    - intros txt. apply match_dead_anchor; [reflexivity |]. cbn [typ lit_node].
      destruct Hat as [[_ ->] | [_ ->]]; [left; reflexivity |].
      right. split; [reflexivity | discriminate]. }
  destruct lit1 as [|c1 l1].
  - cbn [map app] in *.
    replace (Match _ b) with (Val (some_suffix (fun _ => false) b)).
    + rewrite some_suffix_false. reflexivity.
    + symmetry. apply Match_scanning; [| exact Hdead].
      destruct Ha as [-> | [_ Hx]]; [reflexivity | congruence].
  - cbn [map app] in *.
    replace (Match _ b) with (Val (some_suffix (fun _ => false) b)).
    + rewrite some_suffix_false. reflexivity.
    + symmetry. apply Match_scanning; [reflexivity | exact Hdead].
Qed.

(** X12, instance: [a$b] against the text [a$b]. *)
Lemma inner_anchor_never_matches_witness :
  Forall (fun c => plain_byte c = true) (bytes "a")
  /\ Forall (fun c => plain_byte c = true) (bytes "b")
  /\ bytes "b" <> [] /\ (length (bytes "a") <= 61)%nat
  /\ (chr "$" = chr "$" \/ (chr "$" = chr "^" /\ bytes "a" <> []))
  /\ exists re, compile (bytes "a" ++ chr "$" :: bytes "b") = Ok re
                /\ Match re (bytes "a$b") = Val false.
Proof.
  split; [repeat constructor |]. split; [repeat constructor |].
  split; [discriminate |]. split; [cbn; lia |]. split; [left; reflexivity |].
  apply (inner_anchor_never_matches (bytes "a") (bytes "b") (bytes "a$b") (chr "$")).
  - repeat constructor.
  - repeat constructor.
  - discriminate.
  - cbn. lia.
  - left. reflexivity.
Defined.

(* ================================================================== *)
(** ** Further properties: inputs, lazy quantifiers, outcomes *)

(** *** Unanchored patterns and longer inputs *)

Lemma scan_app_left (buf : list byte) (ns : list node) (pre b : list byte) :
  (forall t, match_ buf ns t <> Panic) ->
  scan buf ns b = Val true -> scan buf ns (pre ++ b) = Val true.
Proof.
  intros Htot H. induction pre as [|x pre IH]; [exact H |].
  cbn [app scan]. specialize (Htot (x :: pre ++ b)).
  destruct (match_ buf ns (x :: pre ++ b)) as [[|] |]; cbn [rbind];
    [reflexivity | exact IH | congruence].
Qed.

(** X13. For a compiled pattern that does not start with [^] (and whose
    [{m,n}] minima did not wrap to a negative number), a match is not
    lost when bytes are put in front of the input. *)
Theorem unanchored_match_survives_prepending (expr : list byte) (re : Regexp)
    (pre b : list byte) :
  compile expr = Ok re ->
  (forall nd, In nd (nodes re) -> typ nd = TQuant -> 0 <= fst (mn nd)) ->
  (forall n0 ns, nodes re = n0 :: ns -> typ n0 <> TBegin) ->
  Match re b = Val true -> Match re (pre ++ b) = Val true.
Proof.
  intros H Hmin Hb HM.
  destruct (compile_nodes_ok expr re H) as (Hone & _ & s & Hs & Hts).
  assert (Hwf : wf_cursor (buffer re) (nodes re)).
  { apply (wf_cursor_intro _ (length (nodes re))); auto.
    exists (MaxNodes - 1)%nat, s. auto. }
  unfold Match in *.
  destruct b as [|x b]; [discriminate HM |].
  replace (Nat.eqb (length (pre ++ x :: b)) 0) with false
    by (symmetry; apply Nat.eqb_neq; rewrite length_app; cbn [length]; lia).
  cbn [length Nat.eqb] in HM.
  destruct (nodes re) as [|n0 ns] eqn:En; [discriminate HM |].
  specialize (Hb n0 ns eq_refl).
  destruct (Type_eqb (typ n0) TBegin) eqn:Et.
  { apply Type_eqb_eq in Et. congruence. }
  apply scan_app_left; [| exact HM].
  apply match_total. exact Hwf.
Qed.

(** X13, instance: [b+c] against [bbc] and [xybbc]. *)
Lemma unanchored_match_survives_prepending_witness :
  exists re,
    Compile "b+c" = Ok re
    /\ Match re (bytes "bbc") = Val true
    /\ Match re (bytes "xy" ++ bytes "bbc") = Val true.
Proof.
  eexists. split; [vm_compute; reflexivity |].
  split; [vm_compute; reflexivity |].
  apply (unanchored_match_survives_prepending (bytes "b+c") _ (bytes "xy") (bytes "bbc")
           eq_refl).
  - intros nd Hin Ht. vm_compute in Hin.
    repeat (destruct Hin as [<- | Hin]; [discriminate Ht |]). destruct Hin.
  - intros n0 ns E. vm_compute in E. injection E as <- _. discriminate.
  - vm_compute. reflexivity.
Defined.

(** *** The lazy quantifier routine *)

(** X14. The answer of [matchLQuant]: when the byte test and the rest of
    the pattern are defined and [0 <= min <= max < MaxInt], the routine
    answers [true] exactly when, for some count [k] between [min] and
    the smaller of [max] and the number of leading bytes that pass the
    byte test, the rest of the pattern matches after [k] bytes. *)
Theorem matchLQuant_answer (one : byte -> run bool) (rest : list byte -> run bool)
    (txt : list byte) (min max : Z) :
  (forall c, one c <> Panic) -> (forall t, rest t <> Panic) ->
  0 <= min <= max -> max < max_int ->
  matchLQuant one rest txt min max
  = Val (some_count rest txt (Z.to_nat min)
           (Nat.min (Z.to_nat max) (run_length (fun c => holds (one c)) txt))).
Proof.
  intros H1 Hr Hm Hx. apply matchLQuant_value; assumption.
Qed.

(** X14, instance: the atom [a] with bounds [1..5] on [aaab], followed by [b]. *)
Lemma matchLQuant_answer_witness :
  matchLQuant (matchOne [] sample_atom) (match_ [] sample_b) (bytes "aaab") 1 5
  = Val (some_count (match_ [] sample_b) (bytes "aaab") (Z.to_nat 1)
           (Nat.min (Z.to_nat 5)
              (run_length (fun c => holds (matchOne [] sample_atom c)) (bytes "aaab")))).
Proof.
  apply (matchLQuant_answer (matchOne [] sample_atom) (match_ [] sample_b)
           (bytes "aaab") 1 5).
  - intros c. cbn. discriminate.
  - apply match_total. unfold sample_b.
    apply wf_single; [discriminate | reflexivity | intros c; cbn; discriminate |].
    apply wf_sentinel. reflexivity.
  - lia.
  - unfold max_int. lia.
Defined.

(** *** Outcomes of [compile] *)

(** X15. A pattern whose first byte is a quantifier ([*], [+], [?] or
    the opening brace) is rejected with a "Non-quantifiable" error,
    whatever follows. *)
Theorem leading_quantifier_is_rejected (c : byte) (rest : list byte) :
  c = chr "*" \/ c = chr "+" \/ c = chr "?" \/ c = chr "{" ->
  exists e, compile (c :: rest) = Err e /\ kind e = NonQuantifiable.
Proof.
  intros Hc. unfold compile. cbn [length Nat.eqb].
  change MaxNodes with (S 63) at 1. rewrite loop_unfold.
  change (c_i init_state) with 0%nat.
  change ((0 <? S (length rest))%nat) with true.
  change ((0 + 1 <? MaxNodes)%nat) with true. cbn [andb].
  unfold step, get. cbn [init_state c_i nth_error bind].
  destruct Hc as [-> | [-> | [-> | ->]]].
  - exists ENonQuantStar. split; reflexivity.
  - exists ENonQuantPlus. split; reflexivity.
  - exists ENonQuantQMark. split; reflexivity.
  - exists ENonQuantBrace. split; reflexivity.
Qed.

(** X15, instance: the pattern [*abc]. *)
Lemma leading_quantifier_is_rejected_witness :
  (chr "*" = chr "*" \/ chr "*" = chr "+" \/ chr "*" = chr "?" \/ chr "*" = chr "{")
  /\ exists e, compile (chr "*" :: bytes "abc") = Err e /\ kind e = NonQuantifiable.
Proof.
  split; [left; reflexivity |].
  apply (leading_quantifier_is_rejected (chr "*") (bytes "abc")). left. reflexivity.
Defined.

(** X16. [compile] terminates on every pattern: its loops (over the
    pattern, over a class body, over the digits of a quantifier) all
    run out of input, so the outcome is a compiled pattern, an error or
    a run-time panic. *)
Theorem compile_terminates (expr : list byte) :
  (exists re, compile expr = Ok re)
  \/ (exists e, compile expr = Err e)
  \/ compile expr = GoPanic.
Proof.
  pose proof (compile_has_fuel expr) as H.
  destruct (compile expr) as [re | e | |]; eauto. congruence.
Qed.

(** *** Names of the node types *)

(** X17. [Type.String] gives every node type its own name: two types
    with the same name are the same type. *)
Theorem Type_String_injective (a b : Type_) :
  Type_String a = Type_String b -> a = b.
Proof.
  destruct a, b; intros H; try reflexivity; discriminate H.
Qed.

(** X17, instance: the name of [LQuant]. *)
Lemma Type_String_injective_witness :
  Type_String TLQuant = Type_String TLQuant /\ TLQuant = TLQuant.
Proof.
  split; [reflexivity |]. apply (Type_String_injective TLQuant TLQuant). reflexivity.
Defined.

(* ================================================================== *)
(** ** Further properties: the class buffer *)

(** *** The class buffer and the length of the pattern *)

(** Each payload byte stored by the class loop uses up a pattern byte. *)
Lemma classElem_progress expr i idx buf i1 idx1 buf1 cont :
  classElem expr i idx buf = Ok (i1, idx1, buf1, cont) ->
  (idx1 + i <= idx + S i1)%nat /\ (i1 < length expr)%nat.
Proof.
  unfold classElem. intros H. ok_all;
    repeat match goal with
    | E : get _ _ = Ok _ |- _ => apply get_Ok in E
    end;
    (split; [lia |]); apply nth_error_Some; congruence.
Qed.

Lemma classRangeC_progress expr i idx buf i2 idx2 buf2 :
  classRangeC expr i idx buf = Ok (i2, idx2, buf2) ->
  (idx2 + i <= idx + i2)%nat.
Proof.
  intros H. apply classRangeC_Ok in H.
  destruct H as [(-> & -> & _) | (-> & _ & -> & _)]; lia.
Qed.

Lemma classElem_overflow expr i idx buf e :
  classElem expr i idx buf = Err e -> kind e = BufferOverflow ->
  (MaxBufLen - 2 <= idx)%nat.
Proof.
  unfold classElem. intros H Hk. res_inv H;
    try (inversion H; subst; clear H); try discriminate Hk;
    match goal with
    | E : (_ <? idx)%nat = true |- _ => apply Nat.ltb_lt in E; unfold MaxBufLen in *; lia
    end.
Qed.

Lemma classRangeC_overflow expr i idx buf e :
  classRangeC expr i idx buf = Err e -> kind e = BufferOverflow ->
  (MaxBufLen - 2 < idx)%nat /\ (i + 2 < length expr)%nat.
Proof.
  unfold classRangeC. intros H Hk. res_inv H;
    try (inversion H; subst; clear H); try discriminate Hk.
  all: repeat match goal with
       | E : (_ <? _)%nat = true |- _ => apply Nat.ltb_lt in E
       | E : (_ <=? _)%nat = false |- _ => apply Nat.leb_gt in E
       end; split; lia.
Qed.

Lemma classCopy_overflow expr fuel :
  forall i idx buf e,
    classCopy expr fuel i idx buf = Err e -> kind e = BufferOverflow ->
    (idx < i)%nat -> (MaxBufLen <= length expr)%nat.
Proof.
  induction fuel as [|fuel IH]; intros i idx buf e H Hk Hi; cbn [classCopy] in H.
  - destruct ((i <? length expr)%nat && negb (peek expr i (chr "]"))); discriminate H.
  - destruct ((i <? length expr)%nat && negb (peek expr i (chr "]"))) eqn:Ec;
      [| discriminate H].
    apply andb_true_iff in Ec. destruct Ec as [Ec _]. apply Nat.ltb_lt in Ec.
    destruct (classElem expr i idx buf) as [[[[i1 idx1] buf1] cont] | e1 | |] eqn:EE;
      cbn [bind] in H; try discriminate H.
    + apply classElem_progress in EE. destruct EE as [Hp Hn]. destruct cont.
      * apply (IH _ _ _ _ H Hk). lia.
      * destruct (classRangeC expr i1 idx1 buf1) as [[[i2 idx2] buf2] | e2 | |] eqn:ER;
          cbn [bind] in H; try discriminate H.
        -- apply classRangeC_progress in ER. apply (IH _ _ _ _ H Hk). lia.
        -- inversion H; subst e2; clear H.
           apply (classRangeC_overflow _ _ _ _ _ ER) in Hk. unfold MaxBufLen in *. lia.
    + inversion H; subst e1; clear H.
      apply (classElem_overflow _ _ _ _ _ EE) in Hk. unfold MaxBufLen in *. lia.
Qed.

Lemma classCopy_progress expr fuel :
  forall i idx buf i' idx' buf',
    classCopy expr fuel i idx buf = Ok (i', idx', buf') ->
    (idx < i)%nat -> (idx' < i')%nat.
Proof.
  induction fuel as [|fuel IH]; intros i idx buf i' idx' buf' H Hi; cbn [classCopy] in H.
  - destruct ((i <? length expr)%nat && negb (peek expr i (chr "]")));
      [discriminate H | inversion H; subst; exact Hi].
  - destruct ((i <? length expr)%nat && negb (peek expr i (chr "]")));
      [| inversion H; subst; exact Hi].
    destruct (classElem expr i idx buf) as [[[[i1 idx1] buf1] cont] | | |] eqn:EE;
      cbn [bind] in H; try discriminate H.
    apply classElem_progress in EE. destruct EE as [Hp Hn]. destruct cont.
    + apply (IH _ _ _ _ _ _ H). lia.
    + destruct (classRangeC expr i1 idx1 buf1) as [[[i2 idx2] buf2] | | |] eqn:ER;
        cbn [bind] in H; try discriminate H.
      apply classRangeC_progress in ER. apply (IH _ _ _ _ _ _ H). lia.
Qed.

Lemma compileClass_overflow expr j st e :
  compileClass expr j st = Err e -> kind e = BufferOverflow ->
  (c_idx st <= c_i st)%nat -> (MaxBufLen <= length expr)%nat.
Proof.
  unfold compileClass. intros H Hk Hi. res_inv H;
    try (inversion H; subst; clear H); try discriminate Hk.
  all: match goal with
       | E : classCopy _ _ _ _ _ = Err _ |- _ =>
           apply (classCopy_overflow _ _ _ _ _ _ E Hk)
       end.
  all: match goal with
       | E : (if peek _ _ _ then _ else _) = Ok _ |- _ =>
           destruct (peek expr (S (c_i st)) (chr "^"));
           destruct (upd (c_nodes st) j _); cbn [bind] in E; try discriminate E;
           inversion E; subst; lia
       end.
Qed.

Lemma compileClass_progress expr j st st' :
  compileClass expr j st = Ok st' ->
  (c_idx st <= c_i st)%nat -> (c_idx st' <= c_i st')%nat.
Proof.
  unfold compileClass. intros H Hi. ok_all; cbn [c_idx c_i].
  all: match goal with
       | E : classCopy _ _ _ _ _ = Ok _ |- _ => apply classCopy_progress in E; lia
       end.
Qed.

Lemma quantMin_progress expr fuel :
  forall i v i' v', quantMin expr fuel i v = Ok (i', v') -> (i < i')%nat.
Proof.
  induction fuel as [|fuel IH]; intros i v i' v' H; cbn [quantMin] in H; ok_all;
    try lia.
  apply IH in H. lia.
Qed.

Lemma quantMax_progress expr fuel :
  forall i v i' v', quantMax expr fuel i v = Ok (i', v') -> (i <= i')%nat.
Proof.
  induction fuel as [|fuel IH]; intros i v i' v' H; cbn [quantMax] in H; ok_all;
    try lia.
  apply IH in H. lia.
Qed.

Lemma compileQuant_progress expr j st st' :
  compileQuant expr j st = Ok st' -> (c_i st <= c_i st')%nat.
Proof.
  unfold compileQuant. intros H. ok_all; cbn [c_i];
    repeat match goal with
    | E : quantMin _ _ _ _ = Ok _ |- _ => apply quantMin_progress in E
    | E : quantMax _ _ _ _ = Ok _ |- _ => apply quantMax_progress in E
    end; lia.
Qed.

Lemma step_progress expr j st st' :
  step expr j st = Ok st' ->
  (c_idx st <= c_i st)%nat -> (c_idx st' <= c_i st')%nat.
Proof.
  intros H Hi.
  assert (HQ : compileQuant expr j st = Ok st' \/ compileClass expr j st = Ok st'
               \/ (c_idx st' = c_idx st /\ c_i st <= c_i st')%nat).
  { unfold step, compileMark, compileEscape in H. ok_all; auto; right; right;
      cbn [c_idx c_i]; lia. }
  destruct HQ as [HQ | [HC | [H1 H2]]].
  - pose proof (compileQuant_progress _ _ _ _ HQ).
    apply compileQuant_Ok in HQ. destruct HQ as [-> _]. lia.
  - apply (compileClass_progress _ _ _ _ HC Hi).
  - lia.
Qed.

Lemma step_overflow expr j st e :
  step expr j st = Err e -> kind e = BufferOverflow ->
  (c_idx st <= c_i st)%nat -> (MaxBufLen <= length expr)%nat.
Proof.
  intros H Hk Hi.
  assert (HQ : compileQuant expr j st = Err e \/ compileClass expr j st = Err e).
  { unfold step, compileMark, compileEscape in H. res_inv H;
      try (inversion H; subst; clear H); try discriminate Hk; auto. }
  destruct HQ as [HQ | HC].
  - apply compileQuant_Err in HQ. destruct HQ as [X | X]; congruence.
  - apply (compileClass_overflow _ _ _ _ HC Hk Hi).
Qed.

Lemma loop_overflow expr fuel :
  forall j st e,
    loop expr fuel j st = Err e -> kind e = BufferOverflow ->
    (c_idx st <= c_i st)%nat -> (MaxBufLen <= length expr)%nat.
Proof.
  induction fuel as [|fuel IH]; intros j st e H Hk Hi; cbn [loop] in H.
  - destruct ((c_i st <? length expr)%nat && (j + 1 <? MaxNodes)%nat); discriminate H.
  - destruct ((c_i st <? length expr)%nat && (j + 1 <? MaxNodes)%nat); [| discriminate H].
    destruct (step expr j st) as [st1 | e1 | |] eqn:ES; cbn [bind] in H;
      try discriminate H.
    + apply (IH _ _ _ H Hk). cbn [c_idx c_i].
      pose proof (step_progress _ _ _ _ ES Hi). lia.
    + inversion H; subst e1. apply (step_overflow _ _ _ _ ES Hk Hi).
Qed.

(** X18. A pattern of fewer than [MaxBufLen] bytes never gets a "Buffer
    overflow" error: every byte stored in the class buffer uses up at
    least one byte of the pattern. *)
Theorem short_pattern_never_overflows (expr : list byte) (e : error) :
  (length expr < MaxBufLen)%nat -> compile expr = Err e -> kind e <> BufferOverflow.
Proof.
  intros Hlen H Hk. unfold compile in H.
  destruct (length expr =? 0)%nat; [inversion H; subst; discriminate Hk |].
  destruct (loop expr MaxNodes 0 init_state) as [[j st] | e1 | |] eqn:EL;
    cbn [bind] in H; try discriminate H.
  - destruct (upd (c_nodes st) j (set_typ TNone)) as [ns | e2 | |] eqn:EU;
      cbn [bind] in H; try discriminate H.
    unfold upd, get, store in EU.
    destruct (nth_error (c_nodes st) j); cbn [bind] in EU; [| discriminate EU].
    destruct (j <? length (c_nodes st))%nat; discriminate EU.
  - inversion H; subst e1.
    pose proof (loop_overflow _ _ _ _ _ EL Hk) as Hn. cbn [init_state c_idx c_i] in Hn.
    specialize (Hn (Nat.le_refl 0)). lia.
Qed.

(** X18, instance: the pattern [[z-a]], rejected for its range. *)
Lemma short_pattern_never_overflows_witness :
  (length (bytes "[z-a]") < MaxBufLen)%nat
  /\ compile (bytes "[z-a]") = Err EBadRange
  /\ kind EBadRange <> BufferOverflow.
Proof.
  split; [unfold MaxBufLen; cbn; lia |]. split; [reflexivity |].
  apply (short_pattern_never_overflows (bytes "[z-a]") EBadRange).
  - unfold MaxBufLen. cbn. lia.
  - reflexivity.
Defined.

(* ================================================================== *)
(** ** Further properties: brace quantifiers *)

(** *** The numbers of a brace quantifier *)

Lemma decimal_ge (ds : list byte) :
  Forall (fun d => matchDigit d = true) ds ->
  forall v, 0 <= v -> v <= decimal v ds.
Proof.
  induction 1 as [|d ds Hd _ IH]; intros v Hv; [cbn; lia |].
  unfold decimal in *. cbn [fold_left].
  unfold matchDigit in Hd. apply andb_true_iff in Hd. destruct Hd as [H0 H9].
  apply Z.leb_le in H0, H9.
  specialize (IH (10 * v + (d - chr "0")) ltac:(lia)). lia.
Qed.

Lemma digit_step (v d : Z) :
  matchDigit d = true -> 0 <= v -> 10 * v + (d - chr "0") <= max_int ->
  wrap (wrap (10 * v) + (d - chr "0")) = 10 * v + (d - chr "0")
  /\ (d <? chr "0") || (chr "9" <? d) = false
  /\ (d =? chr ",") || (d =? chr "}") = false
  /\ (d =? chr "}") = false
  /\ 0 <= 10 * v + (d - chr "0").
Proof.
  intros Hd Hv Hm. unfold matchDigit in Hd. apply andb_true_iff in Hd.
  destruct Hd as [H0 H9]. apply Z.leb_le in H0, H9.
  change (chr "0") with 48 in *. change (chr "9") with 57 in *.
  change (chr ",") with 44. change (chr "}") with 125.
  unfold max_int in Hm.
  split; [| split; [| split; [| split]]].
  - rewrite (wrap_small (10 * v)) by lia. apply wrap_small. lia.
  - apply orb_false_iff. split; apply Z.ltb_ge; lia.
  - apply orb_false_iff. split; apply Z.eqb_neq; lia.
  - apply Z.eqb_neq. lia.
  - lia.
Qed.

(** The digit loop of the minimum reads a run of digits as a decimal
    number. *)
Lemma quantMin_digits expr (sep : byte) (ds : list byte) :
  Forall (fun d => matchDigit d = true) ds -> ds <> [] ->
  sep = chr "," \/ sep = chr "}" ->
  forall fuel i v,
    (forall k d, nth_error ds k = Some d -> nth_error expr (i + k) = Some d) ->
    nth_error expr (i + length ds) = Some sep ->
    0 <= v -> decimal v ds <= max_int -> (length ds <= S fuel)%nat ->
    quantMin expr fuel i v = Ok ((i + length ds)%nat, decimal v ds).
Proof.
  intros Hds. induction Hds as [|d ds Hd Hds IH]; intros Hne Hsep fuel i v Hk He Hv Hm Hf;
    [congruence |].
  assert (Hi : nth_error expr i = Some d).
  { specialize (Hk 0%nat d eq_refl). rewrite Nat.add_0_r in Hk. exact Hk. }
  assert (Hlt : (i < length expr)%nat) by (apply nth_error_Some; rewrite Hi; discriminate).
  assert (Hstep : 10 * v + (d - chr "0") <= max_int).
  { unfold decimal in Hm. cbn [fold_left] in Hm.
    pose proof (decimal_ge ds Hds (10 * v + (d - chr "0"))) as Hg.
    unfold decimal in Hg.
    unfold matchDigit in Hd. apply andb_true_iff in Hd. destruct Hd as [H0 H9].
    apply Z.leb_le in H0, H9. specialize (Hg ltac:(lia)). lia. }
  destruct (digit_step v d Hd Hv Hstep) as (Hw & Hdig & _ & _ & Hnn).
  assert (Hhead : forall f,
            quantMin expr f i v
            = c' <-- get expr (S i) ;;
              if (c' =? chr ",") || (c' =? chr "}")
              then Ok (S i, 10 * v + (d - chr "0"))
              else match f with
                   | O => NoFuel
                   | S f' => quantMin expr f' (S i) (10 * v + (d - chr "0"))
                   end).
  { intros f. destruct f; cbn [quantMin]; unfold get at 1;
      (replace ((length expr <=? i)%nat) with false by (symmetry; apply Nat.leb_gt; lia));
      rewrite Hi; cbn [bind]; rewrite Hdig, Hw; reflexivity. }
  rewrite Hhead. unfold decimal. cbn [fold_left length].
  destruct ds as [|d2 ds'].
  - cbn [length] in He. rewrite Nat.add_1_r in He. unfold get. rewrite He. cbn [bind].
    replace ((sep =? chr ",") || (sep =? chr "}")) with true
      by (destruct Hsep as [-> | ->]; reflexivity).
    rewrite Nat.add_1_r. reflexivity.
  - assert (Hi2 : nth_error expr (S i) = Some d2).
    { specialize (Hk 1%nat d2 eq_refl). rewrite Nat.add_1_r in Hk. exact Hk. }
    unfold get. rewrite Hi2. cbn [bind].
    inversion Hds as [|? ? Hd2 _]; subst.
    assert (Hns : (d2 =? chr ",") || (d2 =? chr "}") = false).
    { unfold matchDigit in Hd2. apply andb_true_iff in Hd2. destruct Hd2 as [H0 H9].
      apply Z.leb_le in H0, H9.
      change (chr "0") with 48 in *. change (chr "9") with 57 in *.
      change (chr ",") with 44. change (chr "}") with 125.
      apply orb_false_iff. split; apply Z.eqb_neq; lia. }
    rewrite Hns. destruct fuel as [|fuel]; [cbn [length] in Hf; lia |].
    rewrite (IH ltac:(discriminate) Hsep fuel (S i) (10 * v + (d - chr "0"))).
    + f_equal. f_equal. cbn [length]. lia.
    + intros k x Hx. specialize (Hk (S k) x Hx).
      replace (S i + k)%nat with (i + S k)%nat by lia. exact Hk.
    + replace (S i + length (d2 :: ds'))%nat with (i + length (d :: d2 :: ds'))%nat
        by (cbn [length]; lia). exact He.
    + exact Hnn.
    + exact Hm.
    + cbn [length] in *. lia.
Qed.

(** The digit loop of the maximum does the same, up to the closing
    brace. *)
Lemma quantMax_digits expr (ds : list byte) :
  Forall (fun d => matchDigit d = true) ds ->
  forall fuel i v,
    (forall k d, nth_error ds k = Some d -> nth_error expr (i + k) = Some d) ->
    nth_error expr (i + length ds) = Some (chr "}") ->
    0 <= v -> decimal v ds <= max_int -> (length ds <= fuel)%nat ->
    quantMax expr fuel i v = Ok ((i + length ds)%nat, decimal v ds).
Proof.
  intros Hds. induction Hds as [|d ds Hd Hds IH]; intros fuel i v Hk He Hv Hm Hf.
  - cbn [length] in He. rewrite Nat.add_0_r in He.
    destruct fuel; cbn [quantMax]; unfold get; rewrite He; cbn [bind];
      change (chr "}" =? chr "}") with true; cbn [negb]; rewrite Nat.add_0_r; reflexivity.
  - assert (Hi : nth_error expr i = Some d).
    { specialize (Hk 0%nat d eq_refl). rewrite Nat.add_0_r in Hk. exact Hk. }
    assert (Hlt : (i < length expr)%nat)
      by (apply nth_error_Some; rewrite Hi; discriminate).
    assert (Hstep : 10 * v + (d - chr "0") <= max_int).
    { unfold decimal in Hm. cbn [fold_left] in Hm.
      pose proof (decimal_ge ds Hds (10 * v + (d - chr "0"))) as Hg.
      unfold decimal in Hg.
      unfold matchDigit in Hd. apply andb_true_iff in Hd. destruct Hd as [H0 H9].
      apply Z.leb_le in H0, H9. specialize (Hg ltac:(lia)). lia. }
    destruct (digit_step v d Hd Hv Hstep) as (Hw & Hdig & _ & Hnb & Hnn).
    destruct fuel as [|fuel]; [cbn [length] in Hf; lia |].
    cbn [quantMax]. unfold get at 1. rewrite Hi. cbn [bind]. rewrite Hnb. cbn [negb].
    replace ((length expr <=? i)%nat) with false by (symmetry; apply Nat.leb_gt; lia).
    cbn [orb]. rewrite Hdig, Hw.
    rewrite (IH fuel (S i) (10 * v + (d - chr "0"))).
    + f_equal. f_equal. cbn [length]. lia.
    + intros k x Hx. specialize (Hk (S k) x Hx).
      replace (S i + k)%nat with (i + S k)%nat by lia. exact Hk.
    + replace (S i + length ds)%nat with (i + length (d :: ds))%nat
        by (cbn [length]; lia). exact He.
    + exact Hnn.
    + exact Hm.
    + cbn [length] in Hf. lia.
Qed.

(** A pattern that is an ordinary byte and one brace quantifier. *)
Lemma compile_atom_quant (c : byte) (body : list byte) (st2 : cstate) (q : node) :
  plain_byte c = true ->
  compileQuant (c :: chr "{" :: body) 1 (after_atom c) = Ok st2 ->
  c_i st2 = S (length body) ->
  c_nodes st2 = lit_node c :: q :: repeat zero_node 62 ->
  compile (c :: chr "{" :: body)
  = Ok (mkRegexp (lit_node c :: q :: repeat zero_node 62) (c_buffer st2)).
Proof.
  intros Hc HQ Hi Hns. unfold compile. cbn [length Nat.eqb].
  change MaxNodes with (S (S 62)) at 1. rewrite loop_unfold. cbn [length].
  change (c_i init_state) with 0%nat.
  change ((0 <? S (S (length body)))%nat) with true.
  change ((0 + 1 <? MaxNodes)%nat) with true. cbn [andb].
  rewrite (step_plain _ _ _ c zero_node); [| reflexivity | exact Hc | reflexivity].
  cbn [bind c_i c_quable c_idx c_nodes c_buffer init_state].
  change (set_nth (repeat zero_node MaxNodes) 0 (set_ch c (set_typ TChar zero_node)))
    with (lit_node c :: repeat zero_node 63).
  rewrite loop_unfold. cbn [c_i length].
  change ((1 <? S (S (length body)))%nat) with true.
  change ((1 + 1 <? MaxNodes)%nat) with true. cbn [andb].
  assert (Hstep : step (c :: chr "{" :: body) 1 (after_atom c)
                  = compileQuant (c :: chr "{" :: body) 1 (after_atom c)).
  { unfold step, get. cbn [after_atom c_i nth_error bind]. reflexivity. }
  unfold after_atom in Hstep. rewrite Hstep. fold (after_atom c). rewrite HQ.
  cbn [bind]. rewrite loop_stop.
  - cbn [bind c_nodes c_buffer]. rewrite Hns.
    pose proof (sentinel_write [lit_node c; q] 62 ltac:(lia)) as HS.
    cbn [app length] in HS. rewrite HS. reflexivity.
  - cbn [c_i]. rewrite Hi. apply andb_false_iff. left. apply Nat.ltb_ge.
    cbn [length]. lia.
Qed.

Lemma nth_error_body (c : byte) (ds suffix : list byte) :
  (forall k d, nth_error ds k = Some d ->
     nth_error (c :: chr "{" :: ds ++ suffix) (2 + k) = Some d)
  /\ (forall k, nth_error (c :: chr "{" :: ds ++ suffix) (2 + length ds + k)
                = nth_error suffix k).
Proof.
  split.
  - intros k d H. cbn [Nat.add nth_error]. rewrite nth_error_app1; [exact H |].
    apply nth_error_Some. rewrite H. discriminate.
  - intros k. cbn [Nat.add nth_error]. rewrite nth_error_app2 by lia.
    f_equal. lia.
Qed.

Lemma compileQuant_exact (c : byte) (ds : list byte) :
  Forall (fun d => matchDigit d = true) ds -> ds <> [] ->
  decimal 0 ds <= MaxQuant ->
  compileQuant (c :: chr "{" :: ds ++ [chr "}"]) 1 (after_atom c)
  = Ok (mkState (2 + length ds) false 0
          (lit_node c :: mkNode TQuant 0 None (decimal 0 ds, decimal 0 ds)
             :: repeat zero_node 62)
          (repeat 0 MaxBufLen)).
Proof.
  intros Hds Hne Hm.
  destruct (nth_error_body c ds [chr "}"]) as [Hk Hs].
  unfold compileQuant. cbn [after_atom c_quable negb c_i c_nodes c_idx c_buffer].
  rewrite (quantMin_digits _ (chr "}") ds Hds Hne (or_intror eq_refl));
    [| exact Hk | rewrite <- (Nat.add_0_r (2 + length ds)), Hs; reflexivity | lia
     | unfold MaxQuant, max_int in *; lia
     | cbn [length]; rewrite length_app; cbn [length]; lia].
  cbn [bind]. cbv zeta.
  replace (MaxQuant <? decimal 0 ds) with false by (symmetry; apply Z.ltb_ge; exact Hm).
  rewrite (upd_eval _ _ zero_node) by reflexivity. cbn [bind].
  unfold get at 1. rewrite <- (Nat.add_0_r (2 + length ds)) at 1. rewrite Hs.
  cbn [nth_error bind]. change (chr "}" =? chr ",") with false. cbv iota.
  cbn [bind].
  replace (peek (c :: chr "{" :: ds ++ [chr "}"]) (S (2 + length ds)) (chr "?")) with false.
  2:{ unfold peek. rewrite <- (Nat.add_1_r (2 + length ds)), Hs. reflexivity. }
  cbn [set_nth]. rewrite (upd_eval _ _ (set_mn0 (decimal 0 ds) zero_node)) by reflexivity.
  cbn [bind set_nth]. rewrite (upd_eval _ _ (set_typ TQuant (set_mn0 (decimal 0 ds) zero_node)))
    by reflexivity.
  cbn [bind set_nth]. reflexivity.
Qed.

Lemma compileQuant_open (c : byte) (ds : list byte) :
  Forall (fun d => matchDigit d = true) ds -> ds <> [] ->
  decimal 0 ds <= MaxQuant ->
  compileQuant (c :: chr "{" :: ds ++ [chr ","; chr "}"]) 1 (after_atom c)
  = Ok (mkState (3 + length ds) false 0
          (lit_node c :: mkNode TQuant 0 None (decimal 0 ds, MaxQuant)
             :: repeat zero_node 62)
          (repeat 0 MaxBufLen)).
Proof.
  intros Hds Hne Hm.
  destruct (nth_error_body c ds [chr ","; chr "}"]) as [Hk Hs].
  unfold compileQuant. cbn [after_atom c_quable negb c_i c_nodes c_idx c_buffer].
  rewrite (quantMin_digits _ (chr ",") ds Hds Hne (or_introl eq_refl));
    [| exact Hk | rewrite <- (Nat.add_0_r (2 + length ds)), Hs; reflexivity | lia
     | unfold MaxQuant, max_int in *; lia
     | cbn [length]; rewrite length_app; cbn [length]; lia].
  cbn [bind]. cbv zeta.
  replace (MaxQuant <? decimal 0 ds) with false by (symmetry; apply Z.ltb_ge; exact Hm).
  rewrite (upd_eval _ _ zero_node) by reflexivity. cbn [bind].
  unfold get at 1. rewrite <- (Nat.add_0_r (2 + length ds)) at 1. rewrite Hs.
  cbn [nth_error bind]. change (chr "," =? chr ",") with true. cbv iota.
  replace ((length (c :: chr "{" :: ds ++ [chr ","; chr "}"]) <=? S (2 + length ds))%nat)
    with false
    by (symmetry; apply Nat.leb_gt; cbn [length]; rewrite length_app; cbn [length]; lia).
  unfold get at 1. rewrite <- (Nat.add_1_r (2 + length ds)) at 1. rewrite Hs.
  cbn [nth_error bind]. change (chr "}" =? chr "}") with true. cbv iota. cbn [bind].
  replace (peek (c :: chr "{" :: ds ++ [chr ","; chr "}"]) (S (S (2 + length ds))) (chr "?"))
    with false.
  2:{ unfold peek. replace (S (S (2 + length ds))) with (2 + length ds + 2)%nat by lia.
      rewrite Hs. reflexivity. }
  cbn [set_nth]. rewrite (upd_eval _ _ (set_mn0 (decimal 0 ds) zero_node)) by reflexivity.
  cbn [bind set_nth]. rewrite (upd_eval _ _ (set_typ TQuant (set_mn0 (decimal 0 ds) zero_node)))
    by reflexivity.
  cbn [bind set_nth]. reflexivity.
Qed.

Lemma compileQuant_range (c : byte) (ds1 ds2 : list byte) :
  Forall (fun d => matchDigit d = true) ds1 -> ds1 <> [] ->
  Forall (fun d => matchDigit d = true) ds2 -> ds2 <> [] ->
  decimal 0 ds1 <= decimal 0 ds2 <= MaxQuant ->
  compileQuant (c :: chr "{" :: ds1 ++ chr "," :: ds2 ++ [chr "}"]) 1 (after_atom c)
  = Ok (mkState (3 + length ds1 + length ds2) false 0
          (lit_node c :: mkNode TQuant 0 None (decimal 0 ds1, decimal 0 ds2)
             :: repeat zero_node 62)
          (repeat 0 MaxBufLen)).
Proof.
  intros Hds1 Hne1 Hds2 Hne2 Hm.
  set (expr := c :: chr "{" :: ds1 ++ chr "," :: ds2 ++ [chr "}"]).
  destruct (nth_error_body c ds1 (chr "," :: ds2 ++ [chr "}"])) as [Hk Hs].
  fold expr in Hk, Hs.
  assert (Hn : length expr = (4 + length ds1 + length ds2)%nat).
  { unfold expr. cbn [length]. rewrite length_app. cbn [length]. rewrite length_app.
    cbn [length]. lia. }
  assert (Hk2 : forall k d, nth_error ds2 k = Some d ->
                  nth_error expr (S (2 + length ds1) + k) = Some d).
  { intros k d H. replace (S (2 + length ds1) + k)%nat with (2 + length ds1 + S k)%nat by lia.
    rewrite Hs. cbn [nth_error]. rewrite nth_error_app1; [exact H |].
    apply nth_error_Some. rewrite H. discriminate. }
  assert (He2 : nth_error expr (S (2 + length ds1) + length ds2) = Some (chr "}")).
  { replace (S (2 + length ds1) + length ds2)%nat
      with (2 + length ds1 + S (length ds2))%nat by lia.
    rewrite Hs. cbn [nth_error]. rewrite nth_error_app2, Nat.sub_diag by lia. reflexivity. }
  unfold compileQuant. cbn [after_atom c_quable negb c_i c_nodes c_idx c_buffer].
  rewrite (quantMin_digits _ (chr ",") ds1 Hds1 Hne1 (or_introl eq_refl));
    [| exact Hk | rewrite <- (Nat.add_0_r (2 + length ds1)), Hs; reflexivity | lia
     | unfold MaxQuant, max_int in *; lia
     | rewrite Hn; lia].
  cbn [bind]. cbv zeta.
  replace (MaxQuant <? decimal 0 ds1) with false by (symmetry; apply Z.ltb_ge; lia).
  rewrite (upd_eval _ _ zero_node) by reflexivity. cbn [bind].
  unfold get at 1. rewrite <- (Nat.add_0_r (2 + length ds1)) at 1. rewrite Hs.
  cbn [nth_error bind]. change (chr "," =? chr ",") with true. cbv iota.
  replace ((length expr <=? S (2 + length ds1))%nat) with false
    by (symmetry; apply Nat.leb_gt; lia).
  destruct ds2 as [|d2 ds2'] eqn:E2; [congruence |]. rewrite <- E2 in *.
  assert (Hd2 : matchDigit d2 = true) by (rewrite E2 in Hds2; inversion Hds2; assumption).
  assert (Hh : nth_error expr (S (2 + length ds1)) = Some d2).
  { specialize (Hk2 0%nat d2). rewrite Nat.add_0_r in Hk2. apply Hk2.
    rewrite E2. reflexivity. }
  unfold get at 1. rewrite Hh. cbn [bind].
  destruct (digit_step 0 d2 Hd2 ltac:(lia)) as (_ & _ & _ & Hnb & _).
  { unfold matchDigit in Hd2. apply andb_true_iff in Hd2. destruct Hd2 as [H0 H9].
    apply Z.leb_le in H0, H9. change (chr "0") with 48 in *. change (chr "9") with 57 in *.
    unfold max_int. lia. }
  rewrite Hnb.
  rewrite (quantMax_digits expr ds2 Hds2 (length expr) (S (2 + length ds1)) 0 Hk2 He2);
    [| lia | unfold MaxQuant, max_int in *; lia | rewrite Hn; lia].
  cbn [bind]. cbv zeta. cbn [set_nth].
  change (set_nth (repeat zero_node 63) 0 (set_mn0 (decimal 0 ds1) zero_node))
    with (set_mn0 (decimal 0 ds1) zero_node :: repeat zero_node 62).
  unfold get at 1. cbn [nth_error bind set_mn0 mn fst zero_node].
  replace ((MaxQuant <? decimal 0 ds2) || (decimal 0 ds2 <? decimal 0 ds1)) with false.
  2:{ symmetry. apply orb_false_iff. split; apply Z.ltb_ge; lia. }
  cbn [bind].
  replace (peek expr (S (S (2 + length ds1) + length ds2)) (chr "?")) with false.
  2:{ unfold peek.
      replace (nth_error expr (S (S (2 + length ds1) + length ds2))) with (@None byte);
        [reflexivity |].
      symmetry. apply nth_error_None. lia. }
  cbv iota.
  rewrite (upd_eval _ _ (set_mn0 (decimal 0 ds1) zero_node)) by reflexivity.
  cbn [bind set_nth].
  rewrite (upd_eval _ _ (set_typ TQuant (set_mn0 (decimal 0 ds1) zero_node)))
    by reflexivity.
  cbn [bind set_nth]. f_equal.
Qed.

(** X19. The number of a brace quantifier is read as a decimal number:
    for an ordinary byte [c] and a run of digits [ds] whose value [m] is
    at most [MaxQuant], the pattern [c{ds}] stores the bounds [(m, m)]
    and the pattern [c{ds,}] the bounds [(m, MaxQuant)]. *)
Theorem brace_count_is_decimal (c : byte) (ds : list byte) :
  plain_byte c = true ->
  Forall (fun d => matchDigit d = true) ds -> ds <> [] ->
  decimal 0 ds <= MaxQuant ->
  quant_at (compile (c :: chr "{" :: ds ++ [chr "}"])) 1
  = Some (TQuant, decimal 0 ds, decimal 0 ds)
  /\ quant_at (compile (c :: chr "{" :: ds ++ [chr ","; chr "}"])) 1
     = Some (TQuant, decimal 0 ds, MaxQuant).
Proof.
  intros Hc Hds Hne Hm. split.
  - rewrite (compile_atom_quant c (ds ++ [chr "}"]) _
               (mkNode TQuant 0 None (decimal 0 ds, decimal 0 ds)) Hc
               (compileQuant_exact c ds Hds Hne Hm)).
    + reflexivity.
    + cbn [c_i]. rewrite length_app. cbn [length]. lia.
    + reflexivity.
  - rewrite (compile_atom_quant c (ds ++ [chr ","; chr "}"]) _
               (mkNode TQuant 0 None (decimal 0 ds, MaxQuant)) Hc
               (compileQuant_open c ds Hds Hne Hm)).
    + reflexivity.
    + cbn [c_i]. rewrite length_app. cbn [length]. lia.
    + reflexivity.
Qed.

(** X19, instance: [a{0712}] and [a{0712,}]. *)
Lemma brace_count_is_decimal_witness :
  plain_byte (chr "a") = true
  /\ Forall (fun d => matchDigit d = true) (bytes "0712")
  /\ bytes "0712" <> []
  /\ decimal 0 (bytes "0712") <= MaxQuant
  /\ quant_at (compile (chr "a" :: chr "{" :: bytes "0712" ++ [chr "}"])) 1
     = Some (TQuant, decimal 0 (bytes "0712"), decimal 0 (bytes "0712"))
  /\ quant_at (compile (chr "a" :: chr "{" :: bytes "0712" ++ [chr ","; chr "}"])) 1
     = Some (TQuant, decimal 0 (bytes "0712"), MaxQuant).
Proof.
  split; [reflexivity |]. split; [repeat constructor |]. split; [discriminate |].
  split; [discriminate |].
  apply (brace_count_is_decimal (chr "a") (bytes "0712")).
  - reflexivity.
  - repeat constructor.
  - discriminate.
  - discriminate.
Defined.

(** X20. Both numbers of a brace quantifier are read as decimal numbers:
    for runs of digits with values [m <= n <= MaxQuant], the pattern
    [c{ds1,ds2}] stores the bounds [(m, n)]. *)
Theorem brace_range_is_decimal (c : byte) (ds1 ds2 : list byte) :
  plain_byte c = true ->
  Forall (fun d => matchDigit d = true) ds1 -> ds1 <> [] ->
  Forall (fun d => matchDigit d = true) ds2 -> ds2 <> [] ->
  decimal 0 ds1 <= decimal 0 ds2 <= MaxQuant ->
  quant_at (compile (c :: chr "{" :: ds1 ++ chr "," :: ds2 ++ [chr "}"])) 1
  = Some (TQuant, decimal 0 ds1, decimal 0 ds2).
Proof.
  intros Hc Hds1 Hne1 Hds2 Hne2 Hm.
  rewrite (compile_atom_quant c (ds1 ++ chr "," :: ds2 ++ [chr "}"]) _
             (mkNode TQuant 0 None (decimal 0 ds1, decimal 0 ds2)) Hc
             (compileQuant_range c ds1 ds2 Hds1 Hne1 Hds2 Hne2 Hm)).
  - reflexivity.
  - cbn [c_i]. rewrite length_app. cbn [length]. rewrite length_app. cbn [length]. lia.
  - reflexivity.
Qed.

(** X20, instance: [a{2,15}]. *)
Lemma brace_range_is_decimal_witness :
  plain_byte (chr "a") = true
  /\ Forall (fun d => matchDigit d = true) (bytes "2")
  /\ bytes "2" <> []
  /\ Forall (fun d => matchDigit d = true) (bytes "15")
  /\ bytes "15" <> []
  /\ decimal 0 (bytes "2") <= decimal 0 (bytes "15") <= MaxQuant
  /\ quant_at (compile (chr "a" :: chr "{" :: bytes "2" ++ chr "," :: bytes "15" ++ [chr "}"])) 1
     = Some (TQuant, decimal 0 (bytes "2"), decimal 0 (bytes "15")).
Proof.
  split; [reflexivity |]. split; [repeat constructor |]. split; [discriminate |].
  split; [repeat constructor |]. split; [discriminate |].
  split; [split; discriminate |].
  apply (brace_range_is_decimal (chr "a") (bytes "2") (bytes "15")).
  - reflexivity.
  - repeat constructor.
  - discriminate.
  - repeat constructor.
  - discriminate.
  - split; discriminate.
Defined.

(** *** A counted repetition of one byte *)

Lemma is_prefix_repeat (c : byte) (k : nat) :
  forall txt,
    is_prefix (repeat c k) txt = Nat.leb k (run_length (fun x => c =? x) txt).
Proof.
  induction k as [|k IH]; intros txt; [reflexivity |].
  destruct txt as [|x t]; [reflexivity |].
  cbn [repeat is_prefix run_length]. destruct (c =? x); [apply IH | reflexivity].
Qed.

Lemma run_length_ext (p q : byte -> bool) (txt : list byte) :
  (forall x, p x = q x) -> run_length p txt = run_length q txt.
Proof.
  intros H. induction txt as [|x t IH]; [reflexivity |].
  cbn [run_length]. rewrite H, IH. reflexivity.
Qed.

Lemma some_count_exact (rest : list byte -> run bool) (txt : list byte) (k r : nat) :
  (forall t, rest t = Val true) ->
  some_count rest txt k (Nat.min k r) = Nat.leb k r.
Proof.
  intros Hr. unfold some_count. destruct (Nat.leb_spec k r) as [H | H].
  - rewrite Nat.min_l by lia. replace (S k - k)%nat with 1%nat by lia.
    cbn [seq existsb]. rewrite Hr. reflexivity.
  - rewrite Nat.min_r by lia. replace (S r - k)%nat with 0%nat by lia. reflexivity.
Qed.

(** X21. A counted repetition of an ordinary byte searches for a run of
    that byte: for digits [ds] with value [1 <= m <= MaxQuant], the
    pattern [c{ds}] compiles, [Match] never panics, and it answers
    [true] exactly on the inputs that contain [m] adjacent bytes [c]. *)
Theorem counted_repetition_finds_a_run (c : byte) (ds b : list byte) :
  plain_byte c = true ->
  Forall (fun d => matchDigit d = true) ds -> ds <> [] ->
  1 <= decimal 0 ds <= MaxQuant ->
  exists re,
    compile (c :: chr "{" :: ds ++ [chr "}"]) = Ok re
    /\ Match re b <> Panic
    /\ (Match re b = Val true <-> occurs (repeat c (Z.to_nat (decimal 0 ds))) b).
Proof.
  intros Hc Hds Hne Hm.
  set (m := decimal 0 ds) in *.
  eexists. split.
  { apply (compile_atom_quant c (ds ++ [chr "}"]) _ (mkNode TQuant 0 None (m, m)) Hc
             (compileQuant_exact c ds Hds Hne (proj2 Hm))).
    - cbn [c_i]. rewrite length_app. cbn [length]. lia.
    - reflexivity. }
  cbn [c_buffer].
  assert (HM : Match (mkRegexp (lit_node c :: mkNode TQuant 0 None (m, m)
                                  :: repeat zero_node 62) (repeat 0 MaxBufLen)) b
               = Val (some_suffix (is_prefix (repeat c (Z.to_nat m))) b)).
  { apply Match_scanning; [reflexivity |]. intros t.
    change (repeat zero_node 62) with (zero_node :: repeat zero_node 61).
    rewrite match_unfold. cbn [lit_node typ Type_eqb andb mn fst snd]. cbv zeta.
    rewrite matchQuant_value.
    - rewrite some_count_exact by reflexivity. rewrite is_prefix_repeat.
      f_equal. f_equal. apply run_length_ext. intros x.
      unfold matchOne. cbn [lit_node typ ch holds]. destruct (c =? x); reflexivity.
    - intros x. unfold matchOne. cbn [typ]. discriminate.
    - intros x. discriminate.
    - lia.
    - unfold MaxQuant, max_int in *. lia. }
  rewrite HM. split; [discriminate |].
  rewrite <- occurs_spec.
  - split; [intros H; injection H as H; exact H | intros ->; reflexivity].
  - destruct (Z.to_nat m) eqn:E; [lia | discriminate].
Qed.

(** X21, instance: [a{3}] against [xaaay]. *)
Lemma counted_repetition_finds_a_run_witness :
  plain_byte (chr "a") = true
  /\ Forall (fun d => matchDigit d = true) (bytes "3")
  /\ bytes "3" <> []
  /\ 1 <= decimal 0 (bytes "3") <= MaxQuant
  /\ exists re,
       compile (chr "a" :: chr "{" :: bytes "3" ++ [chr "}"]) = Ok re
       /\ Match re (bytes "xaaay") <> Panic
       /\ (Match re (bytes "xaaay") = Val true
           <-> occurs (repeat (chr "a") (Z.to_nat (decimal 0 (bytes "3")))) (bytes "xaaay")).
Proof.
  split; [reflexivity |]. split; [repeat constructor |]. split; [discriminate |].
  split; [split; discriminate |].
  apply (counted_repetition_finds_a_run (chr "a") (bytes "3") (bytes "xaaay")).
  - reflexivity.
  - repeat constructor.
  - discriminate.
  - split; discriminate.
Defined.

(** *** Escapes outside a class *)

(** X22. A pattern of ordinary bytes that ends with a lone backslash is
    rejected with "Dangling \" (as long as the backslash is within the
    first 63 bytes, the ones [compile] looks at). *)
Theorem trailing_backslash_is_rejected (lit : list byte) :
  Forall (fun c => plain_byte c = true) lit -> (length lit <= 62)%nat ->
  compile (lit ++ [chr "\"]) = Err EDangling.
Proof.
  intros Hp Hlen. unfold compile.
  set (expr := lit ++ [chr "\"]).
  assert (Hn : length expr = S (length lit))
    by (unfold expr; rewrite length_app; cbn [length]; lia).
  destruct (length expr =? 0)%nat eqn:E0; [apply Nat.eqb_eq in E0; lia |].
  destruct (loop_plain_run expr lit MaxNodes 0 init_state [] MaxNodes)
    as (q & _ & _ & Hq).
  { reflexivity. } { reflexivity. }
  { cbn [init_state c_i skipn]. unfold expr.
    rewrite firstn_app, Nat.sub_diag, firstn_all. cbn [firstn]. apply app_nil_r. }
  { exact Hp. } { unfold MaxNodes; lia. } { unfold MaxNodes; lia. }
  { unfold MaxNodes; lia. }
  rewrite Hq. clear Hq. cbn [init_state c_i c_idx c_buffer app Nat.add].
  replace (MaxNodes - length lit)%nat with (S (63 - length lit))
    by (unfold MaxNodes; lia).
  rewrite loop_unfold. cbn [c_i].
  replace ((length lit <? length expr)%nat) with true
    by (symmetry; apply Nat.ltb_lt; lia).
  replace ((length lit + 1 <? MaxNodes)%nat) with true
    by (symmetry; apply Nat.ltb_lt; unfold MaxNodes; lia).
  cbn [andb].
  unfold step, get. cbn [c_i].
  replace (nth_error expr (length lit)) with (Some (chr "\"))
    by (unfold expr; rewrite nth_error_app2, Nat.sub_diag by lia; reflexivity).
  cbn [bind]. change (chr "\" =? chr "^") with false. change (chr "\" =? chr "$") with false.
  change (chr "\" =? chr ".") with false. change (chr "\" =? chr "*") with false.
  change (chr "\" =? chr "+") with false. change (chr "\" =? chr "?") with false.
  change (chr "\" =? chr "\") with true. cbv iota.
  unfold compileEscape. cbn [c_i].
  replace ((length expr <=? S (length lit))%nat) with true
    by (symmetry; apply Nat.leb_le; lia).
  reflexivity.
Qed.

(** X22, instance: the pattern [ab\]. *)
Lemma trailing_backslash_is_rejected_witness :
  Forall (fun c => plain_byte c = true) (bytes "ab")
  /\ (length (bytes "ab") <= 62)%nat
  /\ compile (bytes "ab" ++ [chr "\"]) = Err EDangling.
Proof.
  split; [repeat constructor |]. split; [cbn; lia |].
  apply (trailing_backslash_is_rejected (bytes "ab")).
  - repeat constructor.
  - cbn. lia.
Defined.

(** X23. A backslash makes the next byte literal unless that byte is one
    of the six class letters: for every other byte [c], including the
    pattern's own special bytes and letters such as [n] or [t], the
    pattern [\c] compiles and matches exactly the inputs that contain
    the byte [c]. *)
Theorem escaped_byte_is_literal (c : byte) (b : list byte) :
  isMeta c = false ->
  exists re,
    compile [chr "\"; c] = Ok re
    /\ Match re b <> Panic
    /\ (Match re b = Val true <-> In c b).
Proof.
  intros Hc.
  assert (HC : compile [chr "\"; c]
               = Ok (mkRegexp (lit_node c :: repeat zero_node 63) (repeat 0 MaxBufLen))).
  { unfold compile. cbn [length Nat.eqb].
    change MaxNodes with (S 63) at 1. rewrite loop_unfold. cbn [length].
    change (c_i init_state) with 0%nat.
    change ((0 <? 2)%nat) with true. change ((0 + 1 <? MaxNodes)%nat) with true.
    cbn [andb].
    assert (HS : step [chr "\"; c] 0 init_state
                 = Ok (mkState 1 true 0 (lit_node c :: repeat zero_node 63)
                         (repeat 0 MaxBufLen))).
    { unfold step, get. cbn [init_state c_i nth_error bind].
      change (chr "\" =? chr "^") with false. change (chr "\" =? chr "$") with false.
      change (chr "\" =? chr ".") with false. change (chr "\" =? chr "*") with false.
      change (chr "\" =? chr "+") with false. change (chr "\" =? chr "?") with false.
      change (chr "\" =? chr "\") with true. cbv iota.
      unfold compileEscape, get.
      cbn [init_state c_i length Nat.leb nth_error bind c_nodes c_idx c_buffer].
      unfold isMeta in Hc.
      repeat (apply orb_false_iff in Hc; destruct Hc as [Hc ?]).
      repeat match goal with E : (c =? _) = false |- _ => rewrite E; clear E end.
      reflexivity. }
    rewrite HS. cbn [bind c_i c_quable c_idx c_nodes c_buffer].
    rewrite loop_stop by reflexivity. cbn [bind c_nodes c_buffer].
    pose proof (sentinel_write [lit_node c] 63 ltac:(lia)) as HW.
    cbn [app length] in HW. rewrite HW. reflexivity. }
  eexists. split; [exact HC |].
  assert (HM : Match (mkRegexp (lit_node c :: repeat zero_node 63) (repeat 0 MaxBufLen)) b
               = Val (some_suffix (is_prefix [c]) b)).
  { apply Match_scanning; [reflexivity |]. intros t.
    change (repeat zero_node 63) with (zero_node :: repeat zero_node 62).
    exact (match_literal _ _ [c] t). }
  rewrite HM. split; [discriminate |].
  split.
  - intros H.
    assert (H' : some_suffix (is_prefix [c]) b = true) by (injection H as H; exact H).
    apply occurs_spec in H'; [| discriminate].
    destruct H' as (pre & post & ->). apply in_or_app. right. left. reflexivity.
  - intros H. apply in_split in H. destruct H as (pre & post & ->).
    f_equal. apply occurs_spec; [discriminate |]. exists pre, post. reflexivity.
Qed.

(** X23, instance: [\.] against [a.b]. *)
Lemma escaped_byte_is_literal_witness :
  isMeta (chr ".") = false
  /\ exists re,
       compile [chr "\"; chr "."] = Ok re
       /\ Match re (bytes "a.b") <> Panic
       /\ (Match re (bytes "a.b") = Val true <-> In (chr ".") (bytes "a.b")).
Proof.
  split; [reflexivity |].
  apply (escaped_byte_is_literal (chr ".") (bytes "a.b")). reflexivity.
Defined.

(* ================================================================== *)
(** ** Further properties: classes of plain bytes *)

(** *** Classes of plain bytes, end to end *)

Lemma class_member_inv (c : byte) :
  class_member_byte c = true ->
  class_byte c = true /\ (c =? chr "\") = false /\ (c =? chr "-") = false
  /\ (c =? chr "]") = false.
Proof.
  unfold class_member_byte. intros H. apply andb_true_iff in H. destruct H as [H1 H2].
  apply negb_true_iff in H2. destruct (class_byte_inv c H1) as (_ & Hb & Hm).
  repeat split; assumption.
Qed.

Lemma store_zeros (done : list byte) (m : nat) (d : byte) :
  (0 < m)%nat ->
  store (done ++ repeat 0 m) (length done) d = Ok ((done ++ [d]) ++ repeat 0 (m - 1)).
Proof.
  intros Hm. unfold store.
  replace ((length done <? length (done ++ repeat 0%Z m))%nat) with true
    by (symmetry; apply Nat.ltb_lt; rewrite length_app, repeat_length; lia).
  rewrite set_nth_app. destruct m as [|m]; [lia |]. cbn [repeat set_nth].
  rewrite <- app_assoc. cbn [app]. replace (S m - 1)%nat with m by lia. reflexivity.
Qed.

(** The class loop over a body of plain bytes copies the body. *)
Lemma classCopy_plain expr (l : list byte) :
  Forall (fun c => class_member_byte c = true) l ->
  forall fuel i (done : list byte) (m : nat),
    (forall k d, nth_error l k = Some d -> nth_error expr (i + k) = Some d) ->
    nth_error expr (i + length l) = Some (chr "]") ->
    (length done + length l <= MaxBufLen - 1)%nat ->
    (length l <= m)%nat -> (length l <= fuel)%nat ->
    classCopy expr fuel i (length done) (done ++ repeat 0 m)
    = Ok ((i + length l)%nat, (length done + length l)%nat,
          (done ++ l) ++ repeat 0 (m - length l)).
Proof.
  induction 1 as [|d l Hd Hl IH]; intros fuel i done m Hk He Hcap Hm Hf.
  - cbn [length] in *. rewrite Nat.add_0_r in He.
    assert (Hc : (i <? length expr)%nat && negb (peek expr i (chr "]")) = false).
    { apply andb_false_iff. right. unfold peek. rewrite He. reflexivity. }
    destruct fuel; cbn [classCopy]; rewrite Hc, !Nat.add_0_r, app_nil_r, Nat.sub_0_r;
      reflexivity.
  - destruct (class_member_inv d Hd) as (_ & Hb & Hmi & Hbr).
    assert (Hi : nth_error expr i = Some d).
    { specialize (Hk 0%nat d eq_refl). rewrite Nat.add_0_r in Hk. exact Hk. }
    assert (Hlt : (i < length expr)%nat)
      by (apply nth_error_Some; rewrite Hi; discriminate).
    destruct fuel as [|fuel]; [cbn [length] in Hf; lia |].
    cbn [classCopy].
    replace ((i <? length expr)%nat && negb (peek expr i (chr "]"))) with true.
    2:{ symmetry. apply andb_true_iff. split; [apply Nat.ltb_lt; exact Hlt |].
        unfold peek. rewrite Hi, Hbr. reflexivity. }
    assert (HE : classElem expr i (length done) (done ++ repeat 0 m)
                 = Ok (i, S (length done), (done ++ [d]) ++ repeat 0 (m - 1), false)).
    { unfold classElem, get. rewrite Hi. cbn [bind]. rewrite Hb.
      replace ((MaxBufLen - 2 <? length done)%nat) with false
        by (symmetry; apply Nat.ltb_ge; cbn [length] in Hcap; unfold MaxBufLen in *; lia).
      rewrite store_zeros by (cbn [length] in Hm; lia). reflexivity. }
    rewrite HE. cbn [bind].
    assert (Hnext : exists c1, nth_error expr (i + 1) = Some c1 /\ (c1 =? chr "-") = false).
    { destruct l as [|d2 l'].
      - exists (chr "]"). split; [exact He | reflexivity].
      - exists d2. split; [apply (Hk 1%nat d2 eq_refl) |].
        inversion Hl as [|? ? Hd2 _]; subst.
        apply (class_member_inv d2 Hd2). }
    destruct Hnext as (c1 & Hc1 & Hc1m).
    assert (HR : classRangeC expr i (S (length done)) ((done ++ [d]) ++ repeat 0 (m - 1))
                 = Ok (i, S (length done), (done ++ [d]) ++ repeat 0 (m - 1))).
    { unfold classRangeC, get. rewrite Hc1. cbn [bind]. rewrite Hc1m. reflexivity. }
    rewrite HR. cbn [bind].
    replace (S (length done)) with (length (done ++ [d]))
      by (rewrite length_app; cbn [length]; lia).
    rewrite (IH fuel (S i) (done ++ [d]) (m - 1)%nat).
    + f_equal. f_equal; [f_equal |].
      * cbn [length]. lia.
      * rewrite length_app. cbn [length]. lia.
      * rewrite <- !app_assoc. cbn [app length].
        replace (m - 1 - length l)%nat with (m - S (length l))%nat by lia. reflexivity.
    + intros k x Hx. specialize (Hk (S k) x Hx).
      replace (S i + k)%nat with (i + S k)%nat by lia. exact Hk.
    + replace (S i + length l)%nat with (i + length (d :: l))%nat
        by (cbn [length]; lia). exact He.
    + rewrite length_app. cbn [length] in *. lia.
    + cbn [length] in Hm. lia.
    + cbn [length] in Hf. lia.
Qed.

Lemma existsb_member (x : byte) (l : list byte) :
  existsb (fun c => c =? x) l = true <-> In x l.
Proof.
  rewrite existsb_exists. split.
  - intros (c & Hc & E). apply Z.eqb_eq in E. subst c. exact Hc.
  - intros H. exists x. split; [exact H | apply Z.eqb_refl].
Qed.

Lemma some_suffix_head (g : byte -> bool) (b : list byte) :
  some_suffix (fun t => match t with [] => false | c :: _ => g c end) b = true
  <-> exists x, In x b /\ g x = true.
Proof.
  induction b as [|y b IH]; cbn [some_suffix].
  - split; [discriminate | intros (x & [] & _)].
  - rewrite orb_true_iff, IH. split.
    + intros [H | (x & Hx & Hg)]; [exists y | exists x]; split; auto; [left | right]; auto.
    + intros (x & [-> | Hx] & Hg); [left; exact Hg | right; exists x; auto].
Qed.

(** [case '[':] on a class whose body is made of plain bytes; [start]
    is the index of the first byte of the body. *)
Lemma compileClass_plain expr (l : list byte) (neg : bool) :
  Forall (fun c => class_member_byte c = true) l ->
  (length l <= MaxBufLen - 1)%nat ->
  let start := if neg then 2%nat else 1%nat in
  peek expr 1 (chr "^") = neg ->
  (forall k d, nth_error l k = Some d -> nth_error expr (start + k) = Some d) ->
  nth_error expr (start + length l) = Some (chr "]") ->
  (start + length l < length expr)%nat ->
  compileClass expr 0 init_state
  = Ok (mkState (start + length l) true (S (length l))
          (mkNode (if neg then TNClass else TClass) 0 (Some 0%nat) (0, 0)
             :: repeat zero_node 63)
          (l ++ 0 :: repeat 0 (MaxBufLen - 1 - length l))).
Proof.
  intros Hl Hlen start Hneg Hk He Hn.
  pose proof (classCopy_plain expr l Hl (length expr) start [] MaxBufLen Hk He) as HC.
  cbn [length app Nat.add] in HC.
  specialize (HC Hlen ltac:(unfold MaxBufLen in *; lia) ltac:(lia)).
  pose proof (store_zeros l (MaxBufLen - length l) 0 ltac:(unfold MaxBufLen in *; lia)) as HS.
  rewrite <- app_assoc in HS. cbn [app] in HS.
  replace (MaxBufLen - length l - 1)%nat with (MaxBufLen - 1 - length l)%nat in HS by lia.
  unfold compileClass. cbn [init_state c_i c_idx c_nodes c_buffer].
  rewrite Hneg. unfold get.
  destruct neg; subst start.
  - rewrite (upd_eval _ _ zero_node) by reflexivity. cbn [bind].
    change ((length (repeat 0 MaxBufLen) <? 0)%nat) with false. cbv iota.
    rewrite (upd_eval _ _ (set_typ TNClass zero_node)) by reflexivity. cbn [bind].
    change (S 1) with 2%nat. rewrite HC. cbn [bind]. rewrite He. cbn [bind].
    change (chr "]" =? chr "]") with true. cbn [negb]. rewrite HS. reflexivity.
  - rewrite (upd_eval _ _ zero_node) by reflexivity. cbn [bind].
    change ((length (repeat 0 MaxBufLen) <? 0)%nat) with false. cbv iota.
    rewrite (upd_eval _ _ (set_typ TClass zero_node)) by reflexivity. cbn [bind].
    rewrite HC. cbn [bind]. rewrite He. cbn [bind].
    change (chr "]" =? chr "]") with true. cbn [negb]. rewrite HS. reflexivity.
Qed.

Lemma compile_one_class expr (st : cstate) (nd : node) :
  nth_error expr 0 = Some (chr "[") ->
  compileClass expr 0 init_state = Ok st ->
  S (c_i st) = length expr ->
  c_nodes st = nd :: repeat zero_node 63 ->
  compile expr = Ok (mkRegexp (nd :: repeat zero_node 63) (c_buffer st)).
Proof.
  intros H0 HC Hi Hns. unfold compile.
  assert (Hlt : (0 < length expr)%nat)
    by (apply nth_error_Some; rewrite H0; discriminate).
  replace ((length expr =? 0)%nat) with false by (symmetry; apply Nat.eqb_neq; lia).
  change MaxNodes with (S 63) at 1. rewrite loop_unfold.
  change (c_i init_state) with 0%nat.
  replace ((0 <? length expr)%nat) with true by (symmetry; apply Nat.ltb_lt; lia).
  change ((0 + 1 <? MaxNodes)%nat) with true. cbn [andb].
  assert (HS : step expr 0 init_state = compileClass expr 0 init_state).
  { unfold step, get. change (c_i init_state) with 0%nat. rewrite H0. reflexivity. }
  rewrite HS, HC. cbn [bind]. rewrite loop_stop.
  - cbn [bind c_nodes c_buffer]. rewrite Hns.
    pose proof (sentinel_write [nd] 63 ltac:(lia)) as HW.
    cbn [app length] in HW. rewrite HW. reflexivity.
  - cbn [c_i]. apply andb_false_iff. left. apply Nat.ltb_ge. lia.
Qed.

Lemma Match_one_class (T : Type_) (l b : list byte) (g : byte -> bool) :
  Forall (fun c => class_member_byte c = true) l ->
  (length l <= MaxBufLen - 1)%nat ->
  (T = TClass /\ g = (fun x => existsb (fun c => c =? x) l))
  \/ (T = TNClass /\ g = (fun x => negb (existsb (fun c => c =? x) l))) ->
  Match (mkRegexp (mkNode T 0 (Some 0%nat) (0, 0) :: repeat zero_node 63)
           (l ++ 0 :: repeat 0 (MaxBufLen - 1 - length l))) b
  = Val (some_suffix (fun t => match t with [] => false | c :: _ => g c end) b).
Proof.
  intros Hl Hlen HT.
  assert (Hcb : Forall (fun c => class_byte c = true) l).
  { eapply Forall_impl; [| exact Hl]. intros c Hc. apply (class_member_inv c Hc). }
  apply Match_scanning; [destruct HT as [[-> _] | [-> _]]; reflexivity |].
  intros t. change (repeat zero_node 63) with (zero_node :: repeat zero_node 62).
  rewrite match_single_atom by (destruct HT as [[-> _] | [-> _]]; reflexivity).
  destruct t as [|c t]; [reflexivity |].
  unfold matchOne, cclOf. cbn [typ ccl skipn].
  destruct HT as [[-> ->] | [-> ->]].
  - apply matchCharClass_plain_members. exact Hcb.
  - rewrite matchCharClass_plain_members by exact Hcb. reflexivity.
Qed.

(** X24. A class of plain bytes accepts its members: for a body [l]
    without backslash, hyphen, zero byte or closing bracket, and not
    starting with [^], the pattern [[l]] compiles and [Match] answers
    [true] exactly on the inputs that contain one of the bytes of [l]. *)
Theorem plain_class_matches_members (l b : list byte) :
  Forall (fun c => class_member_byte c = true) l ->
  (forall l', l <> chr "^" :: l') ->
  (length l <= MaxBufLen - 1)%nat ->
  exists re,
    compile (chr "[" :: l ++ [chr "]"]) = Ok re
    /\ Match re b <> Panic
    /\ (Match re b = Val true <-> exists x, In x b /\ In x l).
Proof.
  intros Hl Hneg Hlen.
  set (expr := chr "[" :: l ++ [chr "]"]).
  assert (Hk : forall k d, nth_error l k = Some d -> nth_error expr (1 + k) = Some d).
  { intros k d H. cbn [Nat.add]. unfold expr. cbn [nth_error].
    rewrite nth_error_app1; [exact H |]. apply nth_error_Some. rewrite H. discriminate. }
  assert (He : nth_error expr (1 + length l) = Some (chr "]")).
  { unfold expr. cbn [Nat.add nth_error]. rewrite nth_error_app2, Nat.sub_diag by lia.
    reflexivity. }
  assert (Hn : length expr = (2 + length l)%nat)
    by (unfold expr; cbn [length]; rewrite length_app; cbn [length]; lia).
  assert (Hp : peek expr 1 (chr "^") = false).
  { unfold peek, expr. cbn [nth_error]. destruct l as [|d l'].
    - reflexivity.
    - cbn [app nth_error]. apply Z.eqb_neq. intros ->. apply (Hneg l'). reflexivity. }
  pose proof (compileClass_plain expr l false Hl Hlen Hp Hk He
                ltac:(rewrite Hn; lia)) as HC.
  cbv iota in HC.
  eexists. split.
  { apply (compile_one_class expr _ (mkNode TClass 0 (Some 0%nat) (0, 0)) eq_refl HC);
      [cbn [c_i]; lia | reflexivity]. }
  cbn [c_buffer].
  rewrite (Match_one_class TClass l b _ Hl Hlen (or_introl (conj eq_refl eq_refl))).
  split; [discriminate |].
  split.
  - intros H. injection H as H. apply some_suffix_head in H.
    destruct H as (x & Hx & Hg). exists x. split; [exact Hx |].
    apply existsb_member. exact Hg.
  - intros (x & Hx & Hin). f_equal. apply some_suffix_head. exists x.
    split; [exact Hx | apply existsb_member; exact Hin].
Qed.

(** X24, instance: [[xyz]] against [say]. *)
Lemma plain_class_matches_members_witness :
  Forall (fun c => class_member_byte c = true) (bytes "xyz")
  /\ (forall l', bytes "xyz" <> chr "^" :: l')
  /\ (length (bytes "xyz") <= MaxBufLen - 1)%nat
  /\ exists re,
       compile (chr "[" :: bytes "xyz" ++ [chr "]"]) = Ok re
       /\ Match re (bytes "say") <> Panic
       /\ (Match re (bytes "say") = Val true
           <-> exists x, In x (bytes "say") /\ In x (bytes "xyz")).
Proof.
  split; [repeat constructor |]. split; [intros l'; discriminate |].
  split; [unfold MaxBufLen; cbn; lia |].
  apply (plain_class_matches_members (bytes "xyz") (bytes "say")).
  - repeat constructor.
  - intros l'. discriminate.
  - unfold MaxBufLen. cbn. lia.
Defined.

(** X25. A negated class of plain bytes accepts every other byte: for
    such a body [l], the pattern [[^l]] compiles and [Match] answers
    [true] exactly on the inputs that contain a byte that is not in
    [l]. *)
Theorem negated_class_matches_other_bytes (l b : list byte) :
  Forall (fun c => class_member_byte c = true) l ->
  (length l <= MaxBufLen - 1)%nat ->
  exists re,
    compile (chr "[" :: chr "^" :: l ++ [chr "]"]) = Ok re
    /\ Match re b <> Panic
    /\ (Match re b = Val true <-> exists x, In x b /\ ~ In x l).
Proof.
  intros Hl Hlen.
  set (expr := chr "[" :: chr "^" :: l ++ [chr "]"]).
  assert (Hk : forall k d, nth_error l k = Some d -> nth_error expr (2 + k) = Some d).
  { intros k d H. cbn [Nat.add]. unfold expr. cbn [nth_error].
    rewrite nth_error_app1; [exact H |]. apply nth_error_Some. rewrite H. discriminate. }
  assert (He : nth_error expr (2 + length l) = Some (chr "]")).
  { unfold expr. cbn [Nat.add nth_error]. rewrite nth_error_app2, Nat.sub_diag by lia.
    reflexivity. }
  assert (Hn : length expr = (3 + length l)%nat)
    by (unfold expr; cbn [length]; rewrite length_app; cbn [length]; lia).
  pose proof (compileClass_plain expr l true Hl Hlen eq_refl Hk He
                ltac:(rewrite Hn; lia)) as HC.
  cbv iota in HC.
  eexists. split.
  { apply (compile_one_class expr _ (mkNode TNClass 0 (Some 0%nat) (0, 0)) eq_refl HC);
      [cbn [c_i]; lia | reflexivity]. }
  cbn [c_buffer].
  rewrite (Match_one_class TNClass l b _ Hl Hlen (or_intror (conj eq_refl eq_refl))).
  split; [discriminate |].
  split.
  - intros H. injection H as H. apply some_suffix_head in H.
    destruct H as (x & Hx & Hg). exists x. split; [exact Hx |].
    apply negb_true_iff in Hg. intros Hin. apply existsb_member in Hin. congruence.
  - intros (x & Hx & Hin). f_equal. apply some_suffix_head. exists x.
    split; [exact Hx |]. apply negb_true_iff.
    destruct (existsb (fun c => c =? x) l) eqn:E; [| reflexivity].
    apply existsb_member in E. contradiction.
Qed.

(** X25, instance: [[^xyz]] against [xa]. *)
Lemma negated_class_matches_other_bytes_witness :
  Forall (fun c => class_member_byte c = true) (bytes "xyz")
  /\ (length (bytes "xyz") <= MaxBufLen - 1)%nat
  /\ exists re,
       compile (chr "[" :: chr "^" :: bytes "xyz" ++ [chr "]"]) = Ok re
       /\ Match re (bytes "xa") <> Panic
       /\ (Match re (bytes "xa") = Val true
           <-> exists x, In x (bytes "xa") /\ ~ In x (bytes "xyz")).
Proof.
  split; [repeat constructor |]. split; [unfold MaxBufLen; cbn; lia |].
  apply (negated_class_matches_other_bytes (bytes "xyz") (bytes "xa")).
  - repeat constructor.
  - unfold MaxBufLen. cbn. lia.
Defined.

(* ================================================================== *)
(** ** Further properties: class payloads stay apart *)

(** One iteration of the main loop either compiles a class, or writes a
    node that is not a class and leaves the buffer alone. *)
Lemma step_cases expr j st st' :
  step expr j st = Ok st' ->
  compileClass expr j st = Ok st'
  \/ (c_idx st' = c_idx st /\ c_buffer st' = c_buffer st
      /\ exists nd, c_nodes st' = set_nth (c_nodes st) j nd /\ is_class nd = false).
Proof.
  intros H.
  assert (HQ : compileQuant expr j st = Ok st' \/ compileClass expr j st = Ok st'
               \/ exists f, upd (c_nodes st) j f = Ok (c_nodes st')
                            /\ c_buffer st' = c_buffer st /\ c_idx st' = c_idx st
                            /\ (forall nd, is_class (f nd) = false)).
  { unfold step, compileMark, compileEscape in H. ok_all; auto; right; right;
      cbn [c_nodes c_buffer c_idx];
      match goal with
      | E1 : upd (c_nodes st) j ?f = Ok ?a, E2 : upd ?a j ?g = Ok _ |- _ =>
          exists (fun nd => g (f nd)); split; [exact (upd_upd _ _ _ _ _ _ E1 E2) |];
          repeat split; intros nd; reflexivity
      | E1 : upd (c_nodes st) j ?f = Ok _ |- _ =>
          exists f; split; [exact E1 |]; repeat split; intros nd; reflexivity
      end. }
  destruct HQ as [HQ | [HC | (f & Hu & Hb & Hi & Hf)]].
  - right. apply compileQuant_Ok in HQ.
    destruct HQ as (Ei & Eb & nd & _ & Hns & Ht & _).
    repeat split; try assumption. exists nd. split; [exact Hns |].
    unfold is_class. destruct Ht as [-> | ->]; reflexivity.
  - left. exact HC.
  - right. apply upd_Ok in Hu. destruct Hu as (nd & _ & Hns).
    repeat split; try assumption. exists (f nd). split; [exact Hns | apply Hf].
Qed.

Lemma is_class_iff (nd : node) :
  is_class nd = true <-> typ nd = TClass \/ typ nd = TNClass.
Proof.
  unfold is_class. destruct (typ nd); split; intros H; try discriminate H;
    try (destruct H as [H | H]; discriminate H); auto.
Qed.

Lemma classes_apart_step expr j st st' :
  step expr j st = Ok st' ->
  layout j (c_nodes st) -> (c_idx st <= length (c_buffer st))%nat ->
  classes_apart (c_buffer st) (c_idx st) (c_nodes st) ->
  (c_idx st' <= length (c_buffer st'))%nat
  /\ classes_apart (c_buffer st') (c_idx st') (c_nodes st').
Proof.
  intros H [Hlen Hlay] Hidx Hinv.
  assert (Hzero : forall j2 nd2, (j < j2)%nat -> nth_error (c_nodes st) j2 = Some nd2 ->
                    is_class nd2 = false).
  { intros j2 nd2 Hlt Hn. destruct (Hlay j2 nd2 Hn) as [_ Hz].
    rewrite (Hz ltac:(lia)). reflexivity. }
  destruct (step_cases _ _ _ _ H) as [HC | (Ei & Eb & nd & Hns & Hnd)].
  - apply compileClass_Ok in HC.
    destruct HC as (Hi & Hpre & _ & Hseg & nd0 & T & Hnd0 & HT & Hns).
    split; [lia |].
    set (pay := payload isMetaOrEsc
                  (seg expr (if peek expr (S (c_i st)) (chr "^")
                             then (c_i st + 2)%nat else (c_i st + 1)%nat) (c_i st'))) in *.
    assert (Hl : c_idx st' = S (c_idx st + length pay)).
    { pose proof (f_equal (@length _) Hseg) as HL. unfold seg in HL at 1.
      rewrite length_skipn, length_firstn, length_app in HL.
      cbn [length] in HL. unfold byte in *. lia. }
    rewrite Hns. intros j1 nd1 Hn1 Hc1.
    destruct (Nat.eq_dec j j1) as [<- | Hne].
    + rewrite nth_error_set_nth_eq in Hn1
        by (apply nth_error_Some; rewrite Hnd0; discriminate).
      injection Hn1 as <-. exists (c_idx st), pay. cbn [ccl set_ccl].
      split; [reflexivity |]. split; [apply payload_tokens |].
      split; [rewrite <- Hl; exact Hseg |]. split; [lia |].
      intros j2 nd2 off2 Hlt Hn2 Hc2 _.
      rewrite nth_error_set_nth_ne in Hn2 by lia.
      rewrite (Hzero j2 nd2 Hlt Hn2) in Hc2. discriminate Hc2.
    + rewrite nth_error_set_nth_ne in Hn1 by exact Hne.
      destruct (Hinv j1 nd1 Hn1 Hc1) as (off1 & pay1 & Hccl & Htok & Hs1 & Hlt1 & Hlater).
      exists off1, pay1. split; [exact Hccl |]. split; [exact Htok |].
      split.
      { rewrite <- Hs1. apply seg_prefix.
        apply (firstn_prefix_le _ _ _ (c_idx st)); [exact Hpre | lia]. }
      split; [lia |].
      intros j2 nd2 off2 Hlt Hn2 Hc2 Ho2.
      destruct (Nat.eq_dec j j2) as [<- | Hne2].
      * rewrite nth_error_set_nth_eq in Hn2
          by (apply nth_error_Some; rewrite Hnd0; discriminate).
        injection Hn2 as <-. cbn [ccl set_ccl] in Ho2. injection Ho2 as <-. exact Hlt1.
      * rewrite nth_error_set_nth_ne in Hn2 by exact Hne2.
        apply (Hlater j2 nd2 off2 Hlt Hn2 Hc2 Ho2).
  - rewrite Ei, Eb, Hns. split; [exact Hidx |].
    intros j1 nd1 Hn1 Hc1.
    destruct (Nat.eq_dec j j1) as [<- | Hne].
    + assert (Hj : (j < length (c_nodes st))%nat).
      { assert (Hl2 : (j < length (set_nth (c_nodes st) j nd))%nat)
          by (apply nth_error_Some; rewrite Hn1; discriminate).
        rewrite length_set_nth in Hl2. exact Hl2. }
      rewrite nth_error_set_nth_eq in Hn1 by exact Hj.
      injection Hn1 as <-. congruence.
    + rewrite nth_error_set_nth_ne in Hn1 by exact Hne.
      destruct (Hinv j1 nd1 Hn1 Hc1) as (off1 & pay1 & Hccl & Htok & Hs1 & Hlt1 & Hlater).
      exists off1, pay1. repeat split; try assumption.
      intros j2 nd2 off2 Hlt Hn2 Hc2 Ho2.
      destruct (Nat.eq_dec j j2) as [<- | Hne2].
      * assert (Hj : (j < length (c_nodes st))%nat).
        { assert (Hl2 : (j < length (set_nth (c_nodes st) j nd))%nat)
            by (apply nth_error_Some; rewrite Hn2; discriminate).
          rewrite length_set_nth in Hl2. exact Hl2. }
        rewrite nth_error_set_nth_eq in Hn2 by exact Hj.
        injection Hn2 as <-. congruence.
      * rewrite nth_error_set_nth_ne in Hn2 by exact Hne2.
        apply (Hlater j2 nd2 off2 Hlt Hn2 Hc2 Ho2).
Qed.

Lemma loop_classes_apart expr fuel :
  forall j st j' st',
    loop expr fuel j st = Ok (j', st') ->
    layout j (c_nodes st) -> (c_idx st <= length (c_buffer st))%nat ->
    classes_apart (c_buffer st) (c_idx st) (c_nodes st) ->
    classes_apart (c_buffer st') (c_idx st') (c_nodes st').
Proof.
  induction fuel as [|fuel IH]; intros j st j' st' H Hl Hidx Hinv; cbn [loop] in H.
  - destruct ((c_i st <? length expr)%nat && (j + 1 <? MaxNodes)%nat);
      [discriminate H |]. inversion H; subst. exact Hinv.
  - destruct ((c_i st <? length expr)%nat && (j + 1 <? MaxNodes)%nat) eqn:Ec.
    + destruct (step expr j st) as [st1 | | |] eqn:ES; cbn [bind] in H;
        try discriminate H.
      destruct (classes_apart_step _ _ _ _ ES Hl Hidx Hinv) as [Hidx1 Hinv1].
      pose proof (step_Ok _ _ _ _ ES) as (_ & _ & nd & Hns & Hnd & _).
      apply IH in H; cbn [c_nodes c_buffer c_idx]; try assumption.
      rewrite Hns. apply layout_step; assumption.
    + inversion H; subst. exact Hinv.
Qed.

(** X7. In every compiled pattern the class payloads are apart: each
    class node points into the buffer at a payload made of whole
    elements (a byte, or a backslash pair) followed by a zero byte, and
    every class node later in the pattern starts after that zero byte,
    so no class overwrites the payload or the terminator of an earlier
    one. *)
Theorem compiled_class_payloads (expr : list byte) (re : Regexp) :
  compile expr = Ok re ->
  forall j1 nd1,
    nth_error (nodes re) j1 = Some nd1 ->
    typ nd1 = TClass \/ typ nd1 = TNClass ->
    exists off1 pay1,
      ccl nd1 = Some off1 /\ tokens pay1
      /\ seg (buffer re) off1 (S (off1 + length pay1)) = pay1 ++ [0]
      /\ forall j2 nd2 off2,
           (j1 < j2)%nat -> nth_error (nodes re) j2 = Some nd2 ->
           typ nd2 = TClass \/ typ nd2 = TNClass -> ccl nd2 = Some off2 ->
           (off1 + length pay1 < off2)%nat.
Proof.
  unfold compile. intros H.
  destruct (length expr =? 0)%nat; [discriminate H |].
  destruct (loop expr MaxNodes 0 init_state) as [[j st] | | |] eqn:EL; cbn [bind] in H;
    try discriminate H.
  pose proof (loop_layout _ _ _ _ _ _ EL ltac:(unfold MaxNodes; lia) init_layout
                init_bounded (repeat_length _ _)) as (_ & Hlay & _ & _).
  apply loop_classes_apart in EL.
  - destruct (upd (c_nodes st) j (set_typ TNone)) as [ns | | |] eqn:EU; cbn [bind] in H;
      try discriminate H.
    inversion H; subst; clear H. cbn [nodes buffer].
    apply upd_Ok in EU. destruct EU as (x & Hx & ->).
    destruct (proj2 Hlay j x Hx) as [_ Hz]. rewrite (Hz (Nat.le_refl j)).
    change (set_typ TNone zero_node) with zero_node.
    rewrite set_nth_same by (rewrite Hx, (Hz (Nat.le_refl j)); reflexivity).
    intros j1 nd1 Hn1 Hc1. apply is_class_iff in Hc1.
    destruct (EL j1 nd1 Hn1 Hc1) as (off1 & pay1 & Hccl & Htok & Hs1 & _ & Hlater).
    exists off1, pay1. repeat split; try assumption.
    intros j2 nd2 off2 Hlt Hn2 Hc2 Ho2. apply is_class_iff in Hc2.
    apply (Hlater j2 nd2 off2 Hlt Hn2 Hc2 Ho2).
  - apply init_layout.
  - cbn. lia.
  - intros j1 nd1 Hn1 Hc1. apply nth_error_In in Hn1. apply repeat_spec in Hn1.
    subst nd1. discriminate Hc1.
Qed.

(** X7, instance: the two classes of [[a-c][\d_]]. *)
Lemma compiled_class_payloads_witness :
  exists re,
    Compile "[a-c][\d_]" = Ok re
    /\ exists off1 pay1,
         Some 0%nat = Some off1 /\ tokens pay1
         /\ seg (buffer re) off1 (S (off1 + length pay1)) = pay1 ++ [0]
         /\ forall j2 nd2 off2,
              (0 < j2)%nat -> nth_error (nodes re) j2 = Some nd2 ->
              typ nd2 = TClass \/ typ nd2 = TNClass -> ccl nd2 = Some off2 ->
              (off1 + length pay1 < off2)%nat.
Proof.
  eexists. split; [vm_compute; reflexivity |].
  apply (compiled_class_payloads (bytes "[a-c][\d_]") _ eq_refl 0%nat
           (mkNode TClass 0 (Some 0%nat) (0, 0))).
  - reflexivity.
  - left. reflexivity.
Defined.

(* ================================================================== *)
(** ** An optional atom in front of a compiled pattern *)

(** Inversion of the successful steps of both runs at once. *)
Ltac ok2 :=
  repeat match goal with
  | H : bind ?m _ = Ok _ |- _ =>
      let E := fresh "E" in destruct m eqn:E; cbn [bind] in H; [| discriminate H ..]
  | H : (if ?b then _ else _) = Ok _ |- _ =>
      let E := fresh "E" in destruct b eqn:E; try discriminate H
  | H : (let '(_, _) := ?p in _) = Ok _ |- _ => destruct p
  | H : Ok _ = Ok _ |- _ => inversion H; subst; clear H
  | H : Err _ = Ok _ |- _ => discriminate H
  | H : GoPanic = Ok _ |- _ => discriminate H
  | H : NoFuel = Ok _ |- _ => discriminate H
  end.

Section Shift.
Variables (pre P : list byte) (d : nat).
Local Abbreviation s := (length pre).
Local Abbreviation Q := (pre ++ P).

Lemma nth_shift (i : nat) : nth_error Q (i + s) = nth_error P i.
Proof. rewrite nth_error_app2 by lia. f_equal. lia. Qed.

Lemma get_shift (i : nat) : get Q (i + s) = get P i.
Proof. unfold get. rewrite nth_shift. reflexivity. Qed.

Lemma peek_shift (i : nat) (c : byte) : peek Q (i + s) c = peek P i c.
Proof. unfold peek. rewrite nth_shift. reflexivity. Qed.

Lemma leb_shift (i : nat) : (length Q <=? i + s)%nat = (length P <=? i)%nat.
Proof.
  rewrite length_app.
  destruct (Nat.leb_spec (length P) i), (Nat.leb_spec (s + length P) (i + s)); lia || reflexivity.
Qed.

Lemma ltb_shift (i : nat) : (i + s <? length Q)%nat = (i <? length P)%nat.
Proof.
  rewrite length_app.
  destruct (Nat.ltb_spec i (length P)), (Nat.ltb_spec (i + s) (s + length P)); lia || reflexivity.
Qed.

Lemma brel_le (idx idx' : nat) (bP bQ : list byte) :
  brel d idx bP bQ -> (idx' <= idx)%nat -> brel d idx' bP bQ.
Proof. intros H Hle k Hk. apply H. lia. Qed.

Lemma store_shift (bP bP' bQ bQ' : list byte) (idx : nat) (x : byte) :
  store bP idx x = Ok bP' -> store bQ (idx + d) x = Ok bQ' ->
  brel d idx bP bQ -> brel d (S idx) bP' bQ'.
Proof.
  unfold store. intros HP HQ Hrel.
  destruct (idx <? length bP)%nat eqn:EP; [| discriminate HP].
  destruct (idx + d <? length bQ)%nat eqn:EQ; [| discriminate HQ].
  apply Nat.ltb_lt in EP, EQ. inversion HP; inversion HQ; subst. clear HP HQ.
  intros k Hk. destruct (Nat.eq_dec k idx) as [-> | Hne].
  - rewrite !nth_error_set_nth_eq by assumption. reflexivity.
  - rewrite !nth_error_set_nth_ne by lia. apply Hrel. lia.
Qed.

Lemma classElem_shift i idx bP bQ i1 idx1 bP1 cont rQ :
  classElem P i idx bP = Ok (i1, idx1, bP1, cont) ->
  classElem Q (i + s) (idx + d) bQ = Ok rQ ->
  brel d idx bP bQ ->
  exists bQ1, rQ = ((i1 + s)%nat, (idx1 + d)%nat, bQ1, cont) /\ brel d idx1 bP1 bQ1.
Proof.
  unfold classElem. intros HP HQ Hrel.
  change (S (i + s)) with (S i + s)%nat in HQ.
  change (S (S i + s)) with (S (S i) + s)%nat in HQ.
  rewrite !get_shift, !leb_shift in HQ.
  ok2.
  all: repeat match goal with
       | E1 : store ?b1 ?k ?x = Ok ?b1', E2 : store ?b2 (?k + d) ?x = Ok ?b2',
         R : brel d ?k ?b1 ?b2 |- _ =>
           pose proof (store_shift _ _ _ _ _ _ E1 E2 R); clear E1 E2 R
       | E1 : store ?b1 (S ?k) ?x = Ok ?b1', E2 : store ?b2 (S (?k + d)) ?x = Ok ?b2',
         R : brel d (S ?k) ?b1 ?b2 |- _ =>
           pose proof (store_shift _ _ _ _ (S k) _ E1 E2 R); clear E1 E2 R
       end.
  all: try congruence.
  all: eexists; split; [reflexivity | assumption].
Qed.

Lemma classRangeC_shift i idx bP bQ i2 idx2 bP2 rQ :
  classRangeC P i idx bP = Ok (i2, idx2, bP2) ->
  classRangeC Q (i + s) (idx + d) bQ = Ok rQ ->
  brel d idx bP bQ ->
  exists bQ2, rQ = ((i2 + s)%nat, (idx2 + d)%nat, bQ2) /\ brel d idx2 bP2 bQ2.
Proof.
  unfold classRangeC. intros HP HQ Hrel.
  replace (i + s + 1)%nat with (i + 1 + s)%nat in HQ by lia.
  replace (i + s + 2)%nat with (i + 2 + s)%nat in HQ by lia.
  replace (i + s + 3)%nat with (i + 3 + s)%nat in HQ by lia.
  change (S (i + s)) with (S i + s)%nat in HQ.
  rewrite !get_shift, !leb_shift in HQ.
  ok2.
  all: try congruence.
  all: repeat match goal with
       | E1 : store ?b1 ?k ?x = Ok ?b1', E2 : store ?b2 (?k + d) ?x = Ok ?b2',
         R : brel d ?k ?b1 ?b2 |- _ =>
           pose proof (store_shift _ _ _ _ _ _ E1 E2 R); clear E1 E2 R
       end.
  all: eexists; split; [reflexivity | assumption].
Qed.

Lemma classCopy_shift fP :
  forall fQ i idx bP bQ i' idx' bP' rQ,
    classCopy P fP i idx bP = Ok (i', idx', bP') ->
    classCopy Q fQ (i + s) (idx + d) bQ = Ok rQ ->
    brel d idx bP bQ ->
    exists bQ', rQ = ((i' + s)%nat, (idx' + d)%nat, bQ') /\ brel d idx' bP' bQ'.
Proof.
  induction fP as [|fP IH]; intros fQ i idx bP bQ i' idx' bP' rQ HP HQ Hrel;
    destruct fQ as [|fQ]; cbn [classCopy] in HP, HQ;
    rewrite ltb_shift, peek_shift in HQ;
    destruct ((i <? length P)%nat && negb (peek P i (chr "]")));
    try discriminate HP; try discriminate HQ;
    try (inversion HP; inversion HQ; subst; eexists; split; [reflexivity | assumption]).
  destruct (classElem P i idx bP) as [[[[i1 idx1] bP1] cont] | | |] eqn:EP;
    cbn [bind] in HP; try discriminate HP.
  destruct (classElem Q (i + s) (idx + d) bQ) as [rQ1 | | |] eqn:EQ;
    cbn [bind] in HQ; try discriminate HQ.
  destruct (classElem_shift _ _ _ _ _ _ _ _ _ EP EQ Hrel) as (bQ1 & -> & Hrel1).
  cbv zeta iota beta in HQ. destruct cont.
  - change (S (i1 + s)) with (S i1 + s)%nat in HQ.
    apply (IH _ _ _ _ _ _ _ _ _ HP HQ Hrel1).
  - destruct (classRangeC P i1 idx1 bP1) as [[[i2 idx2] bP2] | | |] eqn:RP;
      cbn [bind] in HP; try discriminate HP.
    destruct (classRangeC Q (i1 + s) (idx1 + d) bQ1) as [rQ2 | | |] eqn:RQ;
      cbn [bind] in HQ; try discriminate HQ.
    destruct (classRangeC_shift _ _ _ _ _ _ _ _ RP RQ Hrel1) as (bQ2 & -> & Hrel2).
    cbv zeta iota beta in HQ.
    change (S (i2 + s)) with (S i2 + s)%nat in HQ.
    apply (IH _ _ _ _ _ _ _ _ _ HP HQ Hrel2).
Qed.

Lemma quantMin_shift fP :
  forall fQ i v i' v' rQ,
    quantMin P fP i v = Ok (i', v') ->
    quantMin Q fQ (i + s) v = Ok rQ ->
    rQ = ((i' + s)%nat, v').
Proof.
  induction fP as [|fP IH]; intros fQ i v i' v' rQ HP HQ;
    destruct fQ as [|fQ]; cbn [quantMin] in HP, HQ;
    change (S (i + s)) with (S i + s)%nat in HQ;
    rewrite !leb_shift, !get_shift in HQ; ok2; try congruence; try reflexivity.
  apply (IH _ _ _ _ _ _ HP HQ).
Qed.

Lemma quantMax_shift fP :
  forall fQ i v i' v' rQ,
    quantMax P fP i v = Ok (i', v') ->
    quantMax Q fQ (i + s) v = Ok rQ ->
    rQ = ((i' + s)%nat, v').
Proof.
  induction fP as [|fP IH]; intros fQ i v i' v' rQ HP HQ;
    destruct fQ as [|fQ]; cbn [quantMax] in HP, HQ;
    change (S (i + s)) with (S i + s)%nat in HQ;
    rewrite !leb_shift, !get_shift in HQ; ok2; try congruence; try reflexivity.
  apply (IH _ _ _ _ _ _ HP HQ).
Qed.

Section ShiftNodes.
Variables (A Qn : node).

Lemma upd_shift nsP nsP' nsQ nsQ' j (f g : node -> node) :
  upd nsP j f = Ok nsP' -> upd nsQ (j + 2) g = Ok nsQ' ->
  nrel d A Qn nsP nsQ ->
  (forall nd, g (shift_node d nd) = shift_node d (f nd)) ->
  nrel d A Qn nsP' nsQ'.
Proof.
  intros HP HQ (Hlen & H0 & H1 & Hrel) Hfg.
  apply upd_Ok in HP, HQ. destruct HP as (nd & Hnd & ->). destruct HQ as (ndQ & HndQ & ->).
  assert (Hj : (j + 2 < MaxNodes)%nat)
    by (rewrite <- Hlen; apply nth_error_Some; rewrite HndQ; discriminate).
  rewrite (Hrel j nd Hj Hnd) in HndQ. injection HndQ as <-.
  split; [rewrite length_set_nth; exact Hlen |].
  split; [rewrite nth_error_set_nth_ne by lia; exact H0 |].
  split; [rewrite nth_error_set_nth_ne by lia; exact H1 |].
  intros k x Hk Hx. destruct (Nat.eq_dec j k) as [<- | Hne].
  - rewrite nth_error_set_nth_eq in Hx
      by (apply nth_error_Some; rewrite Hnd; discriminate).
    injection Hx as <-.
    rewrite nth_error_set_nth_eq by (rewrite Hlen; exact Hj).
    rewrite Hfg. reflexivity.
  - rewrite nth_error_set_nth_ne in Hx by exact Hne.
    rewrite nth_error_set_nth_ne by lia. apply Hrel; assumption.
Qed.

Lemma get_node_shift nsP nsQ j nd ndQ :
  get nsP j = Ok nd -> get nsQ (j + 2) = Ok ndQ ->
  nrel d A Qn nsP nsQ -> ndQ = shift_node d nd.
Proof.
  intros HP HQ (Hlen & _ & _ & Hrel). apply get_Ok in HP, HQ.
  assert (Hj : (j + 2 < MaxNodes)%nat)
    by (rewrite <- Hlen; apply nth_error_Some; rewrite HQ; discriminate).
  rewrite (Hrel j nd Hj HP) in HQ. injection HQ as <-. reflexivity.
Qed.

Lemma peek_shift_S (i : nat) (c : byte) : peek Q (S (i + s)) c = peek P (S i) c.
Proof. apply (peek_shift (S i)). Qed.

Lemma compileMark_shift gT lT e j stP stQ stP' stQ' :
  compileMark P gT lT e j stP = Ok stP' ->
  compileMark Q gT lT e (j + 2) stQ = Ok stQ' ->
  srel s d A Qn stP stQ -> srel s d A Qn stP' stQ'.
Proof.
  intros HP HQ (Hi & Hq & Hidx & Hn & Hb). unfold compileMark in HP, HQ.
  rewrite Hq, Hi, peek_shift_S in HQ.
  ok2; unfold srel; cbn [c_i c_quable c_idx c_nodes c_buffer];
    (split; [lia |]); (split; [reflexivity |]); (split; [exact Hidx |]);
    (split; [| exact Hb]);
    eapply upd_shift; try eassumption; intros nd; reflexivity.
Qed.

Lemma compileEscape_shift j stP stQ stP' stQ' :
  compileEscape P j stP = Ok stP' ->
  compileEscape Q (j + 2) stQ = Ok stQ' ->
  srel s d A Qn stP stQ -> srel s d A Qn stP' stQ'.
Proof.
  intros HP HQ (Hi & Hq & Hidx & Hn & Hb). unfold compileEscape in HP, HQ.
  rewrite Hi in HQ. change (S (c_i stP + s)) with (S (c_i stP) + s)%nat in HQ.
  rewrite leb_shift, get_shift in HQ.
  ok2; unfold srel; cbn [c_i c_quable c_idx c_nodes c_buffer];
    (split; [lia |]); (split; [reflexivity |]); (split; [exact Hidx |]);
    (split; [| exact Hb]).
  all: try congruence.
  all: try (eapply upd_shift; try eassumption; intros nd; reflexivity).
  all: match goal with
       | E1 : upd _ ?j0 ?f = Ok ?a, E2 : upd ?a ?j0 ?g = Ok _,
         E3 : upd _ (?j0 + 2) ?f = Ok ?b, E4 : upd ?b (?j0 + 2) ?g = Ok _ |- _ =>
           apply (upd_shift _ _ _ _ _ _ _ E2 E4); [| intros nd; reflexivity];
           eapply (upd_shift _ _ _ _ _ _ _ E1 E3); [eassumption | intros nd; reflexivity]
       end.
Qed.

Lemma compileClass_shift j stP stQ stP' stQ' :
  compileClass P j stP = Ok stP' ->
  compileClass Q (j + 2) stQ = Ok stQ' ->
  srel s d A Qn stP stQ -> srel s d A Qn stP' stQ'.
Proof.
  intros HP HQ (Hi & Hq & Hidx & Hn & Hb). unfold compileClass in HP, HQ.
  rewrite Hi, Hidx, peek_shift_S in HQ.
  destruct (peek P (S (c_i stP)) (chr "^")) eqn:Epk.
  - destruct (upd (c_nodes stP) j (set_typ TNClass)) as [n1 | | |] eqn:U1;
      cbn [bind] in HP; try discriminate HP.
    destruct (upd (c_nodes stQ) (j + 2) (set_typ TNClass)) as [m1 | | |] eqn:V1;
      cbn [bind] in HQ; try discriminate HQ.
    pose proof (upd_shift _ _ _ _ _ _ _ U1 V1 Hn (fun nd => eq_refl)) as Hn1.
    cbv zeta iota beta in HP, HQ.
    change (S (S (c_i stP + s))) with (S (S (c_i stP)) + s)%nat in HQ.
    ok2.
    match goal with
    | U2 : upd n1 j _ = Ok _, V2 : upd m1 (j + 2) _ = Ok _,
      C1 : classCopy P _ _ _ _ = Ok _, C2 : classCopy Q _ _ _ _ = Ok _,
      S1 : store _ _ 0 = Ok _, S2 : store _ _ 0 = Ok _ |- _ =>
        pose proof (upd_shift _ _ _ _ _ _ _ U2 V2 Hn1 (fun nd => eq_refl)) as Hn2;
        destruct (classCopy_shift _ _ _ _ _ _ _ _ _ _ C1 C2 Hb) as (bQ' & Hr & Hb');
        inversion Hr; subst;
        pose proof (store_shift _ _ _ _ _ _ S1 S2 Hb') as Hb''
    end.
    unfold srel. cbn [c_i c_quable c_idx c_nodes c_buffer].
    repeat split; try reflexivity; try assumption; apply Hn2.
  - destruct (upd (c_nodes stP) j (set_typ TClass)) as [n1 | | |] eqn:U1;
      cbn [bind] in HP; try discriminate HP.
    destruct (upd (c_nodes stQ) (j + 2) (set_typ TClass)) as [m1 | | |] eqn:V1;
      cbn [bind] in HQ; try discriminate HQ.
    pose proof (upd_shift _ _ _ _ _ _ _ U1 V1 Hn (fun nd => eq_refl)) as Hn1.
    cbv zeta iota beta in HP, HQ.
    change (S (c_i stP + s)) with (S (c_i stP) + s)%nat in HQ.
    ok2.
    match goal with
    | U2 : upd n1 j _ = Ok _, V2 : upd m1 (j + 2) _ = Ok _,
      C1 : classCopy P _ _ _ _ = Ok _, C2 : classCopy Q _ _ _ _ = Ok _,
      S1 : store _ _ 0 = Ok _, S2 : store _ _ 0 = Ok _ |- _ =>
        pose proof (upd_shift _ _ _ _ _ _ _ U2 V2 Hn1 (fun nd => eq_refl)) as Hn2;
        destruct (classCopy_shift _ _ _ _ _ _ _ _ _ _ C1 C2 Hb) as (bQ' & Hr & Hb');
        inversion Hr; subst;
        pose proof (store_shift _ _ _ _ _ _ S1 S2 Hb') as Hb''
    end.
    unfold srel. cbn [c_i c_quable c_idx c_nodes c_buffer].
    repeat split; try reflexivity; try assumption; apply Hn2.
Qed.

Lemma compileQuant_shift j stP stQ stP' stQ' :
  compileQuant P j stP = Ok stP' ->
  compileQuant Q (j + 2) stQ = Ok stQ' ->
  srel s d A Qn stP stQ -> srel s d A Qn stP' stQ'.
Proof.
  intros HP HQ (Hi & Hq & Hidx & Hn & Hb). unfold compileQuant in HP, HQ.
  rewrite Hi, Hq in HQ.
  destruct (negb (c_quable stP)); [discriminate HP |].
  cbv zeta in HP, HQ.
  change (S (c_i stP + s)) with (S (c_i stP) + s)%nat in HQ.
  destruct (quantMin P (length P) (S (c_i stP)) 0) as [[iP vP] | | |] eqn:EmP;
    cbn [bind] in HP; try discriminate HP.
  destruct (quantMin Q (length Q) (S (c_i stP) + s) 0) as [rQ | | |] eqn:EmQ;
    cbn [bind] in HQ; try discriminate HQ.
  rewrite (quantMin_shift _ _ _ _ _ _ _ EmP EmQ) in HQ. clear EmQ.
  cbv zeta iota beta in HP, HQ.
  destruct (MaxQuant <? vP); [discriminate HP |].
  destruct (upd (c_nodes stP) j (set_mn0 vP)) as [n1 | | |] eqn:U1;
    cbn [bind] in HP; try discriminate HP.
  destruct (upd (c_nodes stQ) (j + 2) (set_mn0 vP)) as [m1 | | |] eqn:V1;
    cbn [bind] in HQ; try discriminate HQ.
  pose proof (upd_shift _ _ _ _ _ _ _ U1 V1 Hn (fun nd => eq_refl)) as Hn1.
  change (S (iP + s)) with (S iP + s)%nat in HQ.
  rewrite !get_shift, !leb_shift in HQ.
  destruct (get P iP) as [c | | |] eqn:Ec; cbn [bind] in HP, HQ; try discriminate HP.
  assert (Hblock :
    forall rP rQ',
      (if c =? chr ","
       then if (length P <=? S iP)%nat then Err EUnexpectedEnd
            else c0 <-- get P (S iP) ;;
                 if c0 =? chr "}" then Ok (S iP, MaxQuant)
                 else '(i, val) <-- quantMax P (length P) (S iP) 0 ;;
                      nd <-- get n1 j ;;
                      if (MaxQuant <? val) || (val <? fst (mn nd)) then Err EMaxBad
                      else Ok (i, val)
       else Ok (iP, vP)) = Ok rP ->
      (if c =? chr ","
       then if (length P <=? S iP)%nat then Err EUnexpectedEnd
            else c0 <-- get P (S iP) ;;
                 if c0 =? chr "}" then Ok ((S iP + s)%nat, MaxQuant)
                 else '(i, val) <-- quantMax Q (length Q) (S iP + s) 0 ;;
                      nd <-- get m1 (j + 2) ;;
                      if (MaxQuant <? val) || (val <? fst (mn nd)) then Err EMaxBad
                      else Ok (i, val)
       else Ok ((iP + s)%nat, vP)) = Ok rQ' ->
      rQ' = ((fst rP + s)%nat, snd rP)).
  { intros rP rQ' H1 H2.
    destruct (c =? chr ","); [| inversion H1; inversion H2; reflexivity].
    destruct (length P <=? S iP)%nat; [discriminate H1 |].
    destruct (get P (S iP)) as [c0 | | |]; cbn [bind] in H1, H2; try discriminate H1.
    destruct (c0 =? chr "}"); [inversion H1; inversion H2; reflexivity |].
    destruct (quantMax P (length P) (S iP) 0) as [[iX vX] | | |] eqn:ExP;
      cbn [bind] in H1; try discriminate H1.
    destruct (quantMax Q (length Q) (S iP + s) 0) as [rX | | |] eqn:ExQ;
      cbn [bind] in H2; try discriminate H2.
    rewrite (quantMax_shift _ _ _ _ _ _ _ ExP ExQ) in H2.
    cbv zeta iota beta in H1, H2. ok2; reflexivity. }
  match type of HP with bind ?m _ = _ => destruct m as [[i2 v2] | | |] eqn:BP end;
    cbn [bind] in HP; try discriminate HP.
  match type of HQ with bind ?m _ = _ => destruct m as [rQ2 | | |] eqn:BQ end;
    cbn [bind] in HQ; try discriminate HQ.
  rewrite (Hblock _ _ eq_refl eq_refl) in HQ. cbn [fst snd] in HQ.
  cbv zeta iota beta in HP, HQ.
  rewrite peek_shift_S in HQ.
  ok2; unfold srel; cbn [c_i c_quable c_idx c_nodes c_buffer];
    (split; [lia |]); (split; [reflexivity |]); (split; [exact Hidx |]);
    (split; [| exact Hb]).
  all: try congruence.
  all: match goal with
       | E1 : upd _ ?j0 ?f = Ok ?a, E2 : upd ?a ?j0 ?g = Ok _,
         E3 : upd _ (?j0 + 2) ?f = Ok ?b, E4 : upd ?b (?j0 + 2) ?g = Ok _ |- _ =>
           apply (upd_shift _ _ _ _ _ _ _ E2 E4); [| intros nd; reflexivity];
           eapply (upd_shift _ _ _ _ _ _ _ E1 E3); [eassumption | intros nd; reflexivity]
       end.
Qed.

Lemma step_shift j stP stQ stP' stQ' :
  step P j stP = Ok stP' ->
  step Q (j + 2) stQ = Ok stQ' ->
  srel s d A Qn stP stQ -> srel s d A Qn stP' stQ'.
Proof.
  intros HP HQ Hrel. pose proof Hrel as (Hi & Hq & Hidx & Hn & Hb).
  unfold step in HP, HQ. rewrite Hi, get_shift in HQ.
  destruct (get P (c_i stP)) as [c | | |]; cbn [bind] in HP, HQ; try discriminate HP.
  cbv zeta in HP, HQ.
  repeat match type of HP with
         | (if ?b then _ else _) = _ => destruct b
         end;
    try (eapply compileMark_shift; eassumption);
    try (eapply compileEscape_shift; eassumption);
    try (eapply compileClass_shift; eassumption);
    try (eapply compileQuant_shift; eassumption).
  all: ok2; unfold srel; cbn [c_i c_quable c_idx c_nodes c_buffer];
    (split; [lia |]); (split; [reflexivity |]); (split; [exact Hidx |]);
    (split; [| exact Hb]).
  all: try (eapply upd_shift; try eassumption; intros nd; reflexivity).
  all: match goal with
       | E1 : upd _ ?j0 ?f = Ok ?a, E2 : upd ?a ?j0 ?g = Ok _,
         E3 : upd _ (?j0 + 2) ?f = Ok ?b, E4 : upd ?b (?j0 + 2) ?g = Ok _ |- _ =>
           apply (upd_shift _ _ _ _ _ _ _ E2 E4); [| intros nd; reflexivity];
           eapply (upd_shift _ _ _ _ _ _ _ E1 E3); [eassumption | intros nd; reflexivity]
       end.
Qed.

Lemma loop_shift fP :
  forall fQ j stP stQ j' stP' jQ stQ',
    loop P fP j stP = Ok (j', stP') ->
    loop Q fQ (j + 2) stQ = Ok (jQ, stQ') ->
    (j' + 2 < MaxNodes)%nat ->
    srel s d A Qn stP stQ ->
    jQ = (j' + 2)%nat /\ srel s d A Qn stP' stQ'.
Proof.
  induction fP as [|fP IH]; intros fQ j stP stQ j' stP' jQ stQ' HP HQ Hcap Hrel;
    pose proof Hrel as (Hi & _); cbn [loop] in HP.
  - destruct ((c_i stP <? length P)%nat && (j + 1 <? MaxNodes)%nat) eqn:Ec;
      [discriminate HP |].
    inversion HP; subst. clear HP.
    assert (HcQ : (c_i stQ <? length Q)%nat && (j' + 2 + 1 <? MaxNodes)%nat = false).
    { rewrite Hi, ltb_shift. apply andb_false_iff in Ec. destruct Ec as [Ec | Ec].
      - rewrite Ec. reflexivity.
      - apply Nat.ltb_ge in Ec. unfold MaxNodes in *. lia. }
    destruct fQ; cbn [loop] in HQ; rewrite HcQ in HQ; inversion HQ; subst;
      (split; [reflexivity | exact Hrel]).
  - destruct ((c_i stP <? length P)%nat && (j + 1 <? MaxNodes)%nat) eqn:Ec.
    + destruct (step P j stP) as [stP1 | | |] eqn:SP; cbn [bind] in HP;
        try discriminate HP.
      assert (Hjj : (S j <= j')%nat).
      { pose proof (step_Ok _ _ _ _ SP) as (_ & Hbl & nd & Hns & _).
        clear IH HQ. revert HP. generalize (mkState (S (c_i stP1)) (c_quable stP1)
          (c_idx stP1) (c_nodes stP1) (c_buffer stP1)). intros st0.
        generalize (S j). clear. intros j0. revert j0 st0.
        induction fP as [|fP IH]; intros j0 st0 H; cbn [loop] in H.
        - destruct ((c_i st0 <? length P)%nat && (j0 + 1 <? MaxNodes)%nat);
            [discriminate H | inversion H; subst; lia].
        - destruct ((c_i st0 <? length P)%nat && (j0 + 1 <? MaxNodes)%nat);
            [| inversion H; subst; lia].
          destruct (step P j0 st0); cbn [bind] in H; try discriminate H.
          apply IH in H. lia. }
      apply andb_true_iff in Ec. destruct Ec as [Ec1 Ec2].
      assert (HcQ : (c_i stQ <? length Q)%nat && (j + 2 + 1 <? MaxNodes)%nat = true).
      { rewrite Hi, ltb_shift, Ec1. apply Nat.ltb_lt. lia. }
      destruct fQ as [|fQ]; cbn [loop] in HQ; rewrite HcQ in HQ; [discriminate HQ |].
      destruct (step Q (j + 2) stQ) as [stQ1 | | |] eqn:SQ; cbn [bind] in HQ;
        try discriminate HQ.
      pose proof (step_shift _ _ _ _ _ SP SQ Hrel) as (Hi1 & Hq1 & Hidx1 & Hn1 & Hb1).
      apply (IH fQ (S j) _ _ _ _ _ _ HP HQ Hcap).
      unfold srel. cbn [c_i c_quable c_idx c_nodes c_buffer].
      repeat split; try assumption; try apply Hn1. lia.
    + inversion HP; subst. clear HP.
      assert (HcQ : (c_i stQ <? length Q)%nat && (j' + 2 + 1 <? MaxNodes)%nat = false).
      { rewrite Hi, ltb_shift. apply andb_false_iff in Ec. destruct Ec as [Ec | Ec].
        - rewrite Ec. reflexivity.
        - apply Nat.ltb_ge in Ec. unfold MaxNodes in *. lia. }
      destruct fQ; cbn [loop] in HQ; rewrite HcQ in HQ; inversion HQ; subst;
        (split; [reflexivity | exact Hrel]).
Qed.
End ShiftNodes.
End Shift.

(** *** The class walk reads its slice up to the terminator only *)

Lemma at_agree (txt1 txt2 : list byte) (k : nat) :
  nth_error txt1 k = nth_error txt2 k -> at_ txt1 k = at_ txt2 k.
Proof. unfold at_. intros ->. reflexivity. Qed.

Lemma classRange_agree (b : byte) (txt1 txt2 : list byte) (i : nat) (str : list byte)
    (c1 n1 c2 n2 : unit -> run bool) :
  nth_error txt1 (i - 1) = nth_error txt2 (i - 1) ->
  c1 tt = c2 tt -> n1 tt = n2 tt ->
  classRange b txt1 i str c1 n1 = classRange b txt2 i str c2 n2.
Proof.
  intros Ht Hc Hn. unfold classRange. rewrite (at_agree _ _ _ Ht), Hc, Hn. reflexivity.
Qed.

Lemma classLoop_agree (b : byte) (txt1 txt2 : list byte) (n : nat) :
  forall (str : list byte) (i : nat),
    (length str <= n)%nat ->
    (forall k, (k < i + length str)%nat -> nth_error txt1 k = nth_error txt2 k) ->
    classLoop b txt1 i str = classLoop b txt2 i str.
Proof.
  induction n as [|n IH]; intros str i Hlen Hag.
  - destruct str; [reflexivity | cbn [length] in Hlen; lia].
  - destruct str as [|s0 str1]; [reflexivity |]. cbn [classLoop].
    cbn [length] in Hlen, Hag.
    destruct (s0 =? 0); [reflexivity |].
    destruct (s0 =? chr "\").
    + destruct str1 as [|s1 str2]; [reflexivity |].
      destruct (matchMetaChar b s1); [reflexivity |].
      destruct str2 as [|t0 str3]; [reflexivity |].
      cbn [length] in Hlen, Hag.
      assert (H2 : classLoop b txt1 (i + 2) (t0 :: str3) = classLoop b txt2 (i + 2) (t0 :: str3)).
      { apply IH; [cbn [length]; lia |]. intros k Hk. apply Hag. cbn [length] in Hk. lia. }
      destruct (isMeta t0); [exact H2 |].
      apply classRange_agree.
      * apply Hag. lia.
      * exact H2.
      * apply IH; [lia |]. intros k Hk. apply Hag. lia.
    + destruct (s0 =? b); [reflexivity |].
      apply classRange_agree.
      * apply Hag. lia.
      * apply IH; [lia |]. intros k Hk. apply Hag. lia.
      * destruct str1 as [|s1 str2]; [reflexivity |].
        cbn [length] in Hlen, Hag.
        apply IH; [lia |]. intros k Hk. apply Hag. lia.
Qed.

(** Two slices that agree up to a zero byte give the same class. *)
Lemma matchCharClass_agree (b : byte) (pay t1 t2 : list byte) :
  matchCharClass b (pay ++ 0 :: t1) = matchCharClass b (pay ++ 0 :: t2).
Proof.
  unfold matchCharClass.
  destruct (IndexByte_upto0 pay t1) as [I1 F1].
  destruct (IndexByte_upto0 pay t2) as [I2 F2].
  rewrite I1, I2. cbv zeta.
  assert (Hpre : forall k, (k <= length pay)%nat ->
            nth_error (pay ++ 0 :: t1) k = nth_error (pay ++ 0 :: t2) k).
  { intros k Hk. destruct (Nat.eq_dec k (length pay)) as [-> | Hne].
    - rewrite !nth_error_app2, Nat.sub_diag by lia. reflexivity.
    - rewrite !nth_error_app1 by lia. reflexivity. }
  assert (Hz : (length (upto0 pay) <= length pay)%nat).
  { clear. induction pay as [|c l IH]; [reflexivity |]. cbn [upto0].
    destruct (c =? 0); cbn [length]; lia. }
  destruct (upto0 pay) as [|u l] eqn:Eu.
  - cbn [length Z.of_nat Z.ltb Z.compare].
    destruct pay as [|c pay'].
    + reflexivity.
    + cbn [upto0] in Eu. destruct (c =? 0) eqn:Ec; [| discriminate Eu].
      cbn [app classLoop]. rewrite Ec. reflexivity.
  - replace (0 <? Z.of_nat (length (u :: l))) with true
      by (symmetry; apply Z.ltb_lt; cbn [length]; lia).
    replace (Z.to_nat (Z.of_nat (length (u :: l)) + 1)) with (S (length (u :: l))) by lia.
    rewrite F1, F2.
    apply (classLoop_agree b _ _ (length ((u :: l) ++ [0]))); [lia |].
    intros k Hk. apply Hpre. rewrite length_app in Hk. cbn [length] in *. lia.
Qed.

(** *** Node cursors that [match] cannot tell apart *)

Lemma match_msim (bufP bufQ : list byte) (n : nat) :
  forall nsP nsQ,
    (length nsP <= n)%nat -> msim bufP bufQ nsP nsQ ->
    forall t, match_ bufQ nsQ t = match_ bufP nsP t.
Proof.
  induction n as [|n IH]; intros nsP nsQ Hlen Hsim t.
  - destruct Hsim; cbn [length] in Hlen; exfalso; lia.
  - inversion Hsim as [n0 ns n0' ns' H0 H0' | n0 ns n0' ns' Ht Hm Hone Hrest]; subst.
    + cbn [match_]. rewrite H0, H0'. reflexivity.
    + destruct (Type_eqb (typ n0) TNone) eqn:E0.
      { cbn [match_]. rewrite Ht, E0. reflexivity. }
      cbn [length] in Hlen.
      inversion Hrest as [n1 nn n1' nn' H1 H1' | n1 nn n1' nn' Ht1 Hm1 Hone1 Hrest1]; subst.
      * rewrite !match_unfold. rewrite Ht, E0, H1, H1'. cbv zeta.
        destruct (Type_eqb (typ n0) TEnd && Type_eqb TNone TNone); [reflexivity |].
        destruct t as [|c t']; [reflexivity |]. rewrite Hone.
        destruct (matchOne bufP n0 c) as [[|] |]; cbn [rbind]; try reflexivity.
        cbn [match_]. rewrite H1, H1'. reflexivity.
      * assert (IH1 : forall u, match_ bufQ (n1' :: nn') u = match_ bufP (n1 :: nn) u)
          by (apply IH; [cbn [length] in *; lia | exact Hrest]).
        assert (IH2 : typ n1 <> TNone ->
                      forall u, match_ bufQ nn' u = match_ bufP nn u).
        { intros _. apply IH; [cbn [length] in Hlen; lia | exact Hrest1]. }
        rewrite !match_unfold. rewrite Ht, E0, Ht1, Hm1. cbv zeta.
        destruct (Type_eqb (typ n0) TEnd && Type_eqb (typ n1) TNone); [reflexivity |].
        destruct (typ n1) eqn:E1;
          try (apply matchQuant_ext; [exact Hone | apply IH2; discriminate]);
          try (apply matchLQuant_ext; [exact Hone | apply IH2; discriminate]);
          (destruct t as [|c t']; [reflexivity |]; rewrite Hone;
           destruct (matchOne bufP n0 c) as [[|] |]; cbn [rbind]; try reflexivity;
           apply IH1).
Qed.

Lemma scan_msim (bufP bufQ : list byte) (nsP nsQ : list node) :
  msim bufP bufQ nsP nsQ -> forall b, scan bufQ nsQ b = scan bufP nsP b.
Proof.
  intros H b. induction b as [|x b IH]; [reflexivity |].
  cbn [scan]. rewrite (match_msim _ _ (length nsP) _ _ (Nat.le_refl _) H), IH. reflexivity.
Qed.

(** *** The byte tests of a pattern compiled after a prefix *)

Lemma skipn_cons_nth {A} (l : list A) (i : nat) (x : A) :
  nth_error l i = Some x -> skipn i l = x :: skipn (S i) l.
Proof.
  revert i. induction l as [|y l IH]; intros i H; [destruct i; discriminate H |].
  destruct i as [|i]; cbn [nth_error skipn] in *.
  - injection H as ->. reflexivity.
  - apply IH. exact H.
Qed.

Lemma skipn_is_app {A} (l : list A) :
  forall (b : list A) (o : nat),
    (forall k, (k < length l)%nat -> nth_error b (o + k) = nth_error l k) ->
    skipn o b = l ++ skipn (o + length l) b.
Proof.
  induction l as [|x l IH]; intros b o H.
  - cbn [length app]. rewrite Nat.add_0_r. reflexivity.
  - assert (H0 : nth_error b o = Some x).
    { specialize (H 0%nat ltac:(cbn [length]; lia)). rewrite Nat.add_0_r in H. exact H. }
    rewrite (skipn_cons_nth _ _ _ H0). cbn [app length]. f_equal.
    rewrite (IH b (S o)).
    + f_equal. f_equal. lia.
    + intros k Hk. specialize (H (S k) ltac:(cbn [length]; lia)).
      replace (S o + k)%nat with (o + S k)%nat by lia. exact H.
Qed.

Lemma nth_error_seg {A} (b : list A) (lo hi k : nat) :
  (lo + k < hi)%nat -> nth_error (seg b lo hi) k = nth_error b (lo + k).
Proof.
  intros H. unfold seg. rewrite nth_error_skipn, nth_error_firstn.
  destruct (Nat.ltb_spec (lo + k) hi); [reflexivity | lia].
Qed.

Lemma matchOne_shift (d idx : nat) (bufP bufQ : list byte) (nd : node) (c : byte) :
  node_ok bufP idx nd -> brel d idx bufP bufQ ->
  matchOne bufQ (shift_node d nd) c = matchOne bufP nd c.
Proof.
  intros [Hok _] Hrel.
  assert (Hclass : typ nd = TClass \/ typ nd = TNClass ->
            matchCharClass c (cclOf bufQ (shift_node d nd))
            = matchCharClass c (cclOf bufP nd)).
  { intros Ht. destruct (Hok Ht) as (off & pay & Hccl & _ & Hlt & Hlen & Hseg).
    unfold cclOf. cbn [shift_node ccl]. rewrite Hccl. cbn [option_map].
    assert (HP : forall k, (k < length (pay ++ [0%Z]))%nat ->
              nth_error bufP (off + k) = nth_error (pay ++ [0]) k).
    { intros k Hk. rewrite length_app in Hk. cbn [length] in Hk.
      rewrite <- Hseg. symmetry. apply nth_error_seg. lia. }
    assert (HQ : forall k, (k < length (pay ++ [0%Z]))%nat ->
              nth_error bufQ (off + d + k) = nth_error (pay ++ [0]) k).
    { intros k Hk. rewrite <- (HP k Hk).
      replace (off + d + k)%nat with (off + k + d)%nat by lia.
      apply Hrel. rewrite length_app in Hk. cbn [length] in Hk. lia. }
    rewrite (skipn_is_app _ _ _ HP), (skipn_is_app _ _ _ HQ).
    rewrite <- !app_assoc. cbn [app]. apply matchCharClass_agree. }
  unfold matchOne. cbn [shift_node typ ch].
  destruct (typ nd); try reflexivity.
  - apply Hclass. left. reflexivity.
  - unfold rnegb. rewrite Hclass by (right; reflexivity). reflexivity.
Qed.

(** The node written by an iteration is quantifiable exactly when the
    iteration sets [quable]. *)
Lemma step_quable expr j st st' :
  step expr j st = Ok st' ->
  exists nd, nth_error (c_nodes st') j = Some nd /\ quantifiable (typ nd) = c_quable st'.
Proof.
  intros H.
  assert (HQ : compileQuant expr j st = Ok st' \/ compileClass expr j st = Ok st'
               \/ exists f, upd (c_nodes st) j f = Ok (c_nodes st')
                            /\ (forall nd, quantifiable (typ (f nd)) = c_quable st')).
  { unfold step, compileMark, compileEscape in H. ok_all; auto; right; right;
      cbn [c_nodes c_quable];
      match goal with
      | E1 : upd (c_nodes st) j ?f = Ok ?a, E2 : upd ?a j ?g = Ok _ |- _ =>
          exists (fun nd => g (f nd)); split; [exact (upd_upd _ _ _ _ _ _ E1 E2) |];
          intros nd; reflexivity
      | E1 : upd (c_nodes st) j ?f = Ok _ |- _ =>
          exists f; split; [exact E1 |]; intros nd; reflexivity
      end. }
  destruct HQ as [HQ | [HC | (f & Hu & Hf)]].
  - assert (Hq : c_quable st' = false) by (unfold compileQuant in HQ; ok_all; reflexivity).
    apply compileQuant_Ok in HQ. destruct HQ as (_ & _ & nd & Hlt & Hns & Ht & _).
    exists nd. rewrite Hns, Hq. split; [apply nth_error_set_nth_eq; exact Hlt |].
    destruct Ht as [-> | ->]; reflexivity.
  - assert (Hq : c_quable st' = true) by (unfold compileClass in HC; ok_all; reflexivity).
    apply compileClass_Ok in HC.
    destruct HC as (_ & _ & _ & _ & nd & T & Hnd & HT & Hns).
    eexists. rewrite Hns, Hq. split.
    + apply nth_error_set_nth_eq. apply nth_error_Some. rewrite Hnd. discriminate.
    + cbn [typ set_ccl set_typ]. destruct HT as [-> | ->]; reflexivity.
  - apply upd_Ok in Hu. destruct Hu as (nd & Hnd & Hns).
    exists (f nd). rewrite Hns. split; [| apply Hf].
    apply nth_error_set_nth_eq. apply nth_error_Some. rewrite Hnd. discriminate.
Qed.

(** A pattern that compiles does not start with [?]. *)
Lemma compile_Ok_first (P : list byte) (re : Regexp) :
  compile P = Ok re -> peek P 0 (chr "?") = false.
Proof.
  unfold compile. intros H.
  destruct (length P =? 0)%nat eqn:E0; [discriminate H |]. apply Nat.eqb_neq in E0.
  change MaxNodes with (S 63) in H at 1. rewrite loop_unfold in H.
  change (c_i init_state) with 0%nat in H.
  replace ((0 <? length P)%nat) with true in H by (symmetry; apply Nat.ltb_lt; lia).
  change ((0 + 1 <? MaxNodes)%nat) with true in H. cbn [andb] in H.
  unfold peek. destruct P as [|c P']; [reflexivity |]. cbn [nth_error].
  destruct (c =? chr "?") eqn:Ec; [| reflexivity].
  apply Z.eqb_eq in Ec. subst c.
  unfold step, get in H. cbn [init_state c_i nth_error bind] in H.
  discriminate H.
Qed.

(** *** The quantifier [{0,n}] *)

(** [case '{':] on the text [{0,ds}], [ds] being the digits of [n]. *)
Lemma compileQuant_zero_min expr j st (ds : list byte) :
  c_quable st = true ->
  nth_error (c_nodes st) j = Some zero_node ->
  nth_error expr (S (c_i st)) = Some (chr "0") ->
  nth_error expr (S (S (c_i st))) = Some (chr ",") ->
  (forall k dg, nth_error ds k = Some dg ->
     nth_error expr (S (S (S (c_i st))) + k) = Some dg) ->
  nth_error expr (S (S (S (c_i st))) + length ds) = Some (chr "}") ->
  peek expr (S (S (S (S (c_i st))) + length ds)) (chr "?") = false ->
  Forall (fun dg => matchDigit dg = true) ds -> ds <> [] ->
  decimal 0 ds <= MaxQuant ->
  compileQuant expr j st
  = Ok (mkState (S (S (S (c_i st))) + length ds) false (c_idx st)
          (set_nth (c_nodes st) j (mkNode TQuant 0 None (0, decimal 0 ds)))
          (c_buffer st)).
Proof.
  intros Hq Hnd H0 Hc Hk He Hpk Hds Hne Hm.
  assert (Hlen : (S (S (S (c_i st))) + length ds < length expr)%nat)
    by (apply nth_error_Some; rewrite He; discriminate).
  pose proof (decimal_ge ds Hds 0 ltac:(lia)) as Hge.
  unfold compileQuant. rewrite Hq. cbn [negb]. cbv zeta.
  rewrite (quantMin_digits expr (chr ",") [chr "0"]);
    [| repeat constructor | discriminate | left; reflexivity
     | intros [|k] dg Hd; [injection Hd as <-; rewrite Nat.add_0_r; exact H0
                          | destruct k; discriminate Hd]
     | cbn [length]; rewrite Nat.add_1_r; exact Hc
     | lia | vm_compute; discriminate | cbn [length]; lia].
  cbn [bind length]. cbv zeta. rewrite Nat.add_1_r.
  change (decimal 0 [chr "0"]) with 0. change (MaxQuant <? 0) with false. cbv iota.
  rewrite (upd_eval _ _ _ _ Hnd). cbn [bind].
  unfold get at 1. rewrite Hc. cbn [bind]. change (chr "," =? chr ",") with true. cbv iota.
  replace ((length expr <=? S (S (S (c_i st))))%nat) with false
    by (symmetry; apply Nat.leb_gt; lia).
  destruct ds as [|d0 ds'] eqn:Eds; [congruence |]. rewrite <- Eds in *.
  assert (Hd0 : nth_error expr (S (S (S (c_i st)))) = Some d0).
  { specialize (Hk 0%nat d0). rewrite Nat.add_0_r in Hk. apply Hk. rewrite Eds. reflexivity. }
  unfold get at 1. rewrite Hd0. cbn [bind].
  assert (Hdig : matchDigit d0 = true) by (rewrite Eds in Hds; inversion Hds; assumption).
  destruct (digit_step 0 d0 Hdig ltac:(lia)) as (_ & _ & _ & Hnb & _).
  { unfold matchDigit in Hdig. apply andb_true_iff in Hdig. destruct Hdig as [A0 A9].
    apply Z.leb_le in A0, A9. change (chr "0") with 48 in *. change (chr "9") with 57 in *.
    unfold max_int. lia. }
  rewrite Hnb.
  rewrite (quantMax_digits expr ds Hds (length expr) (S (S (S (c_i st)))) 0 Hk He);
    [| lia | unfold MaxQuant, max_int in *; lia | lia].
  cbn [bind]. cbv zeta.
  assert (Hj : (j < length (c_nodes st))%nat)
    by (apply nth_error_Some; rewrite Hnd; discriminate).
  unfold get at 1. rewrite nth_error_set_nth_eq by exact Hj. cbn [bind mn set_mn0 fst].
  replace ((MaxQuant <? decimal 0 ds) || (decimal 0 ds <? 0)) with false
    by (symmetry; apply orb_false_iff; split; apply Z.ltb_ge; lia).
  cbn [bind]. rewrite Hpk.
  rewrite (upd_eval _ _ (set_mn0 0 zero_node)) by (apply nth_error_set_nth_eq; exact Hj).
  cbn [bind]. rewrite set_nth_twice.
  rewrite (upd_eval _ _ (set_typ TQuant (set_mn0 0 zero_node)))
    by (apply nth_error_set_nth_eq; exact Hj).
  cbn [bind]. rewrite set_nth_twice. reflexivity.
Qed.

(** *** A pattern and the same pattern after an optional atom *)

Lemma layout_unique (k k' : nat) (ns : list node) :
  layout k ns -> layout k' ns -> (k < MaxNodes)%nat -> (k' < MaxNodes)%nat -> k = k'.
Proof.
  intros [Hl H] [_ H'] Hk Hk'.
  destruct (Nat.lt_trichotomy k k') as [Hlt | [-> | Hlt]]; [| reflexivity |]; exfalso.
  - destruct (nth_error ns k) as [nd |] eqn:E;
      [| apply nth_error_None in E; lia].
    destruct (H k nd E) as [_ Hz]. destruct (H' k nd E) as [Hn _].
    apply (Hn Hlt). rewrite (Hz (Nat.le_refl k)). reflexivity.
  - destruct (nth_error ns k') as [nd |] eqn:E;
      [| apply nth_error_None in E; lia].
    destruct (H' k' nd E) as [_ Hz]. destruct (H k' nd E) as [Hn _].
    apply (Hn Hlt). rewrite (Hz (Nat.le_refl k')). reflexivity.
Qed.

Lemma msim_compiled (d idx k : nat) (A Qn : node) (bufP bufQ : list byte)
    (nsP nsQ : list node) :
  nrel d A Qn nsP nsQ -> layout k nsP -> (k + 2 < MaxNodes)%nat ->
  Forall (node_ok bufP idx) nsP -> brel d idx bufP bufQ ->
  forall m i, (i + m = k)%nat ->
    msim bufP bufQ (skipn i nsP) (skipn (i + 2) nsQ).
Proof.
  intros (HlQ & _ & _ & Hrel) [HlP Hlay] Hk Hok Hb.
  induction m as [|m IH]; intros i Hi.
  - rewrite Nat.add_0_r in Hi. subst i.
    destruct (nth_error nsP k) as [nd |] eqn:E; [| apply nth_error_None in E; lia].
    destruct (Hlay k nd E) as [_ Hz]. specialize (Hz (Nat.le_refl k)). subst nd.
    rewrite (skipn_cons_nth _ _ _ E), (skipn_cons_nth _ _ _ (Hrel k zero_node Hk E)).
    apply msim_sentinel; reflexivity.
  - destruct (nth_error nsP i) as [nd |] eqn:E; [| apply nth_error_None in E; lia].
    assert (Hi2 : (i + 2 < MaxNodes)%nat) by lia.
    rewrite (skipn_cons_nth _ _ _ E), (skipn_cons_nth _ _ _ (Hrel i nd Hi2 E)).
    apply msim_cons; [reflexivity | reflexivity | |].
    + intros c. apply (matchOne_shift d idx); [| exact Hb].
      rewrite Forall_forall in Hok. apply Hok. apply (nth_error_In _ _ E).
    + change (S (i + 2)) with (S i + 2)%nat. apply IH. lia.
Qed.

Lemma step_brace expr j st :
  nth_error expr (c_i st) = Some (chr "{") ->
  step expr j st = compileQuant expr j st.
Proof. intros H. unfold step, get. rewrite H. reflexivity. Qed.

(** The compiled form of [A{0,n}P], when [P] compiles to at most 61
    nodes: the node of [A], the quantifier node, then the nodes of [P]
    with their class payloads moved behind those of [A]. *)
Lemma compile_after_optional (A ds P : list byte) (reP reQ : Regexp) (k : nat) :
  reads_atom ((A ++ chr "{" :: chr "0" :: chr "," :: ds ++ [chr "}"]) ++ P) A ->
  Forall (fun dg => matchDigit dg = true) ds -> ds <> [] ->
  decimal 0 ds <= MaxQuant ->
  compile P = Ok reP ->
  compile ((A ++ chr "{" :: chr "0" :: chr "," :: ds ++ [chr "}"]) ++ P) = Ok reQ ->
  layout k (nodes reP) -> (k + 2 < MaxNodes)%nat ->
  exists A' rest,
    quantifiable (typ A') = true
    /\ nodes reQ = A' :: mkNode TQuant 0 None (0, decimal 0 ds) :: rest
    /\ msim (buffer reP) (buffer reQ) (nodes reP) rest.
Proof.
  set (X := chr "{" :: chr "0" :: chr "," :: ds ++ [chr "}"]).
  set (pre := A ++ X).
  intros (st1 & HS1 & HiA & Hq1) Hds Hne Hdec HP HQ Hlay Hk.
  assert (Hlen : length pre = (length A + 4 + length ds)%nat).
  { unfold pre, X. rewrite length_app. cbn [length]. rewrite length_app.
    cbn [length]. lia. }
  assert (Hat : forall m, nth_error (pre ++ P) (length A + m) = nth_error (X ++ P) m).
  { intros m. unfold pre. rewrite <- app_assoc. rewrite nth_error_app2 by lia.
    f_equal. lia. }
  pose proof (compile_Ok_first P reP HP) as Hfirst.
  (* the run on P *)
  unfold compile in HP.
  destruct (length P =? 0)%nat; [discriminate HP |].
  destruct (loop P MaxNodes 0 init_state) as [[jP stP] | | |] eqn:ELP;
    cbn [bind] in HP; try discriminate HP.
  destruct (upd (c_nodes stP) jP (set_typ TNone)) as [nsP | | |] eqn:EUP;
    cbn [bind] in HP; try discriminate HP.
  injection HP as <-. cbn [nodes buffer] in *.
  destruct (loop_layout _ _ _ _ _ _ ELP ltac:(unfold MaxNodes; lia)
              init_layout init_bounded ltac:(apply repeat_length))
    as (HjP & HlayP & _ & _).
  destruct (loop_inv _ _ _ _ _ _ ELP ltac:(unfold MaxNodes; lia) init_state_inv)
    as (_ & Hidx & Hall & _).
  assert (HnsP : nsP = c_nodes stP).
  { pose proof EUP as EU. apply upd_Ok in EU. destruct EU as (nd & Hnd & ->).
    destruct HlayP as [_ Hz]. destruct (Hz jP nd Hnd) as [_ Hzz].
    pose proof (Hzz (Nat.le_refl _)) as ->.
    apply set_nth_same. exact Hnd. }
  assert (HjPk : jP = k).
  { apply (layout_unique jP k nsP); [rewrite HnsP; exact HlayP | exact Hlay | lia | lia]. }
  (* the first two iterations on the longer pattern *)
  destruct (step_Ok _ _ _ _ HS1) as (_ & _ & nd & Hns1 & _ & _).
  destruct (step_quable _ _ _ _ HS1) as (nd' & Hnd' & Hquant).
  assert (Hnd0 : nth_error (c_nodes st1) 0 = Some nd).
  { rewrite Hns1. apply nth_error_set_nth_eq. cbn. lia. }
  rewrite Hnd0 in Hnd'. injection Hnd' as <-. rewrite Hq1 in Hquant.
  unfold compile in HQ.
  destruct (length (pre ++ P) =? 0)%nat eqn:EnQ; [discriminate HQ |].
  apply Nat.eqb_neq in EnQ.
  change (loop (pre ++ P) MaxNodes 0 init_state)
    with (loop (pre ++ P) (S (S 62)) 0 init_state) in HQ.
  rewrite loop_unfold in HQ.
  match type of HQ with context [if ?c then _ else _] =>
    assert (Hc : c = true)
      by (apply andb_true_iff; split; apply Nat.ltb_lt;
          [cbn [c_i init_state]; lia | unfold MaxNodes; lia]);
    rewrite Hc in HQ; clear Hc
  end.
  rewrite HS1 in HQ. cbn [bind] in HQ.
  rewrite loop_unfold in HQ.
  cbn [c_i c_quable c_idx c_nodes c_buffer] in HQ.
  match type of HQ with context [if ?c then _ else _] =>
    assert (Hc : c = true)
      by (apply andb_true_iff; split; apply Nat.ltb_lt;
          [rewrite length_app, Hlen; lia | unfold MaxNodes; lia]);
    rewrite Hc in HQ; clear Hc
  end.
  rewrite HiA, Hq1 in HQ.
  set (st2 := mkState (length A) true (c_idx st1) (c_nodes st1) (c_buffer st1)) in HQ.
  assert (Hbrace : nth_error (pre ++ P) (c_i st2) = Some (chr "{")).
  { cbn [c_i st2]. replace (length A) with (length A + 0)%nat by lia.
    rewrite Hat. reflexivity. }
  rewrite (step_brace _ _ _ Hbrace) in HQ.
  rewrite (compileQuant_zero_min (pre ++ P) 1 st2 ds) in HQ; try assumption.
  2: reflexivity.
  2: { cbn [c_nodes st2]. rewrite Hns1. rewrite nth_error_set_nth_ne by lia.
       reflexivity. }
  2: { cbn [c_i st2]. replace (S (length A)) with (length A + 1)%nat by lia.
       rewrite Hat. reflexivity. }
  2: { cbn [c_i st2]. replace (S (S (length A))) with (length A + 2)%nat by lia.
       rewrite Hat. reflexivity. }
  2: { intros i dg Hi. cbn [c_i st2].
       replace (S (S (S (length A))) + i)%nat with (length A + S (S (S i)))%nat by lia.
       rewrite Hat. unfold X. cbn [app nth_error].
       rewrite <- app_assoc. rewrite nth_error_app1; [exact Hi |].
       apply nth_error_Some. rewrite Hi. discriminate. }
  2: { cbn [c_i st2].
       replace (S (S (S (length A))) + length ds)%nat
         with (length A + S (S (S (length ds))))%nat by lia.
       rewrite Hat. unfold X. cbn [app nth_error].
       rewrite <- app_assoc. rewrite nth_error_app2 by lia.
       rewrite Nat.sub_diag. reflexivity. }
  2: { cbn [c_i st2].
       replace (S (S (S (S (length A))) + length ds))%nat
         with (0 + length pre)%nat by lia.
       rewrite peek_shift. exact Hfirst. }
  cbn [bind c_i c_quable c_idx c_nodes c_buffer st2] in HQ.
  match type of HQ with context [loop _ _ _ ?s] => set (stQ0 := s) in HQ end.
  destruct (loop (pre ++ P) 62 2 stQ0) as [[jQ stQ] | | |] eqn:ELQ;
    cbn [bind] in HQ; try discriminate HQ.
  destruct (upd (c_nodes stQ) jQ (set_typ TNone)) as [nsQ | | |] eqn:EUQ;
    cbn [bind] in HQ; try discriminate HQ.
  injection HQ as <-. cbn [nodes buffer].
  set (Qn := mkNode TQuant 0 None (0, decimal 0 ds)) in *.
  assert (Hs0 : srel (length pre) (c_idx st1) nd Qn init_state stQ0).
  { unfold srel, stQ0. cbn [c_i c_quable c_idx c_nodes c_buffer init_state].
    split; [lia |]. split; [reflexivity |]. split; [reflexivity |].
    split.
    - unfold nrel. rewrite Hns1. cbn [c_nodes init_state].
      split; [rewrite !length_set_nth; apply repeat_length |].
      split; [rewrite nth_error_set_nth_ne by lia; apply nth_error_set_nth_eq;
              rewrite repeat_length; unfold MaxNodes; lia |].
      split; [apply nth_error_set_nth_eq; rewrite length_set_nth, repeat_length;
              unfold MaxNodes; lia |].
      intros i x Hi Hx. apply nth_error_In in Hx. apply repeat_spec in Hx. subst x.
      rewrite !nth_error_set_nth_ne by lia.
      apply nth_error_repeat. exact Hi.
    - intros i Hi. lia. }
  destruct (loop_shift pre P (c_idx st1) nd Qn MaxNodes 62 0 init_state stQ0
              jP stP jQ stQ ELP ELQ ltac:(lia) Hs0)
    as (HjQ & _ & _ & _ & Hnrel & Hbrel).
  subst jQ.
  pose proof (upd_shift (c_idx st1) nd Qn _ _ _ _ jP (set_typ TNone) (set_typ TNone)
                EUP EUQ Hnrel (fun x => eq_refl)) as Hnrel'.
  exists nd, (skipn 2 nsQ). split; [exact Hquant |]. split.
  - destruct Hnrel' as (_ & H0 & H1 & _).
    destruct nsQ as [|a [|b r]]; try discriminate H0; try discriminate H1.
    cbn in H0, H1. injection H0 as ->. injection H1 as ->. reflexivity.
  - apply (msim_compiled (c_idx st1) (c_idx stP) k nd Qn (c_buffer stP) (c_buffer stQ)
             nsP nsQ Hnrel' Hlay Hk ltac:(rewrite HnsP; exact Hall) Hbrel k 0%nat eq_refl).
Qed.

(** C8, counterexample. Three inputs that a pattern accepts and the
    pattern with an optional atom prepended does not.  [^b] accepts [b];
    in [a{0,1}^b] the anchor is no longer the first node, it is a dead
    node, and [b] is rejected.  Sixty [a] then [b*] fill 62 nodes and
    accept sixty [a]; with [c{0,1}] prepended the [*] falls off the node
    array, the [b] becomes mandatory and the same input is rejected.
    [a{9223372036854775808,0}c] has a wrapped, negative minimum and still
    accepts [c]; after [c{0,1}] the core match runs on the empty rest,
    backs off below zero and fails. *)
Lemma prepended_quantifier_rejects :
  (exists reP reQ,
     Compile "^b" = Ok reP /\ Compile "a{0,1}^b" = Ok reQ
     /\ Match reP (bytes "b") = Val true
     /\ Match reQ (bytes "b") = Val false)
  /\ (exists reP reQ,
        compile (repeat (chr "a") 60 ++ bytes "b*") = Ok reP
        /\ compile (bytes "c{0,1}" ++ repeat (chr "a") 60 ++ bytes "b*") = Ok reQ
        /\ layout 62 (nodes reP)
        /\ Match reP (repeat (chr "a") 60) = Val true
        /\ Match reQ (repeat (chr "a") 60) = Val false)
  /\ (exists reP reQ,
        Compile "a{9223372036854775808,0}c" = Ok reP
        /\ Compile "c{0,1}a{9223372036854775808,0}c" = Ok reQ
        /\ Match reP (bytes "c") = Val true
        /\ Match reQ (bytes "c") = Panic).
Proof.
  split; [| split].
  - do 2 eexists. split; [vm_compute; reflexivity |].
    split; [vm_compute; reflexivity |]. split; reflexivity.
  - do 2 eexists. split; [vm_compute; reflexivity |].
    split; [vm_compute; reflexivity |].
    split; [| split; vm_compute; reflexivity].
    split; [reflexivity |].
    intros i nd H. split.
    + intros Hi.
      do 62 (destruct i as [|i]; [injection H as <-; discriminate |]). lia.
    + intros Hi.
      do 62 (destruct i as [|i]; [lia |]).
      do 2 (destruct i as [|i]; [injection H as <-; reflexivity |]).
      destruct i; discriminate H.
  - do 2 eexists. split; [vm_compute; reflexivity |].
    split; [vm_compute; reflexivity |]. split; vm_compute; reflexivity.
Qed.

(** C8, for a remainder that is not anchored at the start and leaves
    room for two more nodes. Let [A] be a quantifiable atom, [ds] the
    decimal digits of a bound [n <= MaxQuant], and [P] a pattern that
    compiles to [k <= 61] nodes, the first of them not [Begin], with no
    wrapped (negative) minimum. If the pattern [A{0,n}P] compiles, every
    input that [Match] accepts for [P] is accepted for [A{0,n}P]. *)
Theorem zero_min_quantifier_keeps_matches
    (A ds P : list byte) (reP reQ : Regexp) (k : nat) (b : list byte) :
  reads_atom ((A ++ chr "{" :: chr "0" :: chr "," :: ds ++ [chr "}"]) ++ P) A ->
  Forall (fun dg => matchDigit dg = true) ds -> ds <> [] ->
  decimal 0 ds <= MaxQuant ->
  compile P = Ok reP ->
  compile ((A ++ chr "{" :: chr "0" :: chr "," :: ds ++ [chr "}"]) ++ P) = Ok reQ ->
  layout k (nodes reP) -> (k + 2 < MaxNodes)%nat ->
  (forall n0 ns, nodes reP = n0 :: ns -> typ n0 <> TBegin) ->
  (forall nd, In nd (nodes reP) -> typ nd = TQuant -> 0 <= fst (mn nd)) ->
  Match reP b = Val true -> Match reQ b = Val true.
Proof.
  intros HA Hds Hne Hdec HP HQ Hlay Hk Hfirst Hmin HM.
  destruct (compile_after_optional A ds P reP reQ k HA Hds Hne Hdec HP HQ Hlay Hk)
    as (A' & rest & Hq & Hnodes & Hsim).
  destruct (compile_nodes_ok _ _ HP) as (HoneP & _ & sP & HsP & HtsP).
  destruct (compile_nodes_ok _ _ HQ) as (HoneQ & _ & _).
  assert (Htot : forall t, match_ (buffer reQ) rest t <> Panic).
  { intros t.
    rewrite (match_msim _ _ (length (nodes reP)) _ _ (Nat.le_refl _) Hsim).
    apply match_total. apply (wf_cursor_intro _ (length (nodes reP)));
      [lia | exact HoneP | exact Hmin |].
    exists (MaxNodes - 1)%nat, sP. split; assumption. }
  unfold Match in *.
  destruct (Nat.eqb (length b) 0); [discriminate HM |].
  destruct (nodes reP) as [|n0 ns] eqn:EP; [discriminate HM |].
  specialize (Hfirst n0 ns eq_refl). apply Type_eqb_neq in Hfirst.
  rewrite Hfirst in HM. rewrite Hnodes.
  replace (Type_eqb (typ A') TBegin) with false
    by (destruct (typ A'); try discriminate Hq; reflexivity).
  apply scan_prepend.
  - exact Hq.
  - split; [apply (decimal_ge ds Hds 0); lia | unfold MaxQuant, max_int in *; lia].
  - intros c. apply HoneQ. rewrite Hnodes. left. reflexivity.
  - exact Htot.
  - rewrite (scan_msim _ _ _ _ Hsim). exact HM.
Qed.

(** C8, instance: [[xy]z] accepts [ayz], and so does [[ab]{0,3}[xy]z],
    whose second class payload lies behind the payload of [[ab]]. *)
Lemma zero_min_quantifier_keeps_matches_witness :
  exists reP reQ,
    Compile "[xy]z" = Ok reP /\ Compile "[ab]{0,3}[xy]z" = Ok reQ
    /\ Match reP (bytes "ayz") = Val true
    /\ Match reQ (bytes "ayz") = Val true.
Proof.
  do 2 eexists. split; [vm_compute; reflexivity |].
  split; [vm_compute; reflexivity |]. split; [vm_compute; reflexivity |].
  eapply (zero_min_quantifier_keeps_matches (bytes "[ab]") (bytes "3") (bytes "[xy]z")
            _ _ 2%nat (bytes "ayz")).
  - eexists. split; [vm_compute; reflexivity |]. split; reflexivity.
  - repeat constructor.
  - discriminate.
  - vm_compute. discriminate.
  - vm_compute. reflexivity.
  - vm_compute. reflexivity.
  - split; [reflexivity |]. intros i nd H. split.
    + intros Hi.
      do 2 (destruct i as [|i]; [injection H as <-; discriminate |]). lia.
    + intros Hi.
      do 2 (destruct i as [|i]; [lia |]).
      do 62 (destruct i as [|i]; [injection H as <-; reflexivity |]).
      destruct i; discriminate H.
  - unfold MaxNodes. lia.
  - intros n0 ns E. injection E as <- _. discriminate.
  - intros nd Hin Ht. cbn in Hin.
    repeat (destruct Hin as [<- | Hin]; [discriminate Ht |]). contradiction.
  - vm_compute. reflexivity.
Defined.
